(** * Shadow-execution resolver (unlicense/emulation.py)

    A shallow embedding of [resolve_wrapped_api] and of its two engine
    callbacks, [_unicorn_hook_unmapped] (the memory bridge) and
    [_unicorn_hook_block] (the termination oracle).

    The program talks to two collaborators: the process-control service
    (reads of the real process) and the emulation engine (Unicorn).  Both are
    modelled by explicit state passing over a [World] that holds the emulator
    instance and a chronological log of every interaction.  The instruction
    semantics of the engine is a parameter ([Cpu]); the engine's memory map,
    register file and hook dispatch are modelled as the Unicorn API documents
    them. *)

From Stdlib Require Import ZArith List Bool Lia String Strings.Byte.
From stdpp Require Import base gmap strings list.

Open Scope Z_scope.

(** ** Exceptions and results *)

Inductive uc_err :=
| UC_ERR_NOMEM
| UC_ERR_ARG
| UC_ERR_MAP
| UC_ERR_READ_UNMAPPED
| UC_ERR_WRITE_UNMAPPED
| UC_ERR_FETCH_UNMAPPED
| UC_ERR_FETCH_PROT
| UC_ERR_EXCEPTION.

(** Python exceptions that the modelled code can meet.  [UnboundLocalError]
    carries the name of the local variable that was read before assignment. *)
Inductive exn :=
| UcError (e : uc_err)
| NotImplementedError
| UnboundLocalError (var : string)
| StructError
| ProcessReadError.

Inductive result (A : Type) :=
| Return (a : A)
| Raise (e : exn)
| Diverge.
Arguments Return {A} a.
Arguments Raise {A} e.
Arguments Diverge {A}.

(** ** The process-control service *)

Record ExportInfo := { name : string }.

(** Modelled from the spec: the [ProcessController] class
    (process_control.py) is not among the sources.  Section 6 gives its
    capability contract: [architecture], [page_size], [pointer_size],
    [read_process_memory(address, length) -> bytes | Error] and
    [enumerate_exported_functions() -> mapping(address -> {name, ...})].
    A failing read is [None]. *)
Record ProcessController := {
  architecture : string;
  page_size : Z;
  pointer_size : Z;
  read_process_memory : Z -> Z -> option (list byte);
  enumerate_exported_functions : gmap Z ExportInfo
}.

(** Modelled from the spec: the operations a caller can invoke on the
    process-control service.  The first five are the reads of section 6; the
    last one stands for the write capability that section 6 says the core
    never uses. *)
Inductive pc_call :=
| PcArchitecture
| PcPageSize
| PcPointerSize
| PcReadProcessMemory (address size : Z)
| PcEnumerateExportedFunctions
| PcWriteProcessMemory (address : Z) (data : list byte).

(** ** The emulation engine: data *)

Inductive uc_mode := UC_MODE_32 | UC_MODE_64.

Inductive x86_reg :=
| UC_X86_REG_EIP | UC_X86_REG_ESP | UC_X86_REG_EBP
| UC_X86_REG_RIP | UC_X86_REG_RSP | UC_X86_REG_RBP.

Inductive hook_type := UC_HOOK_MEM_UNMAPPED | UC_HOOK_BLOCK.

(** A registered callback with its [user_data].  The process controller is a
    Python object passed by reference; one resolution has one controller, so
    the reference is left implicit and the dispatcher receives the
    controller it points to. *)
Inductive callback :=
| CbUnmapped
| CbBlock (stop_on_ret_addr : Z).

Definition UC_PROT_READ : Z := 1.
Definition UC_PROT_WRITE : Z := 2.
Definition UC_PROT_EXEC : Z := 4.
Definition UC_PROT_ALL : Z := 7.

Record Region := { r_begin : Z; r_size : Z; r_perms : Z }.

Record Regs := {
  reg_pc : Z;
  reg_sp : Z;
  reg_bp : Z;
  msr : gmap Z Z
}.

Record Uc := {
  mode : uc_mode;
  regions : list Region;
  memory : gmap Z byte;
  regs : Regs;
  hooks : list (hook_type * callback);
  stop_request : bool
}.

Definition set_regions (u : Uc) (rs : list Region) : Uc :=
  {| mode := mode u; regions := rs; memory := memory u; regs := regs u;
     hooks := hooks u; stop_request := stop_request u |}.
Definition set_memory (u : Uc) (m : gmap Z byte) : Uc :=
  {| mode := mode u; regions := regions u; memory := m; regs := regs u;
     hooks := hooks u; stop_request := stop_request u |}.
Definition set_regs (u : Uc) (r : Regs) : Uc :=
  {| mode := mode u; regions := regions u; memory := memory u; regs := r;
     hooks := hooks u; stop_request := stop_request u |}.
Definition set_hooks (u : Uc) (h : list (hook_type * callback)) : Uc :=
  {| mode := mode u; regions := regions u; memory := memory u; regs := regs u;
     hooks := h; stop_request := stop_request u |}.
Definition set_stop_request (u : Uc) (b : bool) : Uc :=
  {| mode := mode u; regions := regions u; memory := memory u; regs := regs u;
     hooks := hooks u; stop_request := b |}.

(** Calls made on the engine. *)
Inductive uc_call :=
| UcNew (m : uc_mode)
| UcMemMap (address size perms : Z)
| UcMemWrite (address : Z) (data : list byte)
| UcMemRead (address size : Z)
| UcRegWrite (r : x86_reg) (value : Z)
| UcRegWriteMsr (msr_id value : Z)
| UcRegRead (r : x86_reg)
| UcHookAdd (h : hook_type) (cb : callback)
| UcEmuStart (begin until : Z)
| UcEmuStop.

(** How a run of [emu_start] ended, as seen from its Python caller: it
    returns normally after [emu_stop], when the program counter reaches the
    [until] address, or when the emulated code halts the engine by itself
    (x86 [hlt]); it raises [UcError] (or re-raises what a callback raised)
    otherwise. *)
Inductive run_end :=
| RunStopped
| RunReachedEnd
| RunFault (e : uc_err)
| RunCallbackRaised (e : exn)
| RunHalted.

(** Everything that crosses the boundary between the program and its
    collaborators, in time order. *)
Inductive event :=
| EPc (c : pc_call)
| EUc (c : uc_call)
| ECallback (cb : callback) (address : Z)
| ERunEnd (r : run_end).

(** ** State passing *)

Record World := { uc : option Uc; trace : list event }.

Definition initial_world : World := {| uc := None; trace := [] |}.

Definition M (A : Type) : Type := World -> result A * World.

Definition ret {A} (a : A) : M A := fun w => (Return a, w).
Definition raise {A} (e : exn) : M A := fun w => (Raise e, w).
Definition diverge {A} : M A := fun w => (Diverge, w).

Definition bind {A B} (m : M A) (k : A -> M B) : M B :=
  fun w =>
    match m w with
    | (Return a, w') => k a w'
    | (Raise e, w') => (Raise e, w')
    | (Diverge, w') => (Diverge, w')
    end.

Notation "x <- m ;; k" := (bind m (fun x => k))
  (at level 100, m at next level, right associativity).
Notation "m ;;; k" := (bind m (fun _ => k))
  (at level 100, right associativity).

(** [try: body except Exception: handler] *)
Definition try_except {A} (body : M A) (handler : exn -> M A) : M A :=
  fun w =>
    match body w with
    | (Raise e, w') => handler e w'
    | other => other
    end.

(** [try: body except UcError as e: handler] *)
Definition try_except_UcError {A} (body : M A) (handler : uc_err -> M A) : M A :=
  fun w =>
    match body w with
    | (Raise (UcError e), w') => handler e w'
    | other => other
    end.

Definition log (e : event) : M unit :=
  fun w => (Return tt, {| uc := uc w; trace := trace w ++ [e] |}).

(** An operation on the emulator object bound to the variable [uc]. *)
Definition with_uc {A} (f : Uc -> result A * Uc) : M A :=
  fun w =>
    match uc w with
    | None => (Raise (UnboundLocalError "uc"), w)
    | Some u => let '(r, u') := f u in (r, {| uc := Some u'; trace := trace w |})
    end.

(** Reading a local variable that some branches leave unassigned. *)
Definition local {A} (var : string) (v : option A) : M A :=
  match v with
  | Some a => ret a
  | None => raise (UnboundLocalError var)
  end.

(** ** Process-control calls *)

Definition pc_architecture (p : ProcessController) : M string :=
  log (EPc PcArchitecture) ;;; ret (architecture p).
Definition pc_page_size (p : ProcessController) : M Z :=
  log (EPc PcPageSize) ;;; ret (page_size p).
Definition pc_pointer_size (p : ProcessController) : M Z :=
  log (EPc PcPointerSize) ;;; ret (pointer_size p).
Definition pc_read_process_memory (p : ProcessController) (address size : Z)
  : M (list byte) :=
  log (EPc (PcReadProcessMemory address size)) ;;;
  match read_process_memory p address size with
  | Some data => ret data
  | None => raise ProcessReadError
  end.
Definition pc_enumerate_exported_functions (p : ProcessController)
  : M (gmap Z ExportInfo) :=
  log (EPc PcEnumerateExportedFunctions) ;;; ret (enumerate_exported_functions p).

(** ** struct.pack / struct.unpack on pointer formats *)

Inductive fmt := FmtI | FmtQ.   (* "<I" and "<Q" *)

Definition fmt_size (f : fmt) : nat :=
  match f with FmtI => 4%nat | FmtQ => 8%nat end.

(** Modelled from the spec: [pointer_size_to_fmt] lives in dump_utils.py,
    which is not among the sources.  The spec fixes the word size to 4 or 8
    bytes and the value read is "pointer-sized"; any other size is not a
    supported platform.  The formats are the little-endian unsigned ones of
    the two x86 variants. *)
Definition pointer_fmt (pointer_size : Z) : option fmt :=
  if pointer_size =? 4 then Some FmtI
  else if pointer_size =? 8 then Some FmtQ
  else None.

Definition pointer_size_to_fmt (pointer_size : Z) : M fmt :=
  match pointer_fmt pointer_size with
  | Some f => ret f
  | None => raise NotImplementedError
  end.

Definition byte_of_Z (z : Z) : byte :=
  default x00 (Byte.of_N (Z.to_N z)).
Definition Z_of_byte (b : byte) : Z := Z.of_N (Byte.to_N b).

Fixpoint le_bytes (n : nat) (v : Z) : list byte :=
  match n with
  | O => []
  | S n' => byte_of_Z (v mod 256) :: le_bytes n' (v / 256)
  end.

Fixpoint le_value (data : list byte) : Z :=
  match data with
  | [] => 0
  | b :: rest => Z_of_byte b + 256 * le_value rest
  end.

Definition pack_bytes (f : fmt) (v : Z) : option (list byte) :=
  if (0 <=? v) && (v <? 2 ^ (8 * Z.of_nat (fmt_size f)))
  then Some (le_bytes (fmt_size f) v) else None.

Definition unpack_bytes (f : fmt) (data : list byte) : option Z :=
  if (length data =? fmt_size f)%nat then Some (le_value data) else None.

Definition struct_pack (f : fmt) (v : Z) : M (list byte) :=
  match pack_bytes f v with
  | Some data => ret data
  | None => raise StructError
  end.

Definition struct_unpack (f : fmt) (data : list byte) : M Z :=
  match unpack_bytes f data with
  | Some v => ret v
  | None => raise StructError
  end.

(** ** The emulation engine: memory map and registers *)

Definition in_region (a : Z) (r : Region) : bool :=
  (r_begin r <=? a) && (a <? r_begin r + r_size r).

Definition find_region (u : Uc) (a : Z) : option Region :=
  List.find (in_region a) (regions u).

Definition executable (r : Region) : bool :=
  negb (Z.land (r_perms r) UC_PROT_EXEC =? 0).

Definition overlaps (a s : Z) (r : Region) : bool :=
  (a <? r_begin r + r_size r) && (r_begin r <? a + s).

Definition range_mapped (u : Uc) (a : Z) (n : nat) : bool :=
  forallb (fun i => bool_decide (is_Some (find_region u i))) (seqZ a (Z.of_nat n)).

Fixpoint write_bytes (a : Z) (data : list byte) (m : gmap Z byte) : gmap Z byte :=
  match data with
  | [] => m
  | b :: rest => write_bytes (a + 1) rest (<[a := b]> m)
  end.

Definition read_bytes (a : Z) (n : nat) (m : gmap Z byte) : list byte :=
  (fun i => default x00 (m !! i)) <$> seqZ a (Z.of_nat n).

(** [uc_mem_map]: the range must be non-empty, aligned to the engine's 4 KiB
    pages, within the 64-bit address space, with permission bits among
    [UC_PROT_ALL], and must not meet a region that is already mapped. *)
Definition mem_map (a s perms : Z) (u : Uc) : uc_err + Uc :=
  if (s <=? 0) || negb (a mod 4096 =? 0) || negb (s mod 4096 =? 0)
     || (a <? 0) || (2 ^ 64 <? a + s) || negb (Z.land perms (Z.lnot UC_PROT_ALL) =? 0)
  then inl UC_ERR_ARG
  else if existsb (overlaps a s) (regions u) then inl UC_ERR_MAP
  else inr (set_regions u ({| r_begin := a; r_size := s; r_perms := perms |} :: regions u)).

Definition mem_write (a : Z) (data : list byte) (u : Uc) : uc_err + Uc :=
  if range_mapped u a (length data)
  then inr (set_memory u (write_bytes a data (memory u)))
  else inl UC_ERR_WRITE_UNMAPPED.

Definition mem_read (a : Z) (n : Z) (u : Uc) : uc_err + list byte :=
  if range_mapped u a (Z.to_nat n)
  then inr (read_bytes a (Z.to_nat n) (memory u))
  else inl UC_ERR_READ_UNMAPPED.

Definition reg_read (r : x86_reg) (u : Uc) : Z :=
  match r with
  | UC_X86_REG_EIP | UC_X86_REG_RIP => reg_pc (regs u)
  | UC_X86_REG_ESP | UC_X86_REG_RSP => reg_sp (regs u)
  | UC_X86_REG_EBP | UC_X86_REG_RBP => reg_bp (regs u)
  end.

Definition reg_write (r : x86_reg) (v : Z) (u : Uc) : Uc :=
  let rs := regs u in
  set_regs u
    match r with
    | UC_X86_REG_EIP | UC_X86_REG_RIP =>
        {| reg_pc := v; reg_sp := reg_sp rs; reg_bp := reg_bp rs; msr := msr rs |}
    | UC_X86_REG_ESP | UC_X86_REG_RSP =>
        {| reg_pc := reg_pc rs; reg_sp := v; reg_bp := reg_bp rs; msr := msr rs |}
    | UC_X86_REG_EBP | UC_X86_REG_RBP =>
        {| reg_pc := reg_pc rs; reg_sp := reg_sp rs; reg_bp := v; msr := msr rs |}
    end.

Definition reg_write_msr (msr_id v : Z) (u : Uc) : Uc :=
  let rs := regs u in
  set_regs u {| reg_pc := reg_pc rs; reg_sp := reg_sp rs; reg_bp := reg_bp rs;
                msr := <[msr_id := v]> (msr rs) |}.

Definition fresh_uc (m : uc_mode) : Uc :=
  {| mode := m; regions := []; memory := ∅;
     regs := {| reg_pc := 0; reg_sp := 0; reg_bp := 0; msr := ∅ |};
     hooks := []; stop_request := false |}.

(** ** Engine calls, as the program issues them *)

(** [uc = Uc(UC_ARCH_X86, mode)] when the engine library opens: the variable
    [uc] is bound to a fresh emulator. *)
Definition uc_new (m : uc_mode) : M unit :=
  log (EUc (UcNew m)) ;;;
  fun w => (Return tt, {| uc := Some (fresh_uc m); trace := trace w |}).

(** [uc = Uc(UC_ARCH_X86, mode)] in general.  The constructor raises
    [UcError] when the engine library refuses to open an emulator;
    [refusal] is that error, if any.  The assignment then does not happen and
    [uc] stays as it was. *)
Definition uc_open (refusal : option uc_err) (m : uc_mode) : M unit :=
  match refusal with
  | None => uc_new m
  | Some e => log (EUc (UcNew m)) ;;; raise (UcError e)
  end.

Definition uc_mem_map (a s perms : Z) : M unit :=
  log (EUc (UcMemMap a s perms)) ;;;
  with_uc (fun u =>
    match mem_map a s perms u with
    | inl e => (Raise (UcError e), u)
    | inr u' => (Return tt, u')
    end).

Definition uc_mem_write (a : Z) (data : list byte) : M unit :=
  log (EUc (UcMemWrite a data)) ;;;
  with_uc (fun u =>
    match mem_write a data u with
    | inl e => (Raise (UcError e), u)
    | inr u' => (Return tt, u')
    end).

Definition uc_mem_read (a n : Z) : M (list byte) :=
  log (EUc (UcMemRead a n)) ;;;
  with_uc (fun u =>
    match mem_read a n u with
    | inl e => (Raise (UcError e), u)
    | inr data => (Return data, u)
    end).

Definition uc_reg_read (r : x86_reg) : M Z :=
  log (EUc (UcRegRead r)) ;;;
  with_uc (fun u => (Return (reg_read r u), u)).

Definition uc_reg_write (r : x86_reg) (v : Z) : M unit :=
  log (EUc (UcRegWrite r v)) ;;;
  with_uc (fun u => (Return tt, reg_write r v u)).

(** [uc.reg_write(UC_X86_REG_MSR, (msr_id, value))] *)
Definition uc_reg_write_msr (msr_id v : Z) : M unit :=
  log (EUc (UcRegWriteMsr msr_id v)) ;;;
  with_uc (fun u => (Return tt, reg_write_msr msr_id v u)).

Definition uc_hook_add (h : hook_type) (cb : callback) : M unit :=
  log (EUc (UcHookAdd h cb)) ;;;
  with_uc (fun u => (Return tt, set_hooks u (hooks u ++ [(h, cb)]))).

Definition uc_emu_stop : M unit :=
  log (EUc UcEmuStop) ;;;
  with_uc (fun u => (Return tt, set_stop_request u true)).

(** ** emulation.py *)

Definition STACK_MAGIC_RET_ADDR : Z := 0xdeadbeef.

Definition _is_no_return_api (api_name : string) : bool :=
  let NO_RETURN_APIS := ["ExitProcess"; "FatalExit"; "ExitThread"]%string in
  bool_decide (api_name ∈ NO_RETURN_APIS).

Definition _setup_teb_x86 (process_info : ProcessController) : M unit :=
  let MSG_IA32_FS_BASE := 0xC0000100 in
  let teb_addr := 0xff100000 in
  let peb_addr := 0xff200000 in
  ps <- pc_page_size process_info ;;
  uc_mem_map teb_addr ps (Z.lor UC_PROT_READ UC_PROT_WRITE) ;;;
  ps <- pc_page_size process_info ;;
  uc_mem_map peb_addr ps (Z.lor UC_PROT_READ UC_PROT_WRITE) ;;;
  f <- pointer_size_to_fmt 4 ;;
  data <- struct_pack f teb_addr ;;
  uc_mem_write (teb_addr + 0x18) data ;;;
  f <- pointer_size_to_fmt 4 ;;
  data <- struct_pack f peb_addr ;;
  uc_mem_write (teb_addr + 0x30) data ;;;
  uc_reg_write_msr MSG_IA32_FS_BASE teb_addr.

Definition _setup_teb_x64 (process_info : ProcessController) : M unit :=
  let MSG_IA32_GS_BASE := 0xC0000101 in
  let teb_addr := 0xff10000000000000 in
  let peb_addr := 0xff20000000000000 in
  ps <- pc_page_size process_info ;;
  uc_mem_map teb_addr ps (Z.lor UC_PROT_READ UC_PROT_WRITE) ;;;
  ps <- pc_page_size process_info ;;
  uc_mem_map peb_addr ps (Z.lor UC_PROT_READ UC_PROT_WRITE) ;;;
  f <- pointer_size_to_fmt 8 ;;
  data <- struct_pack f teb_addr ;;
  uc_mem_write (teb_addr + 0x30) data ;;;
  f <- pointer_size_to_fmt 8 ;;
  data <- struct_pack f peb_addr ;;
  uc_mem_write (teb_addr + 0x60) data ;;;
  uc_reg_write_msr MSG_IA32_GS_BASE teb_addr.

Definition _unicorn_hook_unmapped (address : Z)
    (process_controller : ProcessController) : M bool :=
  if address =? 0 then ret false
  else
    page_size <- pc_page_size process_controller ;;
    let aligned_addr := address - Z.land address (page_size - 1) in
    try_except
      (in_process_data <- pc_read_process_memory process_controller
                            aligned_addr page_size ;;
       uc_mem_map aligned_addr (Z.of_nat (length in_process_data)) UC_PROT_ALL ;;;
       uc_mem_write aligned_addr in_process_data ;;;
       ret true)
      (fun _ => ret false).

(** The [(pc_register, sp_register)] pair that the [if]/[elif] chain of the
    block hook assigns; no branch assigns them for another tag. *)
Definition block_hook_registers (arch : string) : option (x86_reg * x86_reg) :=
  if decide (arch = "ia32"%string) then Some (UC_X86_REG_EIP, UC_X86_REG_ESP)
  else if decide (arch = "x64"%string) then Some (UC_X86_REG_RIP, UC_X86_REG_RSP)
  else None.

Definition _unicorn_hook_block (address _size : Z)
    (user_data : ProcessController * Z) : M unit :=
  let '(process_controller, stop_on_ret_addr) := user_data in
  ptr_size <- pc_pointer_size process_controller ;;
  arch <- pc_architecture process_controller ;;
  let registers := block_hook_registers arch in
  let pc_register := fst <$> registers in
  let sp_register := snd <$> registers in
  exports_dict <- pc_enumerate_exported_functions process_controller ;;
  match exports_dict !! address with
  | None => ret tt
  | Some export =>
      sp_register <- local "sp_register" sp_register ;;
      sp <- uc_reg_read sp_register ;;
      ret_addr_data <- uc_mem_read sp ptr_size ;;
      f <- pointer_size_to_fmt ptr_size ;;
      ret_addr <- struct_unpack f ret_addr_data ;;
      if (ret_addr =? stop_on_ret_addr) || (ret_addr =? STACK_MAGIC_RET_ADDR)
      then uc_emu_stop
      else if _is_no_return_api (name export) then uc_emu_stop
      else ret tt
  end.

(** ** The emulation engine: running *)

(** What executing the current basic block does.  The instruction semantics
    belongs to the engine and is left open: the block runs to its end
    ([ExecNext]), touches an unmapped address ([ExecUnmapped]), makes the
    engine fail ([ExecFault]), or runs into an instruction that halts the
    engine ([ExecHalt], x86 [hlt]), after which [emu_start] returns normally
    with the registers and memory as the block left them. *)
Inductive exec_result :=
| ExecNext (rs : Regs) (m : gmap Z byte)
| ExecUnmapped (is_write : bool) (address : Z)
| ExecFault (e : uc_err)
| ExecHalt (rs : Regs) (m : gmap Z byte).

Record Cpu := {
  block_size : Uc -> Z;
  execute : Uc -> exec_result
}.

Definition get_uc : M Uc := with_uc (fun u => (Return u, u)).
Definition put_uc (u : Uc) : M unit := with_uc (fun _ => (Return tt, u)).

Definition fault {A} (e : uc_err) : M A :=
  log (ERunEnd (RunFault e)) ;;; raise (UcError e).

(** Unmapped-access event: the registered handlers are tried in order until
    one reports the access as handled. *)
Fixpoint dispatch_unmapped (hs : list (hook_type * callback))
    (pctl : ProcessController) (address : Z) : M bool :=
  match hs with
  | [] => ret false
  | (UC_HOOK_MEM_UNMAPPED, CbUnmapped) :: hs' =>
      log (ECallback CbUnmapped address) ;;;
      handled <- _unicorn_hook_unmapped address pctl ;;
      if handled : bool then ret true else dispatch_unmapped hs' pctl address
  | _ :: hs' => dispatch_unmapped hs' pctl address
  end.

(** Block-entry event: every registered block callback is called. *)
Fixpoint dispatch_block (hs : list (hook_type * callback))
    (pctl : ProcessController) (address size : Z) : M unit :=
  match hs with
  | [] => ret tt
  | (UC_HOOK_BLOCK, CbBlock stop) :: hs' =>
      log (ECallback (CbBlock stop) address) ;;;
      _unicorn_hook_block address size (pctl, stop) ;;;
      dispatch_block hs' pctl address size
  | _ :: hs' => dispatch_block hs' pctl address size
  end.

Section Engine.
Variable cpu : Cpu.

(** One iteration per engine event.  [entered] tells whether the block hook
    of the current block has run.  Before a block is entered its first
    instruction is fetched: from an unmapped address this is an unmapped
    access (the registered handlers may map the page, and the fetch is tried
    again), from a region without [UC_PROT_EXEC] it is a fault.  The loop
    ends when a stop was requested, when the program counter is at [until],
    when the emulated code halts the engine, or on a fault; an exception
    raised by a callback ends the run and is re-raised to the caller of
    [emu_start].  [fuel] bounds the number of
    iterations; a run that needs more is [Diverge]. *)
Fixpoint emu_loop (fuel : nat) (pctl : ProcessController) (until : Z)
    (entered : bool) : M unit :=
  match fuel with
  | O => diverge
  | S fuel' =>
      u <- get_uc ;;
      if stop_request u then log (ERunEnd RunStopped)
      else if entered then
        match execute cpu u with
        | ExecNext rs m =>
            put_uc (set_memory (set_regs u rs) m) ;;;
            emu_loop fuel' pctl until false
        | ExecUnmapped is_write a =>
            handled <- dispatch_unmapped (hooks u) pctl a ;;
            if handled : bool then emu_loop fuel' pctl until true
            else fault (if is_write : bool then UC_ERR_WRITE_UNMAPPED
                        else UC_ERR_READ_UNMAPPED)
        | ExecFault e => fault e
        | ExecHalt rs m =>
            put_uc (set_memory (set_regs u rs) m) ;;;
            log (ERunEnd RunHalted)
        end
      else
        let pc := reg_pc (regs u) in
        if pc =? until then log (ERunEnd RunReachedEnd)
        else
          match find_region u pc with
          | None =>
              handled <- dispatch_unmapped (hooks u) pctl pc ;;
              if handled : bool then emu_loop fuel' pctl until false
              else fault UC_ERR_FETCH_UNMAPPED
          | Some r =>
              if executable r then
                try_except
                  (dispatch_block (hooks u) pctl pc (block_size cpu u))
                  (fun e => log (ERunEnd (RunCallbackRaised e)) ;;; raise e) ;;;
                emu_loop fuel' pctl until true
              else fault UC_ERR_FETCH_PROT
          end
  end.

(** [uc.emu_start(begin, until)] *)
Definition uc_emu_start (fuel : nat) (pctl : ProcessController)
    (begin until : Z) : M unit :=
  log (EUc (UcEmuStart begin until)) ;;;
  u <- get_uc ;;
  put_uc (set_stop_request (reg_write (match mode u with
                                       | UC_MODE_32 => UC_X86_REG_EIP
                                       | UC_MODE_64 => UC_X86_REG_RIP
                                       end) begin u) false) ;;;
  emu_loop fuel pctl until false.

(** The resolver.  [refusal] is the error with which the engine library
    refuses to create the emulator, if it does. *)
Definition resolve_wrapped_api_under (refusal : option uc_err) (fuel : nat)
    (wrapper_start_addr : Z) (process_controller : ProcessController)
    (expected_ret_addr : option Z) : M (option Z) :=
  arch <- pc_architecture process_controller ;;
  config <-
    (if decide (arch = "ia32"%string) then
       ret (UC_MODE_32, UC_X86_REG_EIP, UC_X86_REG_ESP, UC_X86_REG_EBP,
            0xff000000, _setup_teb_x86)
     else if decide (arch = "x64"%string) then
       ret (UC_MODE_64, UC_X86_REG_RIP, UC_X86_REG_RSP, UC_X86_REG_RBP,
            0xff00000000000000, _setup_teb_x64)
     else raise NotImplementedError) ;;
  let '(uc_mode, pc_register, sp_register, bp_register, stack_addr, setup_teb) :=
    config in
  try_except_UcError
    (uc_open refusal uc_mode ;;;
     (* Setup a stack *)
     ps <- pc_page_size process_controller ;;
     let stack_size := 3 * ps in
     ps <- pc_page_size process_controller ;;
     let stack_start := stack_addr + stack_size - ps in
     uc_mem_map stack_addr stack_size (Z.lor UC_PROT_READ UC_PROT_WRITE) ;;;
     ptr_size <- pc_pointer_size process_controller ;;
     f <- pointer_size_to_fmt ptr_size ;;
     data <- struct_pack f STACK_MAGIC_RET_ADDR ;;
     uc_mem_write stack_start data ;;;
     uc_reg_write sp_register stack_start ;;;
     uc_reg_write bp_register stack_start ;;;
     (* Setup FS/GSBASE *)
     setup_teb process_controller ;;;
     (* Setup hooks *)
     let stop_on_ret_addr :=
       match expected_ret_addr with
       | None => STACK_MAGIC_RET_ADDR
       | Some a => a
       end in
     uc_hook_add UC_HOOK_MEM_UNMAPPED CbUnmapped ;;;
     uc_hook_add UC_HOOK_BLOCK (CbBlock stop_on_ret_addr) ;;;
     uc_emu_start fuel process_controller
       wrapper_start_addr (wrapper_start_addr + 1024) ;;;
     (* Read and return PC *)
     pc <- uc_reg_read pc_register ;;
     ret (Some pc))
    (fun e =>
       pc <- uc_reg_read pc_register ;;
       sp <- uc_reg_read sp_register ;;
       bp <- uc_reg_read bp_register ;;
       ret None).

(** The resolver when the emulator is created, as it is whenever the engine
    library is usable. *)
Definition resolve_wrapped_api (fuel : nat) (wrapper_start_addr : Z)
    (process_controller : ProcessController)
    (expected_ret_addr : option Z) : M (option Z) :=
  resolve_wrapped_api_under None fuel wrapper_start_addr process_controller
    expected_ret_addr.

(** A whole call: the program starts with no emulator and an empty log. *)
Definition resolve (fuel : nat) (wrapper_start_addr : Z)
    (process_controller : ProcessController)
    (expected_ret_addr : option Z) : result (option Z) * World :=
  resolve_wrapped_api fuel wrapper_start_addr process_controller
    expected_ret_addr initial_world.

(** A whole call, whether or not the engine library opens. *)
Definition resolve_under (refusal : option uc_err) (fuel : nat)
    (wrapper_start_addr : Z) (process_controller : ProcessController)
    (expected_ret_addr : option Z) : result (option Z) * World :=
  resolve_wrapped_api_under refusal fuel wrapper_start_addr process_controller
    expected_ret_addr initial_world.
End Engine.

(** ** Vocabulary of the specification *)

(** The two architecture tags of section 4.1 and the engine mode of each. *)
Definition profile_for (architecture_tag : string) : option uc_mode :=
  if decide (architecture_tag = "ia32"%string) then Some UC_MODE_32
  else if decide (architecture_tag = "x64"%string) then Some UC_MODE_64
  else None.

Definition supported (architecture_tag : string) : Prop :=
  architecture_tag = "ia32"%string \/ architecture_tag = "x64"%string.

Definition stack_addr_of (m : uc_mode) : Z :=
  match m with
  | UC_MODE_32 => 0xff000000
  | UC_MODE_64 => 0xff00000000000000
  end.

Definition sp_register_of (m : uc_mode) : x86_reg :=
  match m with UC_MODE_32 => UC_X86_REG_ESP | UC_MODE_64 => UC_X86_REG_RSP end.
Definition bp_register_of (m : uc_mode) : x86_reg :=
  match m with UC_MODE_32 => UC_X86_REG_EBP | UC_MODE_64 => UC_X86_REG_RBP end.

(** The stack's usable top: [stack_addr + stack_size - page_size]. *)
Definition stack_top (m : uc_mode) (p : ProcessController) : Z :=
  stack_addr_of m + 3 * page_size p - page_size p.

(** The pointer-sized value at the current stack pointer, when it can be
    read and decoded. *)
Definition stack_return_address (u : Uc) (ptr_size : Z) : option Z :=
  match mem_read (reg_sp (regs u)) ptr_size u, pointer_fmt ptr_size with
  | inr data, Some f => unpack_bytes f data
  | _, _ => None
  end.

(** The active stop condition of a resolution. *)
Definition stop_condition (expected_ret_addr : option Z) : Z :=
  match expected_ret_addr with
  | Some a => a
  | None => STACK_MAGIC_RET_ADDR
  end.

Definition halted (w : World) : bool :=
  match uc w with
  | Some u => stop_request u
  | None => false
  end.

Definition has_uc (w : World) : Prop := is_Some (uc w).

(** Page-aligned address the memory bridge maps for a faulting address. *)
Definition aligned_addr_of (p : ProcessController) (address : Z) : Z :=
  address - Z.land address (page_size p - 1).

Definition null_page_mapped (w : World) : bool :=
  match uc w with
  | Some u => bool_decide (is_Some (find_region u 0))
  | None => false
  end.

(** Process-control calls that only observe the real process. *)
Definition is_read_call (c : pc_call) : bool :=
  match c with
  | PcWriteProcessMemory _ _ => false
  | _ => true
  end.

Definition read_only_event (e : event) : bool :=
  match e with
  | EPc c => is_read_call c
  | _ => true
  end.

(** Effect of one logged event on the real process's memory image. *)
Definition apply_event (image : gmap Z byte) (e : event) : gmap Z byte :=
  match e with
  | EPc (PcWriteProcessMemory a data) => write_bytes a data image
  | _ => image
  end.

Definition image_after (t : list event) (image : gmap Z byte) : gmap Z byte :=
  foldl apply_event image t.

Definition is_enumeration (e : event) : bool :=
  match e with
  | EPc PcEnumerateExportedFunctions => true
  | _ => false
  end.

Definition is_block_callback (e : event) : bool :=
  match e with
  | ECallback (CbBlock _) _ => true
  | _ => false
  end.

Definition is_hook_add (e : event) : bool :=
  match e with
  | EUc (UcHookAdd _ _) => true
  | _ => false
  end.

Definition count (f : event -> bool) (t : list event) : nat :=
  length (filter (fun e => f e = true) t).

(** Two process controllers that answer every request alike. *)
Definition same_answers (p1 p2 : ProcessController) : Prop :=
  architecture p1 = architecture p2 /\
  page_size p1 = page_size p2 /\
  pointer_size p1 = pointer_size p2 /\
  (forall a n, read_process_memory p1 a n = read_process_memory p2 a n) /\
  enumerate_exported_functions p1 = enumerate_exported_functions p2.

(** ** Reasoning about state-passing computations *)

Definition hoare {A} (P : World -> Prop) (m : M A)
    (Q : result A -> World -> Prop) : Prop :=
  forall w, P w -> Q (m w).1 (m w).2.

(** [I] holds after [m] whenever it held before, whatever the outcome. *)
Definition preserves {A} (I : World -> Prop) (m : M A) : Prop :=
  hoare I m (fun _ w => I w).

(** Extensional equality of computations. *)
Definition meq {A} (m1 m2 : M A) : Prop := forall w, m1 w = m2 w.

(** [m] only appends events that satisfy [ok] to the log, and never loses
    the emulator. *)
Definition logs {A} (ok : event -> Prop) (m : M A) : Prop :=
  forall w, exists d,
    trace (m w).2 = trace w ++ d /\ Forall ok d /\ (has_uc w -> has_uc (m w).2).

(** The oracle's rule as the specification words it: the return address is
    compared with the active stop condition only. *)
Definition oracle_rule_as_specified (w : World) (u : Uc) (address size : Z)
    (p : ProcessController) (expected_ret_addr : option Z) : Prop :=
  halted (_unicorn_hook_block address size
            (p, stop_condition expected_ret_addr) w).2 = true <->
  exists export ret,
    enumerate_exported_functions p !! address = Some export /\
    stack_return_address u (pointer_size p) = Some ret /\
    (ret = stop_condition expected_ret_addr \/
     _is_no_return_api (name export) = true).

(** The emulator of a 32-bit target with 4 KiB pages right after its stack
    has been set up. *)
Definition demo_stack_world : World :=
  ((uc_new UC_MODE_32 ;;;
    uc_mem_map 0xff000000 0x3000 (Z.lor UC_PROT_READ UC_PROT_WRITE) ;;;
    uc_mem_write 0xff002000 (le_bytes 4 STACK_MAGIC_RET_ADDR) ;;;
    uc_reg_write UC_X86_REG_ESP 0xff002000 ;;;
    uc_reg_write UC_X86_REG_EBP 0xff002000) initial_world).2.

(** The two local variables that only the [if]/[elif] branches of the block
    hook assign. *)
Definition register_variable (var : string) : Prop :=
  var = "pc_register"%string \/ var = "sp_register"%string.

(** The memory bridge as the specification words it: it reports failure at
    the null address and no invocation adds the null page. *)
Definition null_page_rule_as_specified (w : World) (address : Z)
    (p : ProcessController) : Prop :=
  (address = 0 -> (_unicorn_hook_unmapped address p w).1 = Return false) /\
  (null_page_mapped w = false ->
   null_page_mapped (_unicorn_hook_unmapped address p w).2 = false).

(** The write of the sentinel at the stack's usable top, as logged. *)
Definition sentinel_write (m : uc_mode) (p : ProcessController) (f : fmt) : event :=
  EUc (UcMemWrite (stack_top m p) (le_bytes (fmt_size f) STACK_MAGIC_RET_ADDR)).

(** The stack set-up as the specification words it: the sentinel is written
    exactly when the caller supplies no expected return address. *)
Definition sentinel_rule_as_specified (t : list event) (m : uc_mode)
    (p : ProcessController) (f : fmt) (expected_ret_addr : option Z) : Prop :=
  In (sentinel_write m p f) t <-> expected_ret_addr = None.

(** Events that are neither an export enumeration nor a block callback. *)
Definition plain_event (e : event) : Prop :=
  is_enumeration e = false /\ is_block_callback e = false.

(** As many export enumerations as block callbacks. *)
Definition balanced (t : list event) : Prop :=
  count is_enumeration t = count is_block_callback t.

(** The run has been started before any export enumeration was requested. *)
Definition started_before_enumerating (t : list event) : Prop :=
  exists pre b u post,
    t = pre ++ EUc (UcEmuStart b u) :: post /\ count is_enumeration pre = 0%nat.

(** The export snapshot as the specification words it: requested exactly
    once, and not during the emulation run. *)
Definition snapshot_rule_as_specified (t : list event) : Prop :=
  count is_enumeration t = 1%nat /\
  forall pre b u post,
    t = pre ++ EUc (UcEmuStart b u) :: post -> count is_enumeration post = 0%nat.

(** Export enumerations, if any, were all requested after the run started. *)
Definition enumerated_in_run (t : list event) : Prop :=
  count is_enumeration t = 0%nat \/ started_before_enumerating t.

(** Postconditions by outcome: normal return, exception, divergence. *)
Definition post {A} (J : A -> World -> Prop) (E : exn -> World -> Prop)
    (D : World -> Prop) (r : result A) (w : World) : Prop :=
  match r with
  | Return a => J a w
  | Raise e => E e w
  | Diverge => D w
  end.

Definition is_reached_end (e : event) : bool :=
  match e with
  | ERunEnd RunReachedEnd => true
  | _ => false
  end.

Definition is_fault (e : event) : bool :=
  match e with
  | ERunEnd (RunFault _) => true
  | _ => false
  end.

(** The run ended because the program counter reached the end of the
    window [wrapper_start_addr + 1024]. *)
Definition reached_end (t : list event) : Prop := In (ERunEnd RunReachedEnd) t.

(** The engine reported an internal fault during the run. *)
Definition faulted (t : list event) : Prop := exists e, In (ERunEnd (RunFault e)) t.

Definition no_reached_end (t : list event) : Prop :=
  Forall (fun e => is_reached_end e = false) t.
Definition no_fault (t : list event) : Prop :=
  Forall (fun e => is_fault e = false) t.

(** Events other than the two run endings above. *)
Definition quiet_event (e : event) : Prop :=
  is_reached_end e = false /\ is_fault e = false.

Definition program_counter (w : World) : Z :=
  match uc w with
  | Some u => reg_pc (regs u)
  | None => 0
  end.

(** A run in progress: an emulator exists and no run ending is logged. *)
Definition running (w : World) : Prop :=
  no_reached_end (trace w) /\ no_fault (trace w) /\ has_uc w.

(** What the log and the result of a resolution tell about each other. *)
Definition resolve_outcome (until : Z) (r : result (option Z)) (w : World) : Prop :=
  match r with
  | Return (Some v) =>
      no_fault (trace w) /\ (no_reached_end (trace w) \/ v = until)
  | Return None => no_reached_end (trace w)
  | Raise e =>
      (forall x, e <> UcError x) /\ no_reached_end (trace w) /\ no_fault (trace w)
  | Diverge => no_reached_end (trace w) /\ no_fault (trace w)
  end.

(** Bound exhaustion as the specification words it: the resolver returns
    "no result". *)
Definition bound_rule_as_specified (r : result (option Z)) (t : list event) : Prop :=
  reached_end t -> r = Return None.

(** Outcomes of the run itself. *)
Definition run_returned (until : Z) (w : World) : Prop :=
  has_uc w /\ no_fault (trace w) /\
  (no_reached_end (trace w) \/ program_counter w = until).

Definition run_raised (e : exn) (w : World) : Prop :=
  has_uc w /\ no_reached_end (trace w) /\
  (no_fault (trace w) \/ exists x, e = UcError x).

Definition run_diverged (w : World) : Prop :=
  no_reached_end (trace w) /\ no_fault (trace w).

(** Outcome of the [try] body of the resolver when it returns. *)
Definition body_returned (until : Z) (r : option Z) (w : World) : Prop :=
  match r with
  | Some v => no_fault (trace w) /\ (no_reached_end (trace w) \/ v = until)
  | None => False
  end.

(** No mapped region is executable. *)
Definition no_exec_regions (u : Uc) : Prop :=
  Forall (fun r => executable r = false) (regions u).

Definition no_exec (w : World) : Prop :=
  exists u, uc w = Some u /\ no_exec_regions u.

Definition engine_error (e : exn) (w : World) : Prop :=
  has_uc w /\ exists x, e = UcError x.

Definition never (w : World) : Prop := False.

(** ** Vocabulary of the further properties *)

(** The world [w] with the log [t] in front of its own. *)
Definition shift (t : list event) (w : World) : World :=
  {| uc := uc w; trace := t ++ trace w |}.

(** [m] never looks at the log: what was logged before it starts only shows
    as a prefix of the log it leaves. *)
Definition appends {A} (m : M A) : Prop :=
  forall t w, m (shift t w) = ((m w).1, shift t (m w).2).

Definition pc_register_of (m : uc_mode) : x86_reg :=
  match m with UC_MODE_32 => UC_X86_REG_EIP | UC_MODE_64 => UC_X86_REG_RIP end.

(** The pointer of format [f] stored at address [a] of the emulated memory,
    when the range is mapped. *)
Definition read_pointer (f : fmt) (a : Z) (u : Uc) : option Z :=
  match mem_read a (Z.of_nat (fmt_size f)) u with
  | inr data => unpack_bytes f data
  | inl _ => None
  end.

(** [m], started on the emulator [u], returns [a] and leaves the emulator
    [u'], whatever was logged before. *)
Definition runs {A} (m : M A) (u : Uc) (a : A) (u' : Uc) : Prop :=
  forall t, exists t',
    m {| uc := Some u; trace := t |} =
      (Return a, {| uc := Some u'; trace := t' |}).

(** An emulator exists and satisfies [K]. *)
Definition uc_inv (K : Uc -> Prop) (w : World) : Prop :=
  exists u, uc w = Some u /\ K u.

(** A pending stop request was made at an export. *)
Definition stop_at_export (p : ProcessController) (u : Uc) : Prop :=
  stop_request u = true ->
  is_Some (enumerate_exported_functions p !! reg_pc (regs u)).

Definition not_stopped (u : Uc) : Prop := stop_request u = false.

(** The block at [a] is being entered. *)
Definition at_block (p : ProcessController) (a : Z) (u : Uc) : Prop :=
  reg_pc (regs u) = a /\ stop_at_export p u.

(** The exceptions that can leave the [try] body of the resolver: an engine
    error, or [NotImplementedError] for a pointer size without a format. *)
Definition escaped (p : ProcessController) (e : exn) (w : World) : Prop :=
  has_uc w /\
  ((exists x, e = UcError x) \/
   (e = NotImplementedError /\ pointer_fmt (pointer_size p) = None)).

Definition anything (w : World) : Prop := True.

(** How the program counter [v] read after a run follows from the logged
    ending of that run: at an export after a stop request, at [until] after
    reaching it, anywhere after the emulated code halted the engine. *)
Definition answer_of_run (p : ProcessController) (until v : Z)
    (t : list event) : Prop :=
  (In (ERunEnd RunStopped) t /\
   is_Some (enumerate_exported_functions p !! v)) \/
  (In (ERunEnd RunReachedEnd) t /\ v = until) \/
  In (ERunEnd RunHalted) t.

(** A run of [emu_start] that returned. *)
Definition finished (p : ProcessController) (until : Z) (w : World) : Prop :=
  exists u, uc w = Some u /\ answer_of_run p until (reg_pc (regs u)) (trace w).

Definition body_result (p : ProcessController) (until : Z) (r : option Z)
    (w : World) : Prop :=
  match r with
  | Some v => answer_of_run p until v (trace w)
  | None => False
  end.

(** The exceptions that leave the resolver, and when. *)
Definition escapes_resolver (p : ProcessController) (refusal : option uc_err)
    (e : exn) : Prop :=
  (e = NotImplementedError /\ ~ supported (architecture p)) \/
  (e = NotImplementedError /\ supported (architecture p) /\
   refusal = None /\ pointer_fmt (pointer_size p) = None) \/
  (e = UnboundLocalError "uc" /\ supported (architecture p) /\
   is_Some refusal).

(** What a call of the resolver can answer. *)
Definition resolution_result (p : ProcessController) (until : Z)
    (refusal : option uc_err) (r : result (option Z)) (w : World) : Prop :=
  match r with
  | Return (Some v) => answer_of_run p until v (trace w)
  | Return None => True
  | Raise e => escapes_resolver p refusal e
  | Diverge => True
  end.

(** ** Concrete collaborators used to exercise the model *)

(** A process whose every page reads as zeros. *)
Definition demo_controller (arch : string) (ptr : Z)
    (exports : gmap Z ExportInfo) : ProcessController :=
  {| architecture := arch; page_size := 4096; pointer_size := ptr;
     read_process_memory := fun _ n => Some (repeat x00 (Z.to_nat n));
     enumerate_exported_functions := exports |}.

(** A process none of whose pages can be read. *)
Definition unreadable_controller (arch : string) (ptr : Z) : ProcessController :=
  {| architecture := arch; page_size := 4096; pointer_size := ptr;
     read_process_memory := fun _ _ => None;
     enumerate_exported_functions := ∅ |}.

(** An engine whose every block advances the program counter by [d]. *)
Definition stride_cpu (d : Z) : Cpu :=
  {| block_size := fun _ => d;
     execute := fun u =>
       ExecNext {| reg_pc := reg_pc (regs u) + d; reg_sp := reg_sp (regs u);
                   reg_bp := reg_bp (regs u); msr := msr (regs u) |}
                (memory u) |}.

(** An engine whose first block ends in a halting instruction, one byte
    further. *)
Definition halting_cpu : Cpu :=
  {| block_size := fun _ => 1;
     execute := fun u =>
       ExecHalt {| reg_pc := reg_pc (regs u) + 1; reg_sp := reg_sp (regs u);
                   reg_bp := reg_bp (regs u); msr := msr (regs u) |}
                (memory u) |}.

(** An engine whose every block faults. *)
Definition faulting_cpu : Cpu :=
  {| block_size := fun _ => 1;
     execute := fun _ => ExecFault UC_ERR_EXCEPTION |}.

(** The same process seen through another controller object: every answer
    is the same, the read routine is not the same function. *)
Definition demo_controller_again (arch : string) (ptr : Z)
    (exports : gmap Z ExportInfo) : ProcessController :=
  {| architecture := arch; page_size := 4096; pointer_size := ptr;
     read_process_memory := fun _ n => Some (repeat x00 (Z.to_nat (n + 0)));
     enumerate_exported_functions := exports |}.

(** An engine whose every block pushes one zero word of [n] bytes (the stack
    pointer goes down by [n]) and advances the program counter by [d]. *)
Definition pushing_cpu (n d : Z) : Cpu :=
  {| block_size := fun _ => d;
     execute := fun u =>
       ExecNext {| reg_pc := reg_pc (regs u) + d; reg_sp := reg_sp (regs u) - n;
                   reg_bp := reg_bp (regs u); msr := msr (regs u) |}
                (write_bytes (reg_sp (regs u) - n) (le_bytes (Z.to_nat n) 0)
                   (memory u)) |}.

(** A process that reports pages of [ps] bytes, none of which can be read. *)
Definition short_page_controller (arch : string) (ps ptr : Z) : ProcessController :=
  {| architecture := arch; page_size := ps; pointer_size := ptr;
     read_process_memory := fun _ _ => None;
     enumerate_exported_functions := ∅ |}.

(** * Properties *)

(** ** Equations of the state-passing combinators *)

Lemma bind_Return {A B} (m : M A) (k : A -> M B) w a w' :
  m w = (Return a, w') -> bind m k w = k a w'.
Proof. intros H. unfold bind. now rewrite H. Qed.

Lemma hoare_conseq {A} (P P' : World -> Prop) (Q Q' : result A -> World -> Prop) m :
  hoare P' m Q' -> (forall w, P w -> P' w) -> (forall r w, Q' r w -> Q r w) ->
  hoare P m Q.
Proof. unfold hoare. eauto. Qed.

Lemma hoare_ret {A} (P : World -> Prop) (Q : result A -> World -> Prop) a :
  (forall w, P w -> Q (Return a) w) -> hoare P (ret a) Q.
Proof. unfold hoare, ret. simpl. auto. Qed.

Lemma hoare_raise {A} (P : World -> Prop) (Q : result A -> World -> Prop) e :
  (forall w, P w -> Q (Raise e) w) -> hoare P (raise e) Q.
Proof. unfold hoare, raise. simpl. auto. Qed.

Lemma hoare_bind {A B} (P : World -> Prop) (R : result A -> World -> Prop)
    (Q : result B -> World -> Prop) (m : M A) (k : A -> M B) :
  hoare P m R ->
  (forall a, hoare (R (Return a)) (k a) Q) ->
  (forall e w, R (Raise e) w -> Q (Raise e) w) ->
  (forall w, R Diverge w -> Q Diverge w) ->
  hoare P (bind m k) Q.
Proof.
  intros Hm Hk He Hd w Hw. specialize (Hm w Hw). unfold bind.
  destruct (m w) as [[a|e|] w']; simpl in *; auto. now apply Hk.
Qed.

Lemma hoare_try_except {A} (P : World -> Prop) (R Q : result A -> World -> Prop)
    (body : M A) (handler : exn -> M A) :
  hoare P body R ->
  (forall e, hoare (R (Raise e)) (handler e) Q) ->
  (forall a w, R (Return a) w -> Q (Return a) w) ->
  (forall w, R Diverge w -> Q Diverge w) ->
  hoare P (try_except body handler) Q.
Proof.
  intros Hm Hh Hr Hd w Hw. specialize (Hm w Hw). unfold try_except.
  destruct (body w) as [[a|e|] w']; simpl in *; auto. now apply Hh.
Qed.

Lemma hoare_try_except_UcError {A} (P : World -> Prop)
    (R Q : result A -> World -> Prop) (body : M A) (handler : uc_err -> M A) :
  hoare P body R ->
  (forall e, hoare (R (Raise (UcError e))) (handler e) Q) ->
  (forall r w, (forall e, r <> Raise (UcError e)) -> R r w -> Q r w) ->
  hoare P (try_except_UcError body handler) Q.
Proof.
  intros Hm Hh Hr w Hw. specialize (Hm w Hw). unfold try_except_UcError.
  destruct (body w) as [[a|[e| | | |]|] w']; simpl in *;
    try (apply Hr; [congruence | assumption]).
  now apply Hh.
Qed.

(** Invariants are closed under sequencing and exception handling. *)
Lemma preserves_ret {A} I (a : A) : preserves I (ret a).
Proof. now apply hoare_ret. Qed.

Lemma preserves_raise {A} I e : preserves I (@raise A e).
Proof. now apply hoare_raise. Qed.

Lemma preserves_diverge {A} I : preserves I (@diverge A).
Proof. intros w Hw. exact Hw. Qed.

Lemma preserves_bind {A B} I (m : M A) (k : A -> M B) :
  preserves I m -> (forall a, preserves I (k a)) -> preserves I (bind m k).
Proof. intros Hm Hk. eapply hoare_bind; [exact Hm | exact Hk | auto | auto]. Qed.

Lemma preserves_try_except {A} I (body : M A) handler :
  preserves I body -> (forall e, preserves I (handler e)) ->
  preserves I (try_except body handler).
Proof. intros Hb Hh. eapply hoare_try_except; [exact Hb | exact Hh | auto | auto]. Qed.

Lemma preserves_try_except_UcError {A} I (body : M A) handler :
  preserves I body -> (forall e, preserves I (handler e)) ->
  preserves I (try_except_UcError body handler).
Proof.
  intros Hb Hh. eapply hoare_try_except_UcError; [exact Hb | exact Hh | auto].
Qed.

(** ** What the program can append to the log *)

Section Logs.
Variable ok : event -> Prop.

Lemma logs_ret {A} (a : A) : logs ok (ret a).
Proof. intros w. exists []. simpl. rewrite app_nil_r. auto. Qed.

Lemma logs_raise {A} e : logs ok (@raise A e).
Proof. intros w. exists []. simpl. rewrite app_nil_r. auto. Qed.

Lemma logs_diverge {A} : logs ok (@diverge A).
Proof. intros w. exists []. simpl. rewrite app_nil_r. auto. Qed.

Lemma logs_log e : ok e -> logs ok (log e).
Proof. intros H w. exists [e]. simpl. auto. Qed.

Lemma logs_with_uc {A} (f : Uc -> result A * Uc) : logs ok (with_uc f).
Proof.
  intros w. exists []. unfold with_uc, has_uc. rewrite app_nil_r.
  destruct (uc w) as [u|]; [destruct (f u) as [r u']|]; simpl;
    (split; [reflexivity|]; split; [constructor|]; intros [? ?]; eauto; discriminate).
Qed.

Lemma logs_bind {A B} (m : M A) (k : A -> M B) :
  logs ok m -> (forall a, logs ok (k a)) -> logs ok (bind m k).
Proof.
  intros Hm Hk w. destruct (Hm w) as (d1 & Ht1 & Hd1 & Hu1). unfold bind.
  destruct (m w) as [[a|e|] w1]; simpl in *; eauto.
  destruct (Hk a w1) as (d2 & Ht2 & Hd2 & Hu2).
  exists (d1 ++ d2). rewrite Ht2, Ht1, app_assoc.
  split; [reflexivity|]. split; [now apply Forall_app|auto].
Qed.

Lemma logs_try_except {A} (body : M A) handler :
  logs ok body -> (forall e, logs ok (handler e)) ->
  logs ok (try_except body handler).
Proof.
  intros Hm Hk w. destruct (Hm w) as (d1 & Ht1 & Hd1 & Hu1). unfold try_except.
  destruct (body w) as [[a|e|] w1]; simpl in *; eauto.
  destruct (Hk e w1) as (d2 & Ht2 & Hd2 & Hu2).
  exists (d1 ++ d2). rewrite Ht2, Ht1, app_assoc.
  split; [reflexivity|]. split; [now apply Forall_app|auto].
Qed.

Lemma logs_try_except_UcError {A} (body : M A) handler :
  logs ok body -> (forall e, logs ok (handler e)) ->
  logs ok (try_except_UcError body handler).
Proof.
  intros Hm Hk w. destruct (Hm w) as (d1 & Ht1 & Hd1 & Hu1).
  unfold try_except_UcError.
  destruct (body w) as [[a|[e| | | |]|] w1]; simpl in *; eauto.
  destruct (Hk e w1) as (d2 & Ht2 & Hd2 & Hu2).
  exists (d1 ++ d2). rewrite Ht2, Ht1, app_assoc.
  split; [reflexivity|]. split; [now apply Forall_app|auto].
Qed.

Lemma logs_bind_ret {A B} (a : A) (k : A -> M B) :
  logs ok (k a) -> logs ok (bind (ret a) k).
Proof. intros H w. exact (H w). Qed.

Lemma logs_bind_raise {A B} e (k : A -> M B) : logs ok (bind (raise e) k).
Proof. intros w. exact (logs_raise e w). Qed.

Lemma logs_uc_new m : ok (EUc (UcNew m)) -> logs ok (uc_new m).
Proof.
  intros H w. exists [EUc (UcNew m)]. unfold has_uc. simpl. eauto.
Qed.
End Logs.

(** One syntax-directed step of a [logs] proof. *)
Ltac logs_step :=
  match goal with
  | |- logs _ (bind _ _) => apply logs_bind; [| intros ?]
  | |- logs _ (ret _) => apply logs_ret
  | |- logs _ (raise _) => apply logs_raise
  | |- logs _ diverge => apply logs_diverge
  | |- logs _ (log _) => apply logs_log
  | |- logs _ (with_uc _) => apply logs_with_uc
  | |- logs _ (uc_new _) => apply logs_uc_new
  | |- logs _ (try_except _ _) => apply logs_try_except; [| intros ?]
  | |- logs _ (try_except_UcError _ _) =>
      apply logs_try_except_UcError; [| intros ?]
  | |- logs _ (match ?x with _ => _ end) => destruct x
  end.

Ltac logs_auto := repeat logs_step; auto.

Section LogsProgram.
Variable ok : event -> Prop.
Hypothesis ok_uc : forall c, ok (EUc c).
Hypothesis ok_architecture : ok (EPc PcArchitecture).
Hypothesis ok_page_size : ok (EPc PcPageSize).
Hypothesis ok_pointer_size : ok (EPc PcPointerSize).
Hypothesis ok_read : forall a n, ok (EPc (PcReadProcessMemory a n)).
Hypothesis ok_unmapped : forall a, ok (ECallback CbUnmapped a).

Lemma logs_pc_architecture p : logs ok (pc_architecture p).
Proof. unfold pc_architecture. logs_auto. Qed.
Lemma logs_pc_page_size p : logs ok (pc_page_size p).
Proof. unfold pc_page_size. logs_auto. Qed.
Lemma logs_pc_pointer_size p : logs ok (pc_pointer_size p).
Proof. unfold pc_pointer_size. logs_auto. Qed.
Lemma logs_pc_read_process_memory p a n :
  logs ok (pc_read_process_memory p a n).
Proof. unfold pc_read_process_memory. logs_auto. Qed.

Lemma logs_pointer_size_to_fmt n : logs ok (pointer_size_to_fmt n).
Proof. unfold pointer_size_to_fmt. logs_auto. Qed.
Lemma logs_struct_pack f v : logs ok (struct_pack f v).
Proof. unfold struct_pack. logs_auto. Qed.
Lemma logs_struct_unpack f d : logs ok (struct_unpack f d).
Proof. unfold struct_unpack. logs_auto. Qed.
Lemma logs_local {A} v (o : option A) : logs ok (local v o).
Proof. unfold local. logs_auto. Qed.

Lemma logs_uc_mem_map a s p : logs ok (uc_mem_map a s p).
Proof. unfold uc_mem_map. logs_auto. Qed.
Lemma logs_uc_mem_write a d : logs ok (uc_mem_write a d).
Proof. unfold uc_mem_write. logs_auto. Qed.
Lemma logs_uc_mem_read a n : logs ok (uc_mem_read a n).
Proof. unfold uc_mem_read. logs_auto. Qed.
Lemma logs_uc_reg_read r : logs ok (uc_reg_read r).
Proof. unfold uc_reg_read. logs_auto. Qed.
Lemma logs_uc_reg_write r v : logs ok (uc_reg_write r v).
Proof. unfold uc_reg_write. logs_auto. Qed.
Lemma logs_uc_reg_write_msr i v : logs ok (uc_reg_write_msr i v).
Proof. unfold uc_reg_write_msr. logs_auto. Qed.
Lemma logs_uc_hook_add h cb : logs ok (uc_hook_add h cb).
Proof. unfold uc_hook_add. logs_auto. Qed.
Lemma logs_uc_emu_stop : logs ok uc_emu_stop.
Proof. unfold uc_emu_stop. logs_auto. Qed.
Lemma logs_get_uc : logs ok get_uc.
Proof. unfold get_uc. logs_auto. Qed.
Lemma logs_put_uc u : logs ok (put_uc u).
Proof. unfold put_uc. logs_auto. Qed.

Hint Resolve logs_pc_architecture logs_pc_page_size logs_pc_pointer_size
  logs_pc_read_process_memory logs_pointer_size_to_fmt logs_struct_pack
  logs_struct_unpack logs_local logs_uc_mem_map logs_uc_mem_write
  logs_uc_mem_read logs_uc_reg_read logs_uc_reg_write logs_uc_reg_write_msr
  logs_uc_hook_add logs_uc_emu_stop logs_get_uc logs_put_uc : core.

Lemma logs_setup_teb_x86 p : logs ok (_setup_teb_x86 p).
Proof. unfold _setup_teb_x86. logs_auto. Qed.

Lemma logs_setup_teb_x64 p : logs ok (_setup_teb_x64 p).
Proof. unfold _setup_teb_x64. logs_auto. Qed.

Lemma logs_hook_unmapped a p : logs ok (_unicorn_hook_unmapped a p).
Proof. unfold _unicorn_hook_unmapped. logs_auto. Qed.

Lemma logs_dispatch_unmapped hs p a : logs ok (dispatch_unmapped hs p a).
Proof.
  induction hs as [|[[] []] hs IH]; cbn [dispatch_unmapped];
    auto using logs_ret.
  logs_auto. apply logs_hook_unmapped.
Qed.

Hypothesis ok_enumerate : ok (EPc PcEnumerateExportedFunctions).

Lemma logs_pc_enumerate_exported_functions p :
  logs ok (pc_enumerate_exported_functions p).
Proof. unfold pc_enumerate_exported_functions. logs_auto. Qed.

Lemma logs_hook_block a s ud : logs ok (_unicorn_hook_block a s ud).
Proof.
  unfold _unicorn_hook_block. destruct ud as [p stop].
  pose proof logs_pc_enumerate_exported_functions. logs_auto.
Qed.

Hypothesis ok_block : forall stop a, ok (ECallback (CbBlock stop) a).

Lemma logs_dispatch_block hs p a s : logs ok (dispatch_block hs p a s).
Proof.
  induction hs as [|[[] []] hs IH]; cbn [dispatch_block];
    auto using logs_ret.
  logs_auto. apply logs_hook_block.
Qed.

Hypothesis ok_run_end : forall r, ok (ERunEnd r).

Lemma logs_fault {A} e : logs ok (@fault A e).
Proof. unfold fault. logs_auto. Qed.

Variable cpu : Cpu.

Lemma logs_emu_loop fuel p until entered :
  logs ok (emu_loop cpu fuel p until entered).
Proof.
  revert entered. induction fuel as [|fuel IH]; intros entered;
    cbn [emu_loop].
  - apply logs_diverge.
  - pose proof logs_dispatch_unmapped. pose proof logs_dispatch_block.
    pose proof @logs_fault. logs_auto.
Qed.

Lemma logs_uc_emu_start fuel p b u : logs ok (uc_emu_start cpu fuel p b u).
Proof. unfold uc_emu_start. pose proof logs_emu_loop. logs_auto. Qed.

Lemma logs_resolve_wrapped_api fuel ws p exp :
  logs ok (resolve_wrapped_api cpu fuel ws p exp).
Proof.
  unfold resolve_wrapped_api, resolve_wrapped_api_under.
  change (uc_open None) with uc_new.
  pose proof logs_setup_teb_x86. pose proof logs_setup_teb_x64.
  pose proof logs_uc_emu_start.
  apply logs_bind; [auto|intros arch].
  destruct (decide (arch = "ia32"%string));
    [|destruct (decide (arch = "x64"%string))];
    [apply logs_bind_ret | apply logs_bind_ret | apply logs_bind_raise];
    cbv beta iota; logs_auto.
Qed.
End LogsProgram.

Lemma image_after_read_only t image :
  Forall (fun e => read_only_event e = true) t -> image_after t image = image.
Proof.
  unfold image_after. induction 1 as [|e t He _ IH]; simpl; [reflexivity|].
  destruct e as [[]| | |]; simpl in *; try discriminate; exact IH.
Qed.

Lemma logs_from_start {A} ok (m : M A) :
  logs ok m -> Forall ok (trace (m initial_world).2).
Proof.
  intros H. destruct (H initial_world) as (d & Ht & Hd & _).
  rewrite Ht. exact Hd.
Qed.

Lemma try_UcError_bind_Return {A B} (m : M A) (k : A -> M B) h w a w' :
  m w = (Return a, w') ->
  try_except_UcError (bind m k) h w = try_except_UcError (k a) h w'.
Proof. intros H. unfold try_except_UcError, bind. now rewrite H. Qed.

(** Symbolic execution of the next statement when it runs by computation. *)
Ltac exec_step :=
  first [ erewrite bind_Return by reflexivity
        | erewrite try_UcError_bind_Return by reflexivity ];
  cbn [uc trace app initial_world].

(** Syntax-directed [logs] proofs over the statements of the program; the
    side conditions [ok e] are left to the caller. *)
Ltac logs_prog_step :=
  first
    [ logs_step
    | apply logs_pc_architecture | apply logs_pc_page_size
    | apply logs_pc_pointer_size | apply logs_pc_read_process_memory
    | apply logs_pc_enumerate_exported_functions
    | apply logs_pointer_size_to_fmt | apply logs_struct_pack
    | apply logs_struct_unpack | apply logs_local
    | apply logs_uc_mem_map | apply logs_uc_mem_write | apply logs_uc_mem_read
    | apply logs_uc_reg_read | apply logs_uc_reg_write
    | apply logs_uc_reg_write_msr | apply logs_uc_hook_add
    | apply logs_uc_emu_stop | apply logs_get_uc | apply logs_put_uc
    | apply logs_setup_teb_x86 | apply logs_setup_teb_x64
    | apply logs_hook_unmapped | apply logs_hook_block
    | apply logs_dispatch_unmapped | apply logs_dispatch_block
    | apply logs_fault | apply logs_emu_loop | apply logs_uc_emu_start
    | apply logs_resolve_wrapped_api ].

Ltac logs_prog := repeat logs_prog_step.

Lemma logs_extends {A} ok (m : M A) w t :
  logs ok m -> trace w = t -> has_uc w ->
  has_uc (m w).2 /\ exists rest, trace (m w).2 = t ++ rest.
Proof.
  intros H Ht Hu. destruct (H w) as (d & Hd & _ & Hk).
  split; [auto|]. exists d. now rewrite Hd, Ht.
Qed.

Lemma profile_for_supported a :
  supported a -> exists m, profile_for a = Some m.
Proof. intros [->| ->]; eexists; reflexivity. Qed.

Lemma resolve_unsupported cpu fuel ws p exp :
  ~ supported (architecture p) ->
  resolve cpu fuel ws p exp =
    (Raise NotImplementedError, {| uc := None; trace := [EPc PcArchitecture] |}).
Proof.
  unfold supported. intros H.
  unfold resolve, resolve_wrapped_api, resolve_wrapped_api_under.
  change (uc_open None) with uc_new.
  exec_step.
  rewrite decide_False by tauto. rewrite decide_False by tauto.
  reflexivity.
Qed.

Lemma resolve_supported_starts cpu fuel ws p exp m :
  profile_for (architecture p) = Some m ->
  has_uc (resolve cpu fuel ws p exp).2 /\
  exists rest, trace (resolve cpu fuel ws p exp).2 =
                 [EPc PcArchitecture; EUc (UcNew m)] ++ rest.
Proof.
  unfold profile_for. intros H.
  unfold resolve, resolve_wrapped_api, resolve_wrapped_api_under.
  change (uc_open None) with uc_new.
  exec_step.
  repeat case_decide; try discriminate; injection H as <-;
    exec_step; cbv beta iota; exec_step;
    (match goal with
     | |- has_uc (?m ?w).2 /\ _ =>
         apply (logs_extends (fun _ => True) m w (trace w))
     end; [logs_prog; intros; exact I | reflexivity | eexists; reflexivity]).
Qed.

(** ** C8 — the real process is only read *)

(** C8: for every call of [resolve_wrapped_api], every interaction with the
    process-control service is a read (attribute query, memory read or export
    enumeration); no mutating operation is invoked, so the real process's
    memory image after the resolution is the one before it. *)
Theorem resolution_only_reads_real_process cpu fuel ws p exp image :
  let t := trace (resolve cpu fuel ws p exp).2 in
  Forall (fun e => read_only_event e = true) t /\ image_after t image = image.
Proof.
  intros t.
  assert (H : Forall (fun e => read_only_event e = true) t).
  { apply (logs_from_start (fun e => read_only_event e = true)).
    logs_prog; intros; reflexivity. }
  split; [exact H | now apply image_after_read_only].
Qed.

(** ** C7 — unsupported architectures abort before anything is allocated *)

(** C7: for every architecture tag other than "ia32" and "x64",
    [resolve_wrapped_api] raises NotImplementedError having created no
    emulator instance and made no engine call (the only logged interaction is
    the architecture query); for the two supported tags it proceeds to create
    the emulator instance in the matching mode. *)
Theorem unsupported_architecture_aborts_early cpu fuel ws p exp :
  (~ supported (architecture p) ->
     resolve cpu fuel ws p exp =
       (Raise NotImplementedError,
        {| uc := None; trace := [EPc PcArchitecture] |})) /\
  (supported (architecture p) ->
     exists m rest,
       profile_for (architecture p) = Some m /\
       has_uc (resolve cpu fuel ws p exp).2 /\
       trace (resolve cpu fuel ws p exp).2 =
         EPc PcArchitecture :: EUc (UcNew m) :: rest).
Proof.
  split.
  - apply resolve_unsupported.
  - intros Hs. destruct (profile_for_supported _ Hs) as [m Hm].
    destruct (resolve_supported_starts cpu fuel ws p exp m Hm) as [Hu [rest Hr]].
    exists m, rest. auto.
Qed.

Lemma unsupported_architecture_aborts_early_witness :
  resolve (stride_cpu 1024) 8 0x401000 (demo_controller "arm64" 8 ∅) None =
    (Raise NotImplementedError, {| uc := None; trace := [EPc PcArchitecture] |}) /\
  exists m rest,
    profile_for "x64" = Some m /\
    has_uc (resolve (stride_cpu 1024) 8 0x401000 (demo_controller "x64" 8 ∅) None).2 /\
    trace (resolve (stride_cpu 1024) 8 0x401000 (demo_controller "x64" 8 ∅) None).2 =
      EPc PcArchitecture :: EUc (UcNew m) :: rest.
Proof.
  split.
  - apply (proj1 (unsupported_architecture_aborts_early
                    (stride_cpu 1024) 8 0x401000 (demo_controller "arm64" 8 ∅) None)).
    unfold supported. simpl. intros [H|H]; discriminate H.
  - apply (proj2 (unsupported_architecture_aborts_early
                    (stride_cpu 1024) 8 0x401000 (demo_controller "x64" 8 ∅) None)).
    right. reflexivity.
Defined.

(** ** C1 — the termination oracle *)

Lemma block_hook_registers_supported a :
  supported a ->
  exists pcr spr, block_hook_registers a = Some (pcr, spr) /\
    forall u, reg_read spr u = reg_sp (regs u).
Proof. intros [-> | ->]; do 2 eexists; (split; [reflexivity|]); reflexivity. Qed.

Lemma block_hook_registers_unsupported a :
  ~ supported a -> block_hook_registers a = None.
Proof.
  unfold supported, block_hook_registers. intros H.
  repeat (case_decide; [tauto|]). reflexivity.
Qed.




(** ** C10 — register selection in the block hook *)

Lemma hook_block_supported_total w address size p stop var :
  supported (architecture p) -> register_variable var ->
  (_unicorn_hook_block address size (p, stop) w).1 <> Raise (UnboundLocalError var).
Proof.
  intros Harch Hvar.
  destruct (block_hook_registers_supported _ Harch) as (pcr & spr & Hreg & _).
  unfold _unicorn_hook_block. do 3 exec_step. rewrite Hreg.
  destruct (enumerate_exported_functions p !! address) as [export|]; [|discriminate].
  exec_step.
  unfold uc_reg_read, uc_mem_read, pointer_size_to_fmt, struct_unpack, uc_emu_stop,
    log, with_uc, ret, raise, bind. simpl.
  assert (Hne : var <> "uc"%string) by (destruct Hvar; subst; discriminate).
  repeat (case_match; simpl in *; simplify_eq); try discriminate.
  all: try (intros [= <-]; congruence).
Qed.

Lemma hook_block_unsupported w address size p stop :
  ~ supported (architecture p) ->
  (_unicorn_hook_block address size (p, stop) w).1 =
    match enumerate_exported_functions p !! address with
    | Some _ => Raise (UnboundLocalError "sp_register")
    | None => Return tt
    end.
Proof.
  intros Harch. unfold _unicorn_hook_block. do 3 exec_step.
  rewrite (block_hook_registers_unsupported _ Harch).
  destruct (enumerate_exported_functions p !! address); reflexivity.
Qed.

(** C10: when the architecture tag is one of the two supported tags, the
    block hook never reads an unassigned register variable.  For any other
    tag neither branch assigns them, and the hook fails on the unassigned
    [sp_register] where it uses a register variable, which is when the block
    address is a known export (before that use it has nothing to fail on and
    returns); that state is unreachable because [resolve_wrapped_api] raises
    NotImplementedError on such a tag before any hook is installed or
    called. *)
Theorem block_hook_register_selection cpu fuel ws exp w address size p stop :
  (supported (architecture p) ->
     forall var, register_variable var ->
       (_unicorn_hook_block address size (p, stop) w).1
         <> Raise (UnboundLocalError var)) /\
  (~ supported (architecture p) ->
     (_unicorn_hook_block address size (p, stop) w).1 =
       match enumerate_exported_functions p !! address with
       | Some _ => Raise (UnboundLocalError "sp_register")
       | None => Return tt
       end /\
     (resolve cpu fuel ws p exp).1 = Raise NotImplementedError /\
     Forall (fun e => is_hook_add e = false /\ is_block_callback e = false)
       (trace (resolve cpu fuel ws p exp).2)).
Proof.
  split.
  - intros Hs var Hvar. now apply hook_block_supported_total.
  - intros Hn. split; [now apply hook_block_unsupported|].
    rewrite (resolve_unsupported cpu fuel ws p exp Hn). simpl.
    split; [reflexivity|]. repeat constructor.
Qed.

Lemma block_hook_register_selection_witness :
  (forall var, register_variable var ->
     (_unicorn_hook_block 0x7000 1
        (demo_controller "x64" 8 {[ 0x7000 := {| name := "ExitProcess" |} ]},
         STACK_MAGIC_RET_ADDR) demo_stack_world).1
       <> Raise (UnboundLocalError var)) /\
  ((_unicorn_hook_block 0x7000 1
      (demo_controller "arm64" 8 {[ 0x7000 := {| name := "ExitProcess" |} ]},
       STACK_MAGIC_RET_ADDR) demo_stack_world).1 =
     match
       enumerate_exported_functions
         (demo_controller "arm64" 8 {[ 0x7000 := {| name := "ExitProcess" |} ]})
         !! 0x7000
     with
     | Some _ => Raise (UnboundLocalError "sp_register")
     | None => Return tt
     end /\
   (resolve (stride_cpu 512) 8 0x401000
      (demo_controller "arm64" 8 {[ 0x7000 := {| name := "ExitProcess" |} ]})
      None).1 = Raise NotImplementedError /\
   Forall (fun e => is_hook_add e = false /\ is_block_callback e = false)
     (trace (resolve (stride_cpu 512) 8 0x401000
        (demo_controller "arm64" 8 {[ 0x7000 := {| name := "ExitProcess" |} ]})
        None).2)).
Proof.
  split.
  - apply (proj1 (block_hook_register_selection (stride_cpu 512) 8 0x401000 None
             demo_stack_world 0x7000 1
             (demo_controller "x64" 8 {[ 0x7000 := {| name := "ExitProcess" |} ]})
             STACK_MAGIC_RET_ADDR)).
    right. reflexivity.
  - apply (proj2 (block_hook_register_selection (stride_cpu 512) 8 0x401000 None
             demo_stack_world 0x7000 1
             (demo_controller "arm64" 8 {[ 0x7000 := {| name := "ExitProcess" |} ]})
             STACK_MAGIC_RET_ADDR)).
    unfold supported. simpl. intros [H|H]; discriminate H.
Defined.

(** ** C5 — the memory bridge and the null page *)

Lemma hook_unmapped_null_page p w address :
  null_page_mapped w = false ->
  null_page_mapped (_unicorn_hook_unmapped address p w).2 = true ->
  address <> 0 /\
  exists data,
    read_process_memory p (aligned_addr_of p address) (page_size p) = Some data /\
    aligned_addr_of p address <= 0
      < aligned_addr_of p address + Z.of_nat (length data).
Proof.
  unfold _unicorn_hook_unmapped, aligned_addr_of. intros H0.
  destruct (address =? 0) eqn:Ha.
  { simpl. congruence. }
  apply Z.eqb_neq in Ha. split; [exact Ha|]. revert H.
  exec_step. unfold try_except, pc_read_process_memory.
  set (al := address - Z.land address (page_size p - 1)).
  destruct (read_process_memory p al (page_size p)) as [data|] eqn:Hread.
  2:{ simpl. unfold null_page_mapped in *. simpl. congruence. }
  intros H. exists data. split; [reflexivity|].
  revert H. unfold uc_mem_map, uc_mem_write, log, with_uc, ret, raise, bind,
    null_page_mapped in *. simpl.
  destruct (uc w) as [u|] eqn:Hu; simpl; [|congruence].
  unfold mem_map.
  repeat (case_match; simpl in *; simplify_eq); try congruence.
  all: try (unfold mem_write in *; repeat (case_match; simpl in *; simplify_eq)).
  all: unfold find_region in *; simpl in *.
  all: try congruence.
  all: destruct (in_region 0 _) eqn:Hin; [|congruence].
  all: intros _; unfold in_region in Hin; simpl in Hin.
  all: apply andb_true_iff in Hin; destruct Hin as [Hlo Hhi].
  all: apply Z.leb_le in Hlo; apply Z.ltb_lt in Hhi; lia.
Qed.

(** C5 (as the code has it): the handler reports failure and changes nothing
    when the faulting address is the null address; an invocation adds the
    null page to the emulated address space only for a nonzero faulting
    address whose aligned page covers address 0 and whose real-process read
    succeeds. *)
Theorem memory_bridge_null_page p w address :
  (address = 0 -> _unicorn_hook_unmapped address p w = (Return false, w)) /\
  (null_page_mapped w = false ->
   null_page_mapped (_unicorn_hook_unmapped address p w).2 = true ->
   address <> 0 /\
   exists data,
     read_process_memory p (aligned_addr_of p address) (page_size p) = Some data /\
     aligned_addr_of p address <= 0
       < aligned_addr_of p address + Z.of_nat (length data)).
Proof.
  split.
  - intros ->. reflexivity.
  - apply hook_unmapped_null_page.
Qed.

Lemma memory_bridge_null_page_witness :
  _unicorn_hook_unmapped 0 (demo_controller "ia32" 4 ∅) demo_stack_world =
    (Return false, demo_stack_world) /\
  (8 <> 0 /\
   exists data,
     read_process_memory (demo_controller "ia32" 4 ∅)
       (aligned_addr_of (demo_controller "ia32" 4 ∅) 8)
       (page_size (demo_controller "ia32" 4 ∅)) = Some data /\
     aligned_addr_of (demo_controller "ia32" 4 ∅) 8 <= 0
       < aligned_addr_of (demo_controller "ia32" 4 ∅) 8 + Z.of_nat (length data)).
Proof.
  split.
  - apply (proj1 (memory_bridge_null_page (demo_controller "ia32" 4 ∅)
                    demo_stack_world 0)).
    reflexivity.
  - apply (proj2 (memory_bridge_null_page (demo_controller "ia32" 4 ∅)
                    demo_stack_world 8)).
    + vm_compute. reflexivity.
    + vm_compute. reflexivity.
Defined.

(** C5 as stated fails: a fault at address 8 maps the page at address 0 when
    the real process lets that page be read. *)
Lemma null_page_rule_as_specified_fails :
  ~ null_page_rule_as_specified demo_stack_world 8 (demo_controller "ia32" 4 ∅).
Proof.
  intros [_ H]. assert (H0 : null_page_mapped demo_stack_world = false)
    by (vm_compute; reflexivity).
  specialize (H H0). vm_compute in H. discriminate H.
Qed.

(** ** C2 — the stack set-up *)

Lemma uc_mem_map_Return a s perms u u' t :
  mem_map a s perms u = inr u' ->
  uc_mem_map a s perms {| uc := Some u; trace := t |} =
    (Return tt, {| uc := Some u'; trace := t ++ [EUc (UcMemMap a s perms)] |}).
Proof. intros H. unfold uc_mem_map, bind, log, with_uc. simpl. now rewrite H. Qed.

Lemma uc_mem_write_Return a data u u' t :
  mem_write a data u = inr u' ->
  uc_mem_write a data {| uc := Some u; trace := t |} =
    (Return tt, {| uc := Some u'; trace := t ++ [EUc (UcMemWrite a data)] |}).
Proof. intros H. unfold uc_mem_write, bind, log, with_uc. simpl. now rewrite H. Qed.

Lemma mem_map_fresh a s perms m :
  0 < s -> a mod 4096 = 0 -> s mod 4096 = 0 -> 0 <= a -> a + s <= 2 ^ 64 ->
  Z.land perms (Z.lnot UC_PROT_ALL) = 0 ->
  mem_map a s perms (fresh_uc m) =
    inr (set_regions (fresh_uc m) [{| r_begin := a; r_size := s; r_perms := perms |}]).
Proof.
  intros Hs Ha Hsm Ha0 Hhi Hp. unfold mem_map.
  replace (s <=? 0) with false by (symmetry; apply Z.leb_gt; lia).
  rewrite Ha, Hsm, Hp. simpl.
  replace (a <? 0) with false by (symmetry; apply Z.ltb_ge; lia).
  replace (2 ^ 64 <? a + s) with false
    by (symmetry; apply Z.ltb_ge; lia).
  reflexivity.
Qed.

Lemma range_mapped_inside u r a n :
  r ∈ regions u -> r_begin r <= a -> a + Z.of_nat n <= r_begin r + r_size r ->
  range_mapped u a n = true.
Proof.
  intros Hr Hlo Hhi. unfold range_mapped. apply forallb_forall. intros i Hi.
  apply bool_decide_eq_true. apply list_elem_of_In, elem_of_seqZ in Hi.
  unfold find_region.
  destruct (find (in_region i) (regions u)) as [r'|] eqn:Hf; [eauto|].
  exfalso. apply list_elem_of_In in Hr.
  pose proof (find_none _ _ Hf r Hr) as Hn. unfold in_region in Hn.
  apply andb_false_iff in Hn. destruct Hn as [Hn|Hn];
    [apply Z.leb_gt in Hn|apply Z.ltb_ge in Hn]; lia.
Qed.

Lemma length_le_bytes n v : length (le_bytes n v) = n.
Proof. revert v. induction n; intros v; simpl; [reflexivity|]. now rewrite IHn. Qed.

Lemma pack_sentinel f : pack_bytes f STACK_MAGIC_RET_ADDR = Some (le_bytes (fmt_size f) STACK_MAGIC_RET_ADDR).
Proof. destruct f; reflexivity. Qed.

Lemma stack_addr_aligned m : stack_addr_of m mod 4096 = 0 /\ 0 <= stack_addr_of m.
Proof. destruct m; split; (reflexivity || (simpl; lia)). Qed.

Lemma profile_for_Some a m :
  profile_for a = Some m ->
  (a = "ia32"%string /\ m = UC_MODE_32) \/ (a = "x64"%string /\ m = UC_MODE_64).
Proof. unfold profile_for. repeat case_decide; intros [= <-]; auto. Qed.

(** Symbolic execution of the next statement with a tactic for its equation. *)
Ltac exec_with tac :=
  first [ erewrite bind_Return by tac
        | erewrite try_UcError_bind_Return by tac ];
  cbn [uc trace app initial_world].

Lemma mem_write_inside u r a data :
  r ∈ regions u -> r_begin r <= a ->
  a + Z.of_nat (length data) <= r_begin r + r_size r ->
  mem_write a data u = inr (set_memory u (write_bytes a data (memory u))).
Proof.
  intros Hr Hlo Hhi. unfold mem_write.
  now rewrite (range_mapped_inside u r a (length data) Hr Hlo Hhi).
Qed.

Lemma stack_setup_trace cpu fuel ws p exp m f :
  profile_for (architecture p) = Some m ->
  pointer_fmt (pointer_size p) = Some f ->
  0 < page_size p -> page_size p mod 4096 = 0 ->
  stack_addr_of m + 3 * page_size p <= 2 ^ 64 ->
  exists rest,
    trace (resolve cpu fuel ws p exp).2 =
      [EPc PcArchitecture; EUc (UcNew m); EPc PcPageSize; EPc PcPageSize;
       EUc (UcMemMap (stack_addr_of m) (3 * page_size p)
              (Z.lor UC_PROT_READ UC_PROT_WRITE));
       EPc PcPointerSize;
       sentinel_write m p f;
       EUc (UcRegWrite (sp_register_of m) (stack_top m p));
       EUc (UcRegWrite (bp_register_of m) (stack_top m p))] ++ rest.
Proof.
  intros Hm Hf Hps Hal Hhi.
  destruct (stack_addr_aligned m) as [Hsa Hs0].
  assert (H3 : (3 * page_size p) mod 4096 = 0).
  { rewrite Z.mul_mod, Hal by lia. reflexivity. }
  assert (Hlen : Z.of_nat (fmt_size f) <= 8) by (destruct f; simpl; lia).
  assert (Hpage : 4096 <= page_size p).
  { pose proof (Z.div_mod (page_size p) 4096). lia. }
  unfold sentinel_write, resolve, resolve_wrapped_api,
    resolve_wrapped_api_under.
  change (uc_open None) with uc_new. exec_step.
  destruct (profile_for_Some _ _ Hm) as [[Ha ->]|[Ha ->]]; rewrite Ha;
    [ rewrite decide_True by reflexivity
    | rewrite decide_False by discriminate; rewrite decide_True by reflexivity ].
  all: exec_step; cbv beta iota; do 3 exec_step.
  all: exec_with ltac:(apply uc_mem_map_Return, mem_map_fresh;
                       solve [lia | reflexivity | assumption]).
  all: exec_step; unfold pointer_size_to_fmt; rewrite Hf; exec_step.
  all: unfold struct_pack; rewrite pack_sentinel; exec_step.
  all: exec_with ltac:(apply uc_mem_write_Return;
         eapply mem_write_inside;
         [ apply list_elem_of_here
         | simpl; lia
         | rewrite length_le_bytes; simpl in *; lia ]).
  all: do 2 exec_step.
  all: match goal with
       | |- exists rest, trace (?k ?w).2 = _ =>
           apply (logs_extends (fun _ => True) k w (trace w))
       end; [logs_prog; intros; exact I | reflexivity | eexists; reflexivity].
Qed.

(** C2 (as the code has it): when [resolve_wrapped_api] builds the
    environment of a supported target (page size a positive multiple of the
    engine's 4 KiB page, pointer size 4 or 8), the sentinel is written at the
    stack's usable top as the synthetic return address whether or not the
    caller supplies an expected return address, and the stack-pointer and
    frame-pointer registers are then both set to that top. *)
Theorem stack_setup_writes_sentinel cpu fuel ws p exp m f :
  profile_for (architecture p) = Some m ->
  pointer_fmt (pointer_size p) = Some f ->
  0 < page_size p -> page_size p mod 4096 = 0 ->
  stack_addr_of m + 3 * page_size p <= 2 ^ 64 ->
  exists rest,
    trace (resolve cpu fuel ws p exp).2 =
      [EPc PcArchitecture; EUc (UcNew m); EPc PcPageSize; EPc PcPageSize;
       EUc (UcMemMap (stack_addr_of m) (3 * page_size p)
              (Z.lor UC_PROT_READ UC_PROT_WRITE));
       EPc PcPointerSize;
       sentinel_write m p f;
       EUc (UcRegWrite (sp_register_of m) (stack_top m p));
       EUc (UcRegWrite (bp_register_of m) (stack_top m p))] ++ rest.
Proof. apply stack_setup_trace. Qed.

Lemma stack_setup_writes_sentinel_witness :
  exists rest,
    trace (resolve faulting_cpu 8 0x401000 (demo_controller "x64" 8 ∅)
             (Some 0x401005)).2 =
      [EPc PcArchitecture; EUc (UcNew UC_MODE_64); EPc PcPageSize; EPc PcPageSize;
       EUc (UcMemMap (stack_addr_of UC_MODE_64)
              (3 * page_size (demo_controller "x64" 8 ∅))
              (Z.lor UC_PROT_READ UC_PROT_WRITE));
       EPc PcPointerSize;
       sentinel_write UC_MODE_64 (demo_controller "x64" 8 ∅) FmtQ;
       EUc (UcRegWrite (sp_register_of UC_MODE_64)
              (stack_top UC_MODE_64 (demo_controller "x64" 8 ∅)));
       EUc (UcRegWrite (bp_register_of UC_MODE_64)
              (stack_top UC_MODE_64 (demo_controller "x64" 8 ∅)))] ++ rest.
Proof.
  apply (stack_setup_writes_sentinel faulting_cpu 8 0x401000
           (demo_controller "x64" 8 ∅) (Some 0x401005) UC_MODE_64 FmtQ).
  - reflexivity.
  - reflexivity.
  - reflexivity.
  - reflexivity.
  - cbn. lia.
Defined.

(** C2 as stated fails: the sentinel is also written when the caller
    supplies an expected return address. *)
Lemma sentinel_rule_as_specified_fails :
  ~ sentinel_rule_as_specified
      (trace (resolve faulting_cpu 8 0x401000 (demo_controller "ia32" 4 ∅)
                (Some 0x401005)).2)
      UC_MODE_32 (demo_controller "ia32" 4 ∅) FmtI (Some 0x401005).
Proof.
  unfold sentinel_rule_as_specified. intros [H _].
  assert (Hin : In (sentinel_write UC_MODE_32 (demo_controller "ia32" 4 ∅) FmtI)
                  (trace (resolve faulting_cpu 8 0x401000
                            (demo_controller "ia32" 4 ∅) (Some 0x401005)).2)).
  { destruct (stack_setup_trace faulting_cpu 8 0x401000
                (demo_controller "ia32" 4 ∅) (Some 0x401005) UC_MODE_32 FmtI)
      as [rest Hr];
      [reflexivity | reflexivity | reflexivity | reflexivity | cbn; lia |].
    rewrite Hr. apply in_or_app. left. cbn [In]. auto 10. }
  specialize (H Hin). discriminate H.
Qed.

(** ** C6 — when the export mapping is requested *)

Lemma count_app f t d : count f (t ++ d) = (count f t + count f d)%nat.
Proof. unfold count. now rewrite filter_app, length_app. Qed.

Lemma count_zero f d : Forall (fun e => f e = false) d -> count f d = 0%nat.
Proof.
  unfold count. induction 1 as [|e d He _ IH]; [reflexivity|].
  rewrite filter_cons_False by congruence. exact IH.
Qed.

Lemma plain_counts d :
  Forall plain_event d ->
  count is_enumeration d = 0%nat /\ count is_block_callback d = 0%nat.
Proof.
  intros H. split; apply count_zero; eapply Forall_impl; eauto;
    intros e [? ?]; assumption.
Qed.

(** A trace property that appending [ok] events maintains is an invariant of
    every computation that only logs [ok] events. *)
Lemma logs_preserves {A} ok (T : list event -> Prop) (m : M A) :
  (forall t d, T t -> Forall ok d -> T (t ++ d)) ->
  logs ok m -> preserves (fun w => T (trace w)) m.
Proof.
  intros HT Hm w Hw. destruct (Hm w) as (d & Hd & Hok & _).
  rewrite Hd. auto.
Qed.

Lemma balanced_plain t d : balanced t -> Forall plain_event d -> balanced (t ++ d).
Proof.
  unfold balanced. intros Ht Hd. destruct (plain_counts d Hd) as [H1 H2].
  rewrite !count_app, H1, H2. lia.
Qed.

Lemma hook_block_trace address size ud w :
  exists d,
    trace (_unicorn_hook_block address size ud w).2 =
      trace w ++ [EPc PcPointerSize; EPc PcArchitecture;
                  EPc PcEnumerateExportedFunctions] ++ d /\
    Forall plain_event d.
Proof.
  destruct ud as [p stop]. unfold _unicorn_hook_block. do 3 exec_step.
  match goal with
  | |- exists d, trace (?k ?w).2 = _ /\ _ =>
      assert (Hk : logs plain_event k)
  end.
  { logs_prog; intros; split; reflexivity. }
  match goal with
  | |- exists d, trace (?k ?w).2 = _ /\ _ =>
      destruct (Hk w) as (d & Hd & Hok & _)
  end.
  exists d. split; [|exact Hok]. rewrite Hd. simpl. now rewrite <- !app_assoc.
Qed.

Lemma preserves_balanced_hook_block stop address size p :
  preserves (fun w => balanced (trace w))
    (log (ECallback (CbBlock stop) address) ;;;
     _unicorn_hook_block address size (p, stop)).
Proof.
  intros w Hw. erewrite bind_Return by reflexivity.
  destruct (hook_block_trace address size (p, stop)
              {| uc := uc w; trace := trace w ++ [ECallback (CbBlock stop) address] |})
    as (d & Hd & Hok).
  rewrite Hd. destruct (plain_counts d Hok) as [H1 H2].
  unfold balanced in *. cbn [trace]. rewrite !count_app, H1, H2.
  change (count is_enumeration [ECallback (CbBlock stop) address]) with 0%nat.
  change (count is_block_callback [ECallback (CbBlock stop) address]) with 1%nat.
  change (count is_enumeration [EPc PcPointerSize; EPc PcArchitecture;
            EPc PcEnumerateExportedFunctions]) with 1%nat.
  change (count is_block_callback [EPc PcPointerSize; EPc PcArchitecture;
            EPc PcEnumerateExportedFunctions]) with 0%nat.
  lia.
Qed.

Lemma preserves_bind_ret {A B} I (a : A) (k : A -> M B) :
  preserves I (k a) -> preserves I (bind (ret a) k).
Proof. intros H w. exact (H w). Qed.

Lemma preserves_bind_raise {A B} I e (k : A -> M B) :
  preserves I (bind (raise e) k).
Proof. intros w Hw. exact Hw. Qed.

(** One syntax-directed step of an invariant proof. *)
Ltac pres_step :=
  match goal with
  | |- preserves _ (bind (ret _) _) => apply preserves_bind_ret; cbv beta iota
  | |- preserves _ (bind (raise _) _) => apply preserves_bind_raise
  | |- preserves _ (bind _ _) => apply preserves_bind; [| intros ?]
  | |- preserves _ (ret _) => apply preserves_ret
  | |- preserves _ (raise _) => apply preserves_raise
  | |- preserves _ diverge => apply preserves_diverge
  | |- preserves _ (try_except _ _) => apply preserves_try_except; [| intros ?]
  | |- preserves _ (try_except_UcError _ _) =>
      apply preserves_try_except_UcError; [| intros ?]
  | |- preserves _ (match ?x with _ => _ end) => destruct x
  end.

(** Statements that log neither an enumeration nor a block callback. *)
Ltac plain_leaf T HT :=
  solve [ apply (logs_preserves plain_event T); [exact HT|];
          logs_prog; intros; split; reflexivity ].

Lemma preserves_balanced_dispatch_block hs p a s :
  preserves (fun w => balanced (trace w)) (dispatch_block hs p a s).
Proof.
  induction hs as [|[[] []] hs IH]; cbn [dispatch_block]; auto using preserves_ret.
  change (preserves (fun w => balanced (trace w))
            ((log (ECallback (CbBlock stop_on_ret_addr) a) ;;;
              _unicorn_hook_block a s (p, stop_on_ret_addr)) ;;;
             dispatch_block hs p a s)).
  apply preserves_bind; [apply preserves_balanced_hook_block | intros _; exact IH].
Qed.

Lemma preserves_balanced_emu_loop cpu fuel p until entered :
  preserves (fun w => balanced (trace w)) (emu_loop cpu fuel p until entered).
Proof.
  revert entered. induction fuel as [|fuel IH]; intros entered; cbn [emu_loop].
  - apply preserves_diverge.
  - repeat first [ apply IH
                 | apply preserves_balanced_dispatch_block
                 | pres_step
                 | plain_leaf balanced balanced_plain ].

Qed.

Lemma preserves_balanced_resolve cpu fuel ws p exp :
  preserves (fun w => balanced (trace w)) (resolve_wrapped_api cpu fuel ws p exp).
Proof.
  unfold resolve_wrapped_api, resolve_wrapped_api_under, uc_emu_start.
  change (uc_open None) with uc_new.
  apply preserves_bind; [plain_leaf balanced balanced_plain | intros arch].
  destruct (decide (arch = "ia32"%string));
    [|destruct (decide (arch = "x64"%string))];
    repeat first [ apply preserves_balanced_emu_loop
                 | pres_step
                 | plain_leaf balanced balanced_plain ].
Qed.

Lemma started_app t d :
  started_before_enumerating t -> started_before_enumerating (t ++ d).
Proof.
  intros (pre & b & u & post & -> & H). exists pre, b, u, (post ++ d).
  split; [|exact H]. now rewrite <- app_assoc.
Qed.

Lemma enumerated_in_run_plain t d :
  enumerated_in_run t -> Forall plain_event d -> enumerated_in_run (t ++ d).
Proof.
  intros [H|H] Hd; [left|right; now apply started_app].
  rewrite count_app, H. now destruct (plain_counts d Hd) as [-> _].
Qed.

Lemma preserves_enumerated_emu_start cpu fuel p b u :
  preserves (fun w => enumerated_in_run (trace w)) (uc_emu_start cpu fuel p b u).
Proof.
  unfold uc_emu_start.
  eapply hoare_bind with
    (R := fun _ w => started_before_enumerating (trace w)).
  - intros w [H|H]; cbn.
    + exists (trace w), b, u, []. auto.
    + now apply started_app.
  - intros _. eapply hoare_conseq with
      (Q' := fun _ w => started_before_enumerating (trace w)).
    + apply (logs_preserves (fun _ => True)).
      * intros t d H _. now apply started_app.
      * logs_prog; intros; exact I.
    + auto.
    + intros r w H. now right.
  - intros e w H. now right.
  - intros w H. now right.
Qed.

Lemma preserves_enumerated_resolve cpu fuel ws p exp :
  preserves (fun w => enumerated_in_run (trace w))
    (resolve_wrapped_api cpu fuel ws p exp).
Proof.
  unfold resolve_wrapped_api, resolve_wrapped_api_under.
  change (uc_open None) with uc_new.
  apply preserves_bind;
    [plain_leaf enumerated_in_run enumerated_in_run_plain | intros arch].
  destruct (decide (arch = "ia32"%string));
    [|destruct (decide (arch = "x64"%string))];
    repeat first [ apply preserves_enumerated_emu_start
                 | pres_step
                 | plain_leaf enumerated_in_run enumerated_in_run_plain ].
Qed.

(** C6 (as the code has it): the export mapping is requested from the
    process-control service once by every basic-block hook invocation, so a
    resolution requests it as many times as the block hook is called; it is
    never requested at hook-install time: every request comes after the call
    of [emu_start]. *)
Theorem exports_requested_per_block cpu fuel ws p exp :
  (forall address size stop w,
     count is_enumeration
       (trace (_unicorn_hook_block address size (p, stop) w).2) =
     S (count is_enumeration (trace w))) /\
  balanced (trace (resolve cpu fuel ws p exp).2) /\
  (count is_enumeration (trace (resolve cpu fuel ws p exp).2) = 0%nat \/
   started_before_enumerating (trace (resolve cpu fuel ws p exp).2)).
Proof.
  split; [|split].
  - intros address size stop w.
    destruct (hook_block_trace address size (p, stop) w) as (d & -> & Hd).
    destruct (plain_counts d Hd) as [H _].
    rewrite !count_app, H.
    change (count is_enumeration [EPc PcPointerSize; EPc PcArchitecture;
              EPc PcEnumerateExportedFunctions]) with 1%nat.
    lia.
  - apply (preserves_balanced_resolve cpu fuel ws p exp initial_world).
    reflexivity.
  - apply (preserves_enumerated_resolve cpu fuel ws p exp initial_world).
    left. reflexivity.
Qed.

(** C6 as stated fails: a run over two basic blocks requests the export
    mapping twice, both times during the run. *)
Lemma snapshot_rule_as_specified_fails :
  ~ snapshot_rule_as_specified
      (trace (resolve (stride_cpu 512) 8 0x401000 (demo_controller "ia32" 4 ∅) None).2).
Proof.
  intros [H _]. vm_compute in H. discriminate H.
Qed.

(** ** How a resolution ends: log and result *)

Lemma triple_bind {A B} (P : World -> Prop) R J E D (m : M A) (k : A -> M B) :
  hoare P m (post R E D) ->
  (forall a, hoare (R a) (k a) (post J E D)) ->
  hoare P (bind m k) (post J E D).
Proof.
  intros Hm Hk. eapply hoare_bind; [exact Hm | exact Hk | auto | auto].
Qed.

Lemma triple_preserves {A} (I : World -> Prop) (J : A -> World -> Prop) E D m :
  preserves I m ->
  (forall a w, I w -> J a w) -> (forall e w, I w -> E e w) ->
  (forall w, I w -> D w) ->
  hoare I m (post J E D).
Proof.
  intros Hm HJ HE HD w Hw. specialize (Hm w Hw).
  destruct (m w) as [[a|e|] w']; simpl in *; auto.
Qed.

Lemma triple_pre {A} (P P' : World -> Prop) (Q : result A -> World -> Prop) m :
  hoare P' m Q -> (forall w, P w -> P' w) -> hoare P m Q.
Proof. unfold hoare. auto. Qed.

Lemma quiet_parts d :
  Forall quiet_event d -> no_reached_end d /\ no_fault d.
Proof.
  intros H. split; eapply Forall_impl; eauto; intros e [? ?]; assumption.
Qed.

Lemma running_quiet t d :
  (no_reached_end t /\ no_fault t) -> Forall quiet_event d ->
  no_reached_end (t ++ d) /\ no_fault (t ++ d).
Proof.
  intros [H1 H2] Hd. destruct (quiet_parts d Hd).
  split; apply Forall_app; auto.
Qed.

Lemma preserves_running {A} (m : M A) : logs quiet_event m -> preserves running m.
Proof.
  intros Hm w (H1 & H2 & Hu). destruct (Hm w) as (d & Hd & Hok & Hk).
  unfold running. rewrite Hd.
  destruct (running_quiet (trace w) d (conj H1 H2) Hok). auto.
Qed.

(** Statements that log no run ending keep the run in progress. *)
Ltac quiet_leaf :=
  solve [ apply preserves_running; logs_prog; intros; split; reflexivity ].

Lemma running_returned until w : running w -> run_returned until w.
Proof. intros (H1 & H2 & H3). unfold run_returned. auto. Qed.
Lemma running_raised e w : running w -> run_raised e w.
Proof. intros (H1 & H2 & H3). unfold run_raised. auto. Qed.
Lemma running_diverged w : running w -> run_diverged w.
Proof. intros (H1 & H2 & H3). unfold run_diverged. auto. Qed.

Lemma triple_running {A} (m : M A) J :
  preserves running m -> (forall a w, running w -> J a w) ->
  hoare running m (post J run_raised run_diverged).
Proof.
  intros Hm HJ. apply triple_preserves; auto using running_raised, running_diverged.
Qed.

Lemma triple_fault {A} e J :
  hoare running (@fault A e) (post J run_raised run_diverged).
Proof.
  intros w (H1 & H2 & H3). unfold fault. cbn. unfold run_raised. cbn.
  split; [exact H3|]. split; [|eauto].
  apply Forall_app. split; [exact H1|]. repeat constructor.
Qed.

Lemma triple_get_uc (P : World -> Prop) J E D :
  (forall w, P w -> has_uc w) ->
  (forall u t, P {| uc := Some u; trace := t |} -> J u {| uc := Some u; trace := t |}) ->
  hoare P get_uc (post J E D).
Proof.
  intros Hu HJ [[u|] t] Hw.
  - cbn. auto.
  - destruct (Hu _ Hw) as [? H]. discriminate H.
Qed.

Lemma emu_loop_outcome cpu fuel p until entered :
  hoare running (emu_loop cpu fuel p until entered)
    (post (fun _ => run_returned until) run_raised run_diverged).
Proof.
  revert entered. induction fuel as [|fuel IH]; intros entered; cbn [emu_loop].
  - intros w Hw. now apply running_diverged.
  - eapply triple_bind with
      (R := fun u w => running w /\ uc w = Some u).
    { apply triple_get_uc.
      - intros w (_ & _ & H). exact H.
      - auto. }
    intros u.
    destruct (stop_request u).
    { eapply triple_pre; [|intros w [H _]; exact H].
      apply triple_running; [quiet_leaf|]. intros _ w. apply running_returned. }
    destruct entered.
    + eapply triple_pre; [|intros w [H _]; exact H].
      destruct (execute cpu u) as [rs m|is_write a|e|rs m].
      * eapply triple_bind with (R := fun _ => running);
          [apply triple_running; [quiet_leaf|auto] | intros _; apply IH].
      * eapply triple_bind with (R := fun _ => running);
          [apply triple_running; [quiet_leaf|auto] | intros [|]];
          [apply IH | apply triple_fault].
      * apply triple_fault.
      * eapply triple_bind with (R := fun _ => running);
          [apply triple_running; [quiet_leaf|auto] | intros _].
        apply triple_running; [quiet_leaf|]. intros _ w. apply running_returned.
    + destruct (reg_pc (regs u) =? until) eqn:Hpc.
      { apply Z.eqb_eq in Hpc. intros w [(H1 & H2 & H3) Hu]. cbn.
        unfold run_returned, has_uc, program_counter. cbn. rewrite Hu. cbn.
        split; [eauto|]. split; [|right; exact Hpc].
        apply Forall_app. split; [exact H2|]. repeat constructor. }
      eapply triple_pre; [|intros w [H _]; exact H].
      destruct (find_region u (reg_pc (regs u))) as [r|].
      * destruct (executable r); [|apply triple_fault].
        eapply triple_bind with (R := fun _ => running);
          [apply triple_running; [quiet_leaf|auto] | intros _; apply IH].
      * eapply triple_bind with (R := fun _ => running);
          [apply triple_running; [quiet_leaf|auto] | intros [|]];
          [apply IH | apply triple_fault].
Qed.

Lemma handler_outcome until pcr spr bpr w :
  has_uc w -> no_reached_end (trace w) ->
  resolve_outcome until
    ((pc <- uc_reg_read pcr ;; sp <- uc_reg_read spr ;;
      bp <- uc_reg_read bpr ;; ret (@None Z)) w).1
    ((pc <- uc_reg_read pcr ;; sp <- uc_reg_read spr ;;
      bp <- uc_reg_read bpr ;; ret (@None Z)) w).2.
Proof.
  destruct w as [[u|] t]; intros [u' Hu] Hne; [|discriminate Hu]. cbn.
  unfold no_reached_end in *. rewrite !Forall_app. repeat split; auto;
    repeat constructor.
Qed.

Lemma read_pc_outcome until pcr :
  pcr = UC_X86_REG_EIP \/ pcr = UC_X86_REG_RIP ->
  hoare (run_returned until) (pc <- uc_reg_read pcr ;; ret (Some pc))
    (post (body_returned until) run_raised run_diverged).
Proof.
  intros Hpcr [[u|] t] ([u' Hu] & Hnf & Hne); [|discriminate Hu]. cbn.
  split.
  - apply Forall_app. split; [exact Hnf|]. repeat constructor.
  - destruct Hne as [Hne|Hpc]; [left|right].
    + apply Forall_app. split; [exact Hne|]. repeat constructor.
    + unfold program_counter in Hpc. cbn in Hpc.
      destruct Hpcr as [-> | ->]; exact Hpc.
Qed.

(** Statements that keep the run in progress, in sequence. *)
Ltac running_steps :=
  repeat (eapply triple_bind with (R := fun _ => running);
          [apply triple_running; [quiet_leaf|auto] | intros ?]).

Lemma emu_start_outcome cpu fuel p b until :
  hoare running (uc_emu_start cpu fuel p b until)
    (post (fun _ => run_returned until) run_raised run_diverged).
Proof. unfold uc_emu_start. running_steps. apply emu_loop_outcome. Qed.

Lemma body_outcome cpu fuel ws p stop m pcr spr bpr stack_addr
    (setup_teb : ProcessController -> M unit) w :
  pcr = UC_X86_REG_EIP \/ pcr = UC_X86_REG_RIP ->
  logs quiet_event (setup_teb p) ->
  no_reached_end (trace w) /\ no_fault (trace w) ->
  post (body_returned (ws + 1024)) run_raised run_diverged
    ((uc_new m ;;;
      ps <- pc_page_size p ;;
      let stack_size := 3 * ps in
      ps <- pc_page_size p ;;
      let stack_start := stack_addr + stack_size - ps in
      uc_mem_map stack_addr stack_size (Z.lor UC_PROT_READ UC_PROT_WRITE) ;;;
      ptr_size <- pc_pointer_size p ;;
      f <- pointer_size_to_fmt ptr_size ;;
      data <- struct_pack f STACK_MAGIC_RET_ADDR ;;
      uc_mem_write stack_start data ;;;
      uc_reg_write spr stack_start ;;;
      uc_reg_write bpr stack_start ;;;
      setup_teb p ;;;
      uc_hook_add UC_HOOK_MEM_UNMAPPED CbUnmapped ;;;
      uc_hook_add UC_HOOK_BLOCK (CbBlock stop) ;;;
      uc_emu_start cpu fuel p ws (ws + 1024) ;;;
      pc <- uc_reg_read pcr ;; ret (Some pc)) w).1
    ((uc_new m ;;;
      ps <- pc_page_size p ;;
      let stack_size := 3 * ps in
      ps <- pc_page_size p ;;
      let stack_start := stack_addr + stack_size - ps in
      uc_mem_map stack_addr stack_size (Z.lor UC_PROT_READ UC_PROT_WRITE) ;;;
      ptr_size <- pc_pointer_size p ;;
      f <- pointer_size_to_fmt ptr_size ;;
      data <- struct_pack f STACK_MAGIC_RET_ADDR ;;
      uc_mem_write stack_start data ;;;
      uc_reg_write spr stack_start ;;;
      uc_reg_write bpr stack_start ;;;
      setup_teb p ;;;
      uc_hook_add UC_HOOK_MEM_UNMAPPED CbUnmapped ;;;
      uc_hook_add UC_HOOK_BLOCK (CbBlock stop) ;;;
      uc_emu_start cpu fuel p ws (ws + 1024) ;;;
      pc <- uc_reg_read pcr ;; ret (Some pc)) w).2.
Proof.
  intros Hpcr Hteb Hw. revert w Hw.
  change (hoare (fun w => no_reached_end (trace w) /\ no_fault (trace w))
    (uc_new m ;;;
      ps <- pc_page_size p ;;
      let stack_size := 3 * ps in
      ps <- pc_page_size p ;;
      let stack_start := stack_addr + stack_size - ps in
      uc_mem_map stack_addr stack_size (Z.lor UC_PROT_READ UC_PROT_WRITE) ;;;
      ptr_size <- pc_pointer_size p ;;
      f <- pointer_size_to_fmt ptr_size ;;
      data <- struct_pack f STACK_MAGIC_RET_ADDR ;;
      uc_mem_write stack_start data ;;;
      uc_reg_write spr stack_start ;;;
      uc_reg_write bpr stack_start ;;;
      setup_teb p ;;;
      uc_hook_add UC_HOOK_MEM_UNMAPPED CbUnmapped ;;;
      uc_hook_add UC_HOOK_BLOCK (CbBlock stop) ;;;
      uc_emu_start cpu fuel p ws (ws + 1024) ;;;
      pc <- uc_reg_read pcr ;; ret (Some pc))
    (post (body_returned (ws + 1024)) run_raised run_diverged)).
  eapply triple_bind with (R := fun _ => running).
  { intros w [H1 H2]. cbn. unfold running, has_uc. cbn.
    repeat split; eauto; apply Forall_app; split; auto; repeat constructor. }
  intros _. cbv zeta. running_steps.
  eapply triple_bind with (R := fun _ => running);
    [apply triple_running; [apply preserves_running, Hteb|auto] | intros ?].
  running_steps.
  eapply triple_bind with (R := fun _ => run_returned (ws + 1024));
    [apply emu_start_outcome | intros _; now apply read_pc_outcome].
Qed.

Lemma resolve_wrapped_api_outcome cpu fuel ws p exp :
  hoare (fun w => no_reached_end (trace w) /\ no_fault (trace w))
    (resolve_wrapped_api cpu fuel ws p exp) (resolve_outcome (ws + 1024)).
Proof.
  intros w [H1 H2]. unfold resolve_wrapped_api, resolve_wrapped_api_under.
  change (uc_open None) with uc_new. exec_step.
  assert (Hw : no_reached_end (trace w ++ [EPc PcArchitecture]) /\
               no_fault (trace w ++ [EPc PcArchitecture])).
  { split; apply Forall_app; split; auto; repeat constructor. }
  destruct (decide (architecture p = "ia32"%string));
    [|destruct (decide (architecture p = "x64"%string))].
  3:{ cbn. split; [discriminate|exact Hw]. }
  all: exec_step; cbv beta iota.
  all: match goal with
       | |- resolve_outcome _ (try_except_UcError ?b ?h ?w).1 _ =>
           assert (Hb : post (body_returned (ws + 1024)) run_raised run_diverged
                          (b w).1 (b w).2)
             by (apply body_outcome;
                 [auto | logs_prog; intros; split; reflexivity | exact Hw]);
           unfold try_except_UcError;
           destruct (b w) as [[[v|]|[x| | | |]|] w'] eqn:Hbw
       end; cbn [fst snd post body_returned run_raised run_diverged] in Hb |- *.
  all: try (destruct Hb as (Hu & Hne & Hnf)).
  all: try (apply handler_outcome; assumption).
  all: try contradiction.
  all: try (cbn; first [exact Hb | split; [discriminate|];
                        destruct Hnf as [Hnf|[? Hx]]; [auto|discriminate Hx]]).
Qed.

(** ** A process that cannot be read *)

Lemma hoare_bind_pure {A B} (P : World -> Prop) (Q : result B -> World -> Prop)
    (m : M A) (k : A -> M B) a :
  (forall w, m w = (Return a, w)) -> hoare P (k a) Q -> hoare P (bind m k) Q.
Proof. intros Hm Hk w Hw. unfold bind. rewrite Hm. now apply Hk. Qed.

(** An engine call that keeps every region non-executable, or fails with an
    engine error. *)
Lemma nx_engine_call {A} ev (f : Uc -> result A * Uc) :
  (forall u, no_exec_regions u ->
     match f u with
     | (Return _, u') => no_exec_regions u'
     | (Raise e, _) => exists x, e = UcError x
     | (Diverge, _) => False
     end) ->
  hoare no_exec (log ev ;;; with_uc f) (post (fun _ => no_exec) engine_error never).
Proof.
  intros Hf [[u|] t] (u' & Hu & Hnx); [|discriminate Hu]. injection Hu as <-.
  specialize (Hf u Hnx). cbn. destruct (f u) as [[a|e|] u']; cbn.
  - exists u'. auto.
  - split; [eexists; reflexivity | exact Hf].
  - exact Hf.
Qed.

Lemma nx_log_ret {A} ev (a : A) :
  hoare no_exec (log ev ;;; ret a) (post (fun _ => no_exec) engine_error never).
Proof. intros [[u|] t] (u' & Hu & Hnx); [|discriminate Hu]. cbn. exists u'. auto. Qed.

Lemma nx_uc_mem_map a s :
  hoare no_exec (uc_mem_map a s (Z.lor UC_PROT_READ UC_PROT_WRITE))
    (post (fun _ => no_exec) engine_error never).
Proof.
  apply nx_engine_call. intros u Hu. unfold mem_map.
  repeat case_match; simplify_eq; eauto.
  constructor; [reflexivity | exact Hu].
Qed.

Lemma nx_uc_mem_write a d :
  hoare no_exec (uc_mem_write a d) (post (fun _ => no_exec) engine_error never).
Proof.
  apply nx_engine_call. intros u Hu. unfold mem_write.
  repeat case_match; simplify_eq; eauto.
Qed.

Lemma nx_uc_reg_write r v :
  hoare no_exec (uc_reg_write r v) (post (fun _ => no_exec) engine_error never).
Proof. apply nx_engine_call. intros u Hu. exact Hu. Qed.

Lemma nx_uc_reg_write_msr i v :
  hoare no_exec (uc_reg_write_msr i v) (post (fun _ => no_exec) engine_error never).
Proof. apply nx_engine_call. intros u Hu. exact Hu. Qed.

Lemma nx_uc_hook_add h cb :
  hoare no_exec (uc_hook_add h cb) (post (fun _ => no_exec) engine_error never).
Proof. apply nx_engine_call. intros u Hu. exact Hu. Qed.

Lemma nx_pc_page_size p :
  hoare no_exec (pc_page_size p) (post (fun _ => no_exec) engine_error never).
Proof. apply nx_log_ret. Qed.

(** Engine calls that keep every region non-executable. *)
Ltac nx_call :=
  first [ apply nx_pc_page_size | apply nx_uc_mem_map | apply nx_uc_mem_write
        | apply nx_uc_reg_write | apply nx_uc_reg_write_msr
        | apply nx_uc_hook_add ].

(** Statements that keep every region non-executable, in sequence. *)
Ltac nx_steps :=
  repeat match goal with
         | |- hoare _ (bind _ _) _ =>
             first [ eapply triple_bind with (R := fun _ => no_exec);
                     [ nx_call | intros ? ]
                   | eapply hoare_bind_pure; [intros ?; reflexivity|] ]
         end.

Lemma nx_setup_teb_x86 p :
  hoare no_exec (_setup_teb_x86 p) (post (fun _ => no_exec) engine_error never).
Proof. unfold _setup_teb_x86. nx_steps. apply nx_uc_reg_write_msr. Qed.

Lemma nx_setup_teb_x64 p :
  hoare no_exec (_setup_teb_x64 p) (post (fun _ => no_exec) engine_error never).
Proof. unfold _setup_teb_x64. nx_steps. apply nx_uc_reg_write_msr. Qed.

Section Unreadable.
Variable p : ProcessController.
Hypothesis unreadable : forall a n, read_process_memory p a n = None.

Lemma hook_unmapped_unreadable a w :
  exists t, _unicorn_hook_unmapped a p w = (Return false, {| uc := uc w; trace := t |}).
Proof.
  unfold _unicorn_hook_unmapped. destruct (a =? 0).
  - exists (trace w). destruct w. reflexivity.
  - exec_step. unfold try_except, pc_read_process_memory, bind, log.
    cbn [uc trace]. rewrite unreadable. cbn. eauto.
Qed.

Lemma dispatch_unmapped_unreadable hs a w :
  exists t, dispatch_unmapped hs p a w = (Return false, {| uc := uc w; trace := t |}).
Proof.
  revert w. induction hs as [|[[] []] hs IH]; intros w; cbn [dispatch_unmapped];
    try apply IH.
  - exists (trace w). destruct w. reflexivity.
  - exec_step.
    destruct (hook_unmapped_unreadable a
                {| uc := uc w; trace := trace w ++ [ECallback CbUnmapped a] |})
      as [t Ht].
    erewrite bind_Return by exact Ht. cbn [uc].
    destruct (IH {| uc := uc w; trace := t |}) as [t' Ht']. eauto.
Qed.

Lemma emu_loop_unreadable cpu fuel until w u :
  uc w = Some u -> no_exec_regions u -> stop_request u = false ->
  reg_pc (regs u) <> until ->
  post (fun _ => never) engine_error never
    (emu_loop cpu (S fuel) p until false w).1
    (emu_loop cpu (S fuel) p until false w).2.
Proof.
  intros Hu Hnx Hstop Hpc. destruct w as [o t]. cbn in Hu. subst o.
  cbn [emu_loop]. exec_step. rewrite Hstop.
  apply Z.eqb_neq in Hpc. rewrite Hpc.
  destruct (find_region u (reg_pc (regs u))) as [r|] eqn:Hfind.
  - apply find_some in Hfind. destruct Hfind as [Hin _].
    unfold no_exec_regions in Hnx. rewrite Forall_forall in Hnx.
    rewrite (Hnx r) by (now apply list_elem_of_In).
    cbn. split; [eexists; reflexivity | eauto].
  - destruct (dispatch_unmapped_unreadable (hooks u) (reg_pc (regs u))
                {| uc := Some u; trace := t |}) as [t' Ht'].
    erewrite bind_Return by exact Ht'. cbn.
    split; [eexists; reflexivity | eauto].
Qed.

Lemma emu_start_unreadable cpu fuel b :
  hoare no_exec (uc_emu_start cpu (S fuel) p b (b + 1024))
    (post (fun _ => never) engine_error never).
Proof.
  intros [[u|] t] (u' & Hu & Hnx); [|discriminate Hu]. injection Hu as <-.
  unfold uc_emu_start. do 3 exec_step.
  eapply emu_loop_unreadable.
  - reflexivity.
  - exact Hnx.
  - reflexivity.
  - destruct (mode u); cbn; lia.
Qed.
End Unreadable.

Lemma nx_pc_pointer_size p :
  hoare no_exec (pc_pointer_size p)
    (post (fun a w => no_exec w /\ a = pointer_size p) engine_error never).
Proof.
  intros [[u|] t] (u' & Hu & Hnx); [|discriminate Hu]. cbn.
  split; [exists u'; auto | reflexivity].
Qed.

Lemma hoare_pre_eq {A B} (P : World -> Prop) (Q : result A -> World -> Prop)
    (m : M A) (a v : B) :
  (a = v -> hoare P m Q) -> hoare (fun w => P w /\ a = v) m Q.
Proof. intros H w [Hw Ha]. now apply H. Qed.

Lemma hoare_never {A} (m : M A) Q : hoare never m Q.
Proof. intros w []. Qed.

Lemma handler_returns_none pcr spr bpr w :
  has_uc w ->
  ((pc <- uc_reg_read pcr ;; sp <- uc_reg_read spr ;;
    bp <- uc_reg_read bpr ;; ret (@None Z)) w).1 = Return None.
Proof. destruct w as [[u|] t]; intros [u' Hu]; [reflexivity | discriminate Hu]. Qed.

Lemma body_unreadable cpu fuel ws p stop pcr spr bpr stack_addr
    (setup_teb : ProcessController -> M unit) :
  (forall a n, read_process_memory p a n = None) ->
  pointer_size p = 4 \/ pointer_size p = 8 ->
  hoare no_exec (setup_teb p) (post (fun _ => no_exec) engine_error never) ->
  hoare no_exec
    (ps <- pc_page_size p ;;
     let stack_size := 3 * ps in
     ps <- pc_page_size p ;;
     let stack_start := stack_addr + stack_size - ps in
     uc_mem_map stack_addr stack_size (Z.lor UC_PROT_READ UC_PROT_WRITE) ;;;
     ptr_size <- pc_pointer_size p ;;
     f <- pointer_size_to_fmt ptr_size ;;
     data <- struct_pack f STACK_MAGIC_RET_ADDR ;;
     uc_mem_write stack_start data ;;;
     uc_reg_write spr stack_start ;;;
     uc_reg_write bpr stack_start ;;;
     setup_teb p ;;;
     uc_hook_add UC_HOOK_MEM_UNMAPPED CbUnmapped ;;;
     uc_hook_add UC_HOOK_BLOCK (CbBlock stop) ;;;
     uc_emu_start cpu (S fuel) p ws (ws + 1024) ;;;
     pc <- uc_reg_read pcr ;; ret (Some pc))
    (post (fun _ => never) engine_error never).
Proof.
  intros Hread Hptr Hteb. cbv zeta. nx_steps.
  eapply triple_bind; [apply nx_pc_pointer_size|]. intros ptr_size.
  apply hoare_pre_eq. intros ->.
  destruct Hptr as [-> | ->]; nx_steps.
  all: eapply triple_bind with (R := fun _ => no_exec); [exact Hteb | intros ?].
  all: nx_steps.
  all: eapply triple_bind with (R := fun _ => never);
    [now apply emu_start_unreadable | intros ?; apply hoare_never].
Qed.

Lemma resolve_unreadable cpu fuel ws p exp :
  supported (architecture p) ->
  pointer_size p = 4 \/ pointer_size p = 8 ->
  (forall a n, read_process_memory p a n = None) ->
  (resolve cpu (S fuel) ws p exp).1 = Return None.
Proof.
  intros Harch Hptr Hread.
  unfold resolve, resolve_wrapped_api, resolve_wrapped_api_under.
  change (uc_open None) with uc_new. exec_step.
  destruct Harch as [Ha | Ha]; rewrite Ha;
    [ rewrite decide_True by reflexivity
    | rewrite decide_False by discriminate; rewrite decide_True by reflexivity ].
  all: exec_step; cbv beta iota; exec_step.
  all: match goal with
       | |- (try_except_UcError ?b ?h ?w).1 = _ =>
           assert (Hb : post (fun (_ : option Z) => never) engine_error never
                          (b w).1 (b w).2)
             by (apply body_unreadable;
                 [ exact Hread | exact Hptr
                 | first [apply nx_setup_teb_x86 | apply nx_setup_teb_x64]
                 | eexists; split; [reflexivity | constructor] ]);
           unfold try_except_UcError;
           destruct (b w) as [[v|e|] w']; cbn [fst snd post] in Hb
       end.
  all: try contradiction.
  all: destruct Hb as [Hu [x ->]]; now apply handler_returns_none.
Qed.

Lemma reached_end_not_quiet t : reached_end t -> no_reached_end t -> False.
Proof.
  unfold reached_end, no_reached_end. rewrite Forall_forall.
  intros Hin H. apply list_elem_of_In in Hin. specialize (H _ Hin). discriminate H.
Qed.

Lemma faulted_not_quiet t : faulted t -> no_fault t -> False.
Proof.
  unfold faulted, no_fault. rewrite Forall_forall.
  intros [e Hin] H. apply list_elem_of_In in Hin. specialize (H _ Hin).
  discriminate H.
Qed.

Lemma reached_end_decide t : existsb is_reached_end t = true -> reached_end t.
Proof.
  intros H. apply existsb_exists in H. destruct H as (e & Hin & He).
  destruct e as [| | |[]]; try discriminate He. exact Hin.
Qed.

Lemma faulted_decide t : existsb is_fault t = true -> faulted t.
Proof.
  intros H. apply existsb_exists in H. destruct H as (e & Hin & He).
  destruct e as [| | |[| |x| |]]; try discriminate He. exists x. exact Hin.
Qed.

Lemma resolve_outcome_holds cpu fuel ws p exp :
  resolve_outcome (ws + 1024)
    (resolve cpu fuel ws p exp).1 (resolve cpu fuel ws p exp).2.
Proof.
  apply (resolve_wrapped_api_outcome cpu fuel ws p exp initial_world).
  split; constructor.
Qed.

(** ** C4 — reaching the end of the window *)

(** C4 (as the code has it): for every emulation run that ends because the
    program counter reaches the end of the window, [wrapper_start_addr +
    1024], without the oracle having stopped it, [resolve_wrapped_api]
    returns that program-counter value, not "no result". *)
Theorem window_end_returns_program_counter cpu fuel ws p exp :
  reached_end (trace (resolve cpu fuel ws p exp).2) ->
  (resolve cpu fuel ws p exp).1 = Return (Some (ws + 1024)).
Proof.
  intros Hend. pose proof (resolve_outcome_holds cpu fuel ws p exp) as H.
  destruct (resolve cpu fuel ws p exp) as [[[v|]|e|] w]; cbn in *.
  - destruct H as [_ [H| ->]]; [|reflexivity].
    destruct (reached_end_not_quiet _ Hend H).
  - destruct (reached_end_not_quiet _ Hend H).
  - destruct H as (_ & H & _). destruct (reached_end_not_quiet _ Hend H).
  - destruct H as [H _]. destruct (reached_end_not_quiet _ Hend H).
Qed.

Lemma window_end_returns_program_counter_witness :
  (resolve (stride_cpu 1024) 8 0x401000 (demo_controller "ia32" 4 ∅) None).1 =
    Return (Some (0x401000 + 1024)).
Proof.
  apply (window_end_returns_program_counter
           (stride_cpu 1024) 8 0x401000 (demo_controller "ia32" 4 ∅) None).
  apply reached_end_decide. vm_compute. reflexivity.
Defined.

(** C4 as stated fails: a wrapper that runs into the end of the window
    makes the resolver return the address of that end, not "no result". *)
Lemma bound_rule_as_specified_fails :
  ~ bound_rule_as_specified
      (resolve (stride_cpu 1024) 8 0x401000 (demo_controller "ia32" 4 ∅) None).1
      (trace (resolve (stride_cpu 1024) 8 0x401000
                (demo_controller "ia32" 4 ∅) None).2).
Proof.
  unfold bound_rule_as_specified. intros H.
  assert (Hend : reached_end
            (trace (resolve (stride_cpu 1024) 8 0x401000
                      (demo_controller "ia32" 4 ∅) None).2))
    by (apply reached_end_decide; vm_compute; reflexivity).
  specialize (H Hend). vm_compute in H. discriminate H.
Qed.

(** ** C3 — failures during emulation *)

(** C3: when every real-process memory read fails, a resolution on a
    supported target (pointer size 4 or 8) returns "no result"; more
    generally, whenever the engine reports an internal fault during the run
    the resolver returns "no result"; and no call ever lets a [UcError]
    escape to the caller. *)
Theorem emulation_failure_returns_none cpu fuel ws p exp :
  (supported (architecture p) ->
   pointer_size p = 4 \/ pointer_size p = 8 ->
   (forall a n, read_process_memory p a n = None) ->
   (resolve cpu (S fuel) ws p exp).1 = Return None) /\
  (faulted (trace (resolve cpu fuel ws p exp).2) ->
   (resolve cpu fuel ws p exp).1 = Return None) /\
  (forall e, (resolve cpu fuel ws p exp).1 <> Raise (UcError e)).
Proof.
  split; [apply resolve_unreadable|].
  pose proof (resolve_outcome_holds cpu fuel ws p exp) as H.
  destruct (resolve cpu fuel ws p exp) as [[[v|]|x|] w]; cbn in *.
  - split; [|discriminate]. intros Hf. destruct H as [H _].
    destruct (faulted_not_quiet _ Hf H).
  - split; [reflexivity|discriminate].
  - destruct H as (Hx & _ & H). split.
    + intros Hf. destruct (faulted_not_quiet _ Hf H).
    + intros e [= ->]. now apply (Hx e).
  - split; [|discriminate]. intros Hf. destruct H as [_ H].
    destruct (faulted_not_quiet _ Hf H).
Qed.

Lemma emulation_failure_returns_none_witness :
  (resolve (stride_cpu 16) 1 0x401000 (unreadable_controller "x64" 8)
     (Some 0x401005)).1 = Return None /\
  (resolve faulting_cpu 8 0x401000 (demo_controller "ia32" 4 ∅) None).1 =
    Return None.
Proof.
  split.
  - apply (proj1 (emulation_failure_returns_none (stride_cpu 16) 0 0x401000
                    (unreadable_controller "x64" 8) (Some 0x401005))).
    + right. reflexivity.
    + right. reflexivity.
    + intros a n. reflexivity.
  - apply (proj1 (proj2 (emulation_failure_returns_none faulting_cpu 8 0x401000
                           (demo_controller "ia32" 4 ∅) None))).
    apply faulted_decide. vm_compute. reflexivity.
Defined.

(** ** C9 — determinism *)

Lemma meq_refl {A} (m : M A) : meq m m.
Proof. intros w. reflexivity. Qed.

Lemma meq_bind {A B} (m1 m2 : M A) (k1 k2 : A -> M B) :
  meq m1 m2 -> (forall a, meq (k1 a) (k2 a)) -> meq (bind m1 k1) (bind m2 k2).
Proof.
  intros Hm Hk w. unfold bind. rewrite Hm.
  destruct (m2 w) as [[a|e|] w']; [apply Hk | reflexivity | reflexivity].
Qed.

Lemma meq_try_except {A} (b1 b2 : M A) h1 h2 :
  meq b1 b2 -> (forall e, meq (h1 e) (h2 e)) ->
  meq (try_except b1 h1) (try_except b2 h2).
Proof.
  intros Hb Hh w. unfold try_except. rewrite Hb.
  destruct (b2 w) as [[a|e|] w']; [reflexivity | apply Hh | reflexivity].
Qed.

Lemma meq_try_except_UcError {A} (b1 b2 : M A) h1 h2 :
  meq b1 b2 -> (forall e, meq (h1 e) (h2 e)) ->
  meq (try_except_UcError b1 h1) (try_except_UcError b2 h2).
Proof.
  intros Hb Hh w. unfold try_except_UcError. rewrite Hb.
  destruct (b2 w) as [[a|[e| | | |]|] w']; try reflexivity. apply Hh.
Qed.

Lemma meq_bind_ret {A B} (a : A) (k1 k2 : A -> M B) :
  meq (k1 a) (k2 a) -> meq (bind (ret a) k1) (bind (ret a) k2).
Proof. intros H w. exact (H w). Qed.

(** One syntax-directed step of an equivalence proof. *)
Ltac meq_step :=
  match goal with
  | |- meq ?m ?m => apply meq_refl
  | |- meq (bind _ _) (bind _ _) => apply meq_bind; [| intros ?]
  | |- meq (try_except _ _) (try_except _ _) =>
      apply meq_try_except; [| intros ?]
  | |- meq (try_except_UcError _ _) (try_except_UcError _ _) =>
      apply meq_try_except_UcError; [| intros ?]
  | |- meq (match ?x with _ => _ end) (match ?x with _ => _ end) => destruct x
  end.

Section Determinism.
Variables p1 p2 : ProcessController.
Hypothesis same : same_answers p1 p2.

Lemma meq_pc_architecture : meq (pc_architecture p1) (pc_architecture p2).
Proof. destruct same as (H & _). unfold pc_architecture. now rewrite H. Qed.

Lemma meq_pc_page_size : meq (pc_page_size p1) (pc_page_size p2).
Proof. destruct same as (_ & H & _). unfold pc_page_size. now rewrite H. Qed.

Lemma meq_pc_pointer_size : meq (pc_pointer_size p1) (pc_pointer_size p2).
Proof. destruct same as (_ & _ & H & _). unfold pc_pointer_size. now rewrite H. Qed.

Lemma meq_pc_read_process_memory a n :
  meq (pc_read_process_memory p1 a n) (pc_read_process_memory p2 a n).
Proof.
  destruct same as (_ & _ & _ & H & _). unfold pc_read_process_memory.
  now rewrite H.
Qed.

Lemma meq_pc_enumerate_exported_functions :
  meq (pc_enumerate_exported_functions p1) (pc_enumerate_exported_functions p2).
Proof.
  destruct same as (_ & _ & _ & _ & H). unfold pc_enumerate_exported_functions.
  now rewrite H.
Qed.

(** The same, with the process-control calls of the two controllers. *)
Ltac meq_prog_step :=
  first
    [ apply meq_pc_architecture | apply meq_pc_page_size
    | apply meq_pc_pointer_size | apply meq_pc_read_process_memory
    | apply meq_pc_enumerate_exported_functions
    | meq_step ].

Ltac meq_prog := repeat meq_prog_step.

Lemma meq_setup_teb_x86 : meq (_setup_teb_x86 p1) (_setup_teb_x86 p2).
Proof. unfold _setup_teb_x86. meq_prog. Qed.

Lemma meq_setup_teb_x64 : meq (_setup_teb_x64 p1) (_setup_teb_x64 p2).
Proof. unfold _setup_teb_x64. meq_prog. Qed.

Lemma meq_hook_unmapped a :
  meq (_unicorn_hook_unmapped a p1) (_unicorn_hook_unmapped a p2).
Proof. unfold _unicorn_hook_unmapped. meq_prog. Qed.

Lemma meq_hook_block a s stop :
  meq (_unicorn_hook_block a s (p1, stop)) (_unicorn_hook_block a s (p2, stop)).
Proof. unfold _unicorn_hook_block. meq_prog. Qed.

Lemma meq_dispatch_unmapped hs a :
  meq (dispatch_unmapped hs p1 a) (dispatch_unmapped hs p2 a).
Proof.
  induction hs as [|[[] []] hs IH]; cbn [dispatch_unmapped]; auto using meq_refl.
  apply meq_bind; [apply meq_refl | intros _].
  apply meq_bind; [apply meq_hook_unmapped | intros [|]];
    [apply meq_refl | exact IH].
Qed.

Lemma meq_dispatch_block hs a s :
  meq (dispatch_block hs p1 a s) (dispatch_block hs p2 a s).
Proof.
  induction hs as [|[[] []] hs IH]; cbn [dispatch_block]; auto using meq_refl.
  apply meq_bind; [apply meq_refl | intros _].
  apply meq_bind; [apply meq_hook_block | intros _; exact IH].
Qed.

Lemma meq_emu_loop cpu fuel until entered :
  meq (emu_loop cpu fuel p1 until entered) (emu_loop cpu fuel p2 until entered).
Proof.
  revert entered. induction fuel as [|fuel IH]; intros entered; cbn [emu_loop].
  - apply meq_refl.
  - repeat first [ apply IH | apply meq_dispatch_unmapped
                 | apply meq_dispatch_block | meq_step ].
Qed.

Lemma meq_uc_emu_start cpu fuel b u :
  meq (uc_emu_start cpu fuel p1 b u) (uc_emu_start cpu fuel p2 b u).
Proof. unfold uc_emu_start. repeat first [apply meq_emu_loop | meq_step]. Qed.

Lemma meq_resolve_wrapped_api cpu fuel ws exp :
  meq (resolve_wrapped_api cpu fuel ws p1 exp)
      (resolve_wrapped_api cpu fuel ws p2 exp).
Proof.
  unfold resolve_wrapped_api, resolve_wrapped_api_under.
  change (uc_open None) with uc_new.
  apply meq_bind; [apply meq_pc_architecture | intros arch].
  destruct (decide (arch = "ia32"%string));
    [|destruct (decide (arch = "x64"%string))].
  3: apply meq_refl.
  all: apply meq_bind_ret; cbv beta iota.
  all: repeat first [ apply meq_setup_teb_x86 | apply meq_setup_teb_x64
                    | apply meq_uc_emu_start | meq_prog_step ].
Qed.
End Determinism.

(** *** No call looks at what happened before it *)

Lemma shift_shift t1 t2 w : shift t1 (shift t2 w) = shift (t1 ++ t2) w.
Proof. unfold shift. cbn. now rewrite app_assoc. Qed.

Lemma appends_ret {A} (a : A) : appends (ret a).
Proof. intros t w. reflexivity. Qed.

Lemma appends_raise {A} e : appends (@raise A e).
Proof. intros t w. reflexivity. Qed.

Lemma appends_diverge {A} : appends (@diverge A).
Proof. intros t w. reflexivity. Qed.

Lemma appends_log e : appends (log e).
Proof. intros t w. unfold log, shift. cbn. now rewrite app_assoc. Qed.

Lemma appends_with_uc {A} (f : Uc -> result A * Uc) : appends (with_uc f).
Proof.
  intros t [[u|] tr]; unfold with_uc, shift; cbn; [|reflexivity].
  destruct (f u). reflexivity.
Qed.

Lemma appends_uc_new m : appends (uc_new m).
Proof. intros t w. unfold uc_new, bind, log, shift. cbn. now rewrite app_assoc. Qed.

Lemma appends_bind {A B} (m : M A) (k : A -> M B) :
  appends m -> (forall a, appends (k a)) -> appends (bind m k).
Proof.
  intros Hm Hk t w. unfold bind. rewrite Hm.
  destruct (m w) as [[a|e|] w']; cbn; [apply Hk | reflexivity | reflexivity].
Qed.

Lemma appends_try_except {A} (b : M A) h :
  appends b -> (forall e, appends (h e)) -> appends (try_except b h).
Proof.
  intros Hb Hh t w. unfold try_except. rewrite Hb.
  destruct (b w) as [[a|e|] w']; cbn; [reflexivity | apply Hh | reflexivity].
Qed.

Lemma appends_try_except_UcError {A} (b : M A) h :
  appends b -> (forall e, appends (h e)) -> appends (try_except_UcError b h).
Proof.
  intros Hb Hh t w. unfold try_except_UcError. rewrite Hb.
  destruct (b w) as [[a|[e| | | |]|] w']; cbn; try reflexivity. apply Hh.
Qed.

(** One syntax-directed step of a proof that a program only appends. *)
Ltac appends_step :=
  match goal with
  | |- appends (ret _) => apply appends_ret
  | |- appends (raise _) => apply appends_raise
  | |- appends diverge => apply appends_diverge
  | |- appends (log _) => apply appends_log
  | |- appends (with_uc _) => apply appends_with_uc
  | |- appends (uc_new _) => apply appends_uc_new
  | |- appends (bind _ _) => apply appends_bind; [| intros ?]
  | |- appends (try_except _ _) => apply appends_try_except; [| intros ?]
  | |- appends (try_except_UcError _ _) =>
      apply appends_try_except_UcError; [| intros ?]
  | |- appends (match ?x with _ => _ end) => destruct x
  end.

Ltac appends_prog :=
  unfold pc_architecture, pc_page_size, pc_pointer_size,
    pc_read_process_memory, pc_enumerate_exported_functions,
    pointer_size_to_fmt, struct_pack, struct_unpack, local,
    uc_mem_map, uc_mem_write, uc_mem_read, uc_reg_read, uc_reg_write,
    uc_reg_write_msr, uc_hook_add, uc_emu_stop, get_uc, put_uc, fault;
  repeat appends_step.

Lemma appends_setup_teb_x86 p : appends (_setup_teb_x86 p).
Proof. unfold _setup_teb_x86. appends_prog. Qed.

Lemma appends_setup_teb_x64 p : appends (_setup_teb_x64 p).
Proof. unfold _setup_teb_x64. appends_prog. Qed.

Lemma appends_hook_unmapped a p : appends (_unicorn_hook_unmapped a p).
Proof. unfold _unicorn_hook_unmapped. appends_prog. Qed.

Lemma appends_hook_block a s d : appends (_unicorn_hook_block a s d).
Proof. unfold _unicorn_hook_block. appends_prog. Qed.

Lemma appends_dispatch_unmapped hs p a : appends (dispatch_unmapped hs p a).
Proof.
  induction hs as [|[[] []] hs IH]; cbn [dispatch_unmapped];
    try exact IH; [apply appends_ret|].
  apply appends_bind; [apply appends_log | intros _].
  apply appends_bind; [apply appends_hook_unmapped | intros [|]];
    [apply appends_ret | exact IH].
Qed.

Lemma appends_dispatch_block hs p a s : appends (dispatch_block hs p a s).
Proof.
  induction hs as [|[[] []] hs IH]; cbn [dispatch_block];
    try exact IH; [apply appends_ret|].
  apply appends_bind; [apply appends_log | intros _].
  apply appends_bind; [apply appends_hook_block | intros _; exact IH].
Qed.

Lemma appends_emu_loop cpu fuel p until entered :
  appends (emu_loop cpu fuel p until entered).
Proof.
  revert entered. induction fuel as [|fuel IH]; intros entered; cbn [emu_loop].
  - apply appends_diverge.
  - unfold get_uc, put_uc, fault.
    repeat first [ apply IH | apply appends_dispatch_unmapped
                 | apply appends_dispatch_block | appends_step ].
Qed.

Lemma appends_uc_emu_start cpu fuel p b u : appends (uc_emu_start cpu fuel p b u).
Proof.
  unfold uc_emu_start, get_uc, put_uc.
  repeat first [apply appends_emu_loop | appends_step].
Qed.

Lemma appends_bind_ret {A B} (a : A) (k : A -> M B) :
  appends (k a) -> appends (bind (ret a) k).
Proof. intros H t w. exact (H t w). Qed.

Lemma appends_bind_raise {A B} e (k : A -> M B) : appends (bind (raise e) k).
Proof. intros t w. reflexivity. Qed.

Lemma appends_resolve_wrapped_api cpu fuel ws p exp :
  appends (resolve_wrapped_api cpu fuel ws p exp).
Proof.
  unfold resolve_wrapped_api, resolve_wrapped_api_under.
  change (uc_open None) with uc_new.
  apply appends_bind; [unfold pc_architecture; appends_prog | intros arch].
  destruct (decide (arch = "ia32"%string));
    [|destruct (decide (arch = "x64"%string))].
  3: apply appends_bind_raise.
  all: apply appends_bind_ret; cbv beta iota.
  all: repeat first [ apply appends_setup_teb_x86 | apply appends_setup_teb_x64
                    | apply appends_uc_emu_start | progress appends_prog ].
Qed.

(** A call does not read the variable [uc] before assigning it: its result
    and what it logs do not depend on the emulator that an earlier call left
    behind. *)
Lemma resolve_wrapped_api_forgets_uc cpu fuel ws p exp :
  exists r t, forall o,
    (resolve_wrapped_api cpu fuel ws p exp {| uc := o; trace := [] |}).1 = r /\
    trace (resolve_wrapped_api cpu fuel ws p exp {| uc := o; trace := [] |}).2 = t.
Proof.
  unfold resolve_wrapped_api, resolve_wrapped_api_under.
  change (uc_open None) with uc_new.
  destruct (decide (architecture p = "ia32"%string)) as [Ha|Ha];
    [|destruct (decide (architecture p = "x64"%string)) as [Hb|Hb]].
  all: do 2 eexists; intros o; exec_step.
  all: repeat (case_decide; try contradiction).
  3:{ cbn. split; reflexivity. }
  all: exec_step; cbv beta iota; unfold try_except_UcError.
  all: erewrite bind_Return by reflexivity.
  all: cbn [uc trace app]; split; reflexivity.
Qed.

Lemma resolve_wrapped_api_fresh_uc cpu fuel ws p exp o :
  (resolve_wrapped_api cpu fuel ws p exp {| uc := o; trace := [] |}).1
    = (resolve cpu fuel ws p exp).1 /\
  trace (resolve_wrapped_api cpu fuel ws p exp {| uc := o; trace := [] |}).2
    = trace (resolve cpu fuel ws p exp).2.
Proof.
  destruct (resolve_wrapped_api_forgets_uc cpu fuel ws p exp) as (r & t & H).
  unfold resolve, initial_world.
  destruct (H o) as [-> ->]. destruct (H None) as [-> ->]. split; reflexivity.
Qed.



(** ** The model on concrete wrappers *)

(** A wrapper that transfers to an export with the sentinel still on top of
    the stack resolves to that export. *)
Example resolves_direct_transfer :
  (resolve (stride_cpu 512) 8 0x401000
     (demo_controller "ia32" 4 {[ 0x401200 := {| name := "CreateFileW" |} ]})
     None).1 = Return (Some 0x401200).
Proof. vm_compute. reflexivity. Qed.

(** A wrapper that calls a non-returning export resolves to it although the
    return address on the stack is not a stop address. *)
Example resolves_noreturn_call :
  (resolve (pushing_cpu 4 512) 8 0x401000
     (demo_controller "ia32" 4 {[ 0x401200 := {| name := "ExitProcess" |} ]})
     None).1 = Return (Some 0x401200).
Proof. vm_compute. reflexivity. Qed.

(** An export reached through an intermediate call does not stop the run. *)
Example continues_past_intermediate_call :
  (resolve (pushing_cpu 4 512) 8 0x401000
     (demo_controller "ia32" 4 {[ 0x401200 := {| name := "CreateFileW" |} ]})
     None).1 = Return (Some 0x401400).
Proof. vm_compute. reflexivity. Qed.

(** A wrapper that never leaves its loop does not return in any number of
    steps tried here. *)
Example loops_without_end :
  (resolve (stride_cpu 0) 64 0x401000 (demo_controller "x64" 8 ∅) None).1 = Diverge.
Proof. vm_compute. reflexivity. Qed.

(** ** The memory bridge: which page it reads and what it leaves behind *)

Lemma aligned_addr_mod p address k :
  0 <= k -> page_size p = 2 ^ k ->
  aligned_addr_of p address = page_size p * (address / page_size p).
Proof.
  intros Hk Hp. unfold aligned_addr_of. rewrite Hp.
  replace (2 ^ k - 1) with (Z.ones k) by (rewrite Z.ones_equiv; lia).
  rewrite Z.land_ones by exact Hk.
  pose proof (Z.div_mod address (2 ^ k)) as H.
  assert (0 < 2 ^ k) by (apply Z.pow_pos_nonneg; lia). lia.
Qed.

(** X1: for a page size that is a power of two and a nonzero faulting address,
    the memory bridge asks the process-control service for exactly one page,
    the one that contains the faulting address: the read starts at a multiple
    of the page size, not above the address and less than a page below it. *)
Theorem bridge_reads_containing_page p w address k :
  0 <= k -> page_size p = 2 ^ k -> address <> 0 ->
  exists aligned rest,
    trace (_unicorn_hook_unmapped address p w).2 =
      trace w ++ EPc PcPageSize
              :: EPc (PcReadProcessMemory aligned (page_size p)) :: rest /\
    aligned mod page_size p = 0 /\
    aligned <= address < aligned + page_size p.
Proof.
  intros Hk Hp Ha. exists (aligned_addr_of p address).
  assert (Hal : aligned_addr_of p address mod page_size p = 0 /\
                aligned_addr_of p address <= address
                  < aligned_addr_of p address + page_size p).
  { rewrite (aligned_addr_mod p address k Hk Hp).
    assert (Hpos : 0 < page_size p) by (rewrite Hp; apply Z.pow_pos_nonneg; lia).
    split.
    - rewrite Z.mul_comm. apply Z.mod_mul. lia.
    - pose proof (Z.div_mod address (page_size p)) as H.
      pose proof (Z.mod_pos_bound address (page_size p) Hpos). lia. }
  cut (exists rest,
    trace (_unicorn_hook_unmapped address p w).2 =
      trace w ++ EPc PcPageSize
        :: EPc (PcReadProcessMemory (aligned_addr_of p address) (page_size p))
        :: rest).
  { intros [rest Hr]. exists rest. split; [exact Hr | exact Hal]. }
  clear Hal. unfold _unicorn_hook_unmapped, aligned_addr_of.
  apply Z.eqb_neq in Ha. rewrite Ha. exec_step.
  set (al := address - Z.land address (page_size p - 1)).
  destruct w as [[u|] t].
  all: unfold try_except, pc_read_process_memory, uc_mem_map, uc_mem_write,
    bind, log, with_uc, ret, raise; cbn [uc trace fst snd].
  all: destruct (read_process_memory p al (page_size p)) as [data|];
    cbn [uc trace fst snd].
  all: try destruct (mem_map al (Z.of_nat (length data)) UC_PROT_ALL u) as [e|u1];
    cbn [uc trace fst snd].
  all: try destruct (mem_write al data u1) as [e|u2]; cbn [uc trace fst snd].
  all: rewrite <- ?app_assoc; cbn [app]; eexists; reflexivity.
Qed.

Lemma bridge_reads_containing_page_witness :
  exists aligned rest,
    trace (_unicorn_hook_unmapped 0x401234 (demo_controller "ia32" 4 ∅)
             demo_stack_world).2 =
      trace demo_stack_world ++ EPc PcPageSize
        :: EPc (PcReadProcessMemory aligned
                  (page_size (demo_controller "ia32" 4 ∅))) :: rest /\
    aligned mod page_size (demo_controller "ia32" 4 ∅) = 0 /\
    aligned <= 0x401234 < aligned + page_size (demo_controller "ia32" 4 ∅).
Proof.
  apply (bridge_reads_containing_page (demo_controller "ia32" 4 ∅)
           demo_stack_world 0x401234 12).
  - lia.
  - reflexivity.
  - lia.
Defined.

(** X2: the memory bridge never raises and never fails to return: whatever
    the process read or the engine does, every exception of the [try] body
    is turned into the answer [False]. *)
Theorem bridge_never_raises address p w :
  exists handled, (_unicorn_hook_unmapped address p w).1 = Return handled.
Proof.
  unfold _unicorn_hook_unmapped. destruct (address =? 0); [eexists; reflexivity|].
  exec_step. unfold try_except.
  match goal with |- context [?b ?w'] =>
    match b with bind _ _ => destruct (b w') as [[a|e|] w''] eqn:Hb end end.
  - eexists; reflexivity.
  - eexists; reflexivity.
  - exfalso. revert Hb.
    unfold pc_read_process_memory, uc_mem_map, uc_mem_write, bind, log, with_uc,
      ret, raise. cbn.
    repeat (case_match; cbn in *; simplify_eq); discriminate.
Qed.

Lemma write_bytes_lookup_before a data m i :
  i < a -> write_bytes a data m !! i = m !! i.
Proof.
  revert a m. induction data as [|b data IH]; intros a m Hi; cbn; [reflexivity|].
  rewrite IH by lia. apply lookup_insert_ne. lia.
Qed.

Lemma write_bytes_lookup_after a data m i :
  a + Z.of_nat (length data) <= i -> write_bytes a data m !! i = m !! i.
Proof.
  revert a m. induction data as [|b data IH]; intros a m Hi; cbn in *;
    [reflexivity|].
  rewrite IH by lia. apply lookup_insert_ne. lia.
Qed.

Lemma read_bytes_cons a n m :
  read_bytes a (S n) m = default x00 (m !! a) :: read_bytes (a + 1) n m.
Proof.
  unfold read_bytes. rewrite Nat2Z.inj_succ, seqZ_cons by lia. cbn.
  f_equal. f_equal. f_equal. lia.
Qed.

Lemma read_bytes_write_bytes a data m :
  read_bytes a (length data) (write_bytes a data m) = data.
Proof.
  revert a m. induction data as [|b data IH]; intros a m; [reflexivity|].
  cbn [length write_bytes]. rewrite read_bytes_cons, IH.
  rewrite write_bytes_lookup_before by lia. now rewrite lookup_insert_eq.
Qed.

Lemma read_bytes_ext a n m1 m2 :
  (forall i, a <= i < a + Z.of_nat n -> m1 !! i = m2 !! i) ->
  read_bytes a n m1 = read_bytes a n m2.
Proof.
  revert a. induction n as [|n IH]; intros a H; [reflexivity|].
  rewrite !read_bytes_cons. rewrite H by lia. f_equal. apply IH.
  intros i Hi. apply H. lia.
Qed.

Lemma mem_map_inr a s perms u u' :
  mem_map a s perms u = inr u' ->
  u' = set_regions u ({| r_begin := a; r_size := s; r_perms := perms |} :: regions u)
  /\ 0 < s /\ existsb (overlaps a s) (regions u) = false.
Proof.
  unfold mem_map.
  destruct (_ || _) eqn:Hc; [discriminate|].
  destruct (existsb _ _) eqn:Ho; [discriminate|]. intros [= <-].
  repeat (apply orb_false_iff in Hc; destruct Hc as [Hc ?]).
  apply Z.leb_gt in Hc. auto.
Qed.

Lemma hook_unmapped_equation p t u address :
  address <> 0 ->
  _unicorn_hook_unmapped address p {| uc := Some u; trace := t |} =
    let al := aligned_addr_of p address in
    let t1 := t ++ [EPc PcPageSize; EPc (PcReadProcessMemory al (page_size p))] in
    match read_process_memory p al (page_size p) with
    | None => (Return false, {| uc := Some u; trace := t1 |})
    | Some data =>
        let n := Z.of_nat (length data) in
        let t2 := t1 ++ [EUc (UcMemMap al n UC_PROT_ALL)] in
        match mem_map al n UC_PROT_ALL u with
        | inl _ => (Return false, {| uc := Some u; trace := t2 |})
        | inr u1 =>
            (Return true,
             {| uc := Some (set_memory u1 (write_bytes al data (memory u1)));
                trace := t2 ++ [EUc (UcMemWrite al data)] |})
        end
    end.
Proof.
  intros Ha. unfold _unicorn_hook_unmapped, aligned_addr_of.
  apply Z.eqb_neq in Ha. rewrite Ha. exec_step.
  set (al := address - Z.land address (page_size p - 1)).
  unfold try_except, pc_read_process_memory, uc_mem_map, uc_mem_write,
    bind, log, with_uc, ret, raise. cbn [uc trace].
  destruct (read_process_memory p al (page_size p)) as [data|]; cbn.
  2:{ now rewrite <- app_assoc. }
  destruct (mem_map al (Z.of_nat (length data)) UC_PROT_ALL u) as [e|u1] eqn:Hmap;
    cbn.
  { now rewrite <- !app_assoc. }
  destruct (mem_map_inr _ _ _ _ _ Hmap) as (-> & Hlen & _).
  erewrite mem_write_inside;
    [ | apply list_elem_of_here | cbn; lia | cbn; lia ].
  cbn. now rewrite <- !app_assoc.
Qed.

Lemma hook_unmapped_true p t u address w1 :
  _unicorn_hook_unmapped address p {| uc := Some u; trace := t |} = (Return true, w1) ->
  address <> 0 /\
  exists data,
    read_process_memory p (aligned_addr_of p address) (page_size p) = Some data /\
    0 < Z.of_nat (length data) /\
    uc w1 = Some (set_memory
                    (set_regions u ({| r_begin := aligned_addr_of p address;
                                       r_size := Z.of_nat (length data);
                                       r_perms := UC_PROT_ALL |} :: regions u))
                    (write_bytes (aligned_addr_of p address) data (memory u))).
Proof.
  destruct (Z.eq_dec address 0) as [-> | Ha]; [discriminate|].
  rewrite (hook_unmapped_equation p t u address Ha). cbv zeta.
  destruct (read_process_memory p _ _) as [data|]; [|discriminate].
  destruct (mem_map _ _ _ u) as [e|u1] eqn:Hmap; [discriminate|].
  destruct (mem_map_inr _ _ _ _ _ Hmap) as (-> & Hlen & _).
  intros [= <-]. split; [exact Ha|]. exists data. auto.
Qed.

Lemma hook_unmapped_false p t u address w1 :
  _unicorn_hook_unmapped address p {| uc := Some u; trace := t |} = (Return false, w1) ->
  uc w1 = Some u.
Proof.
  destruct (Z.eq_dec address 0) as [-> | Ha]; [now intros [= <-]|].
  rewrite (hook_unmapped_equation p t u address Ha). cbv zeta.
  destruct (read_process_memory p _ _) as [data|]; [|now intros [= <-]].
  destruct (mem_map _ _ _ u) as [e|u1] eqn:Hmap; [now intros [= <-]|].
  discriminate.
Qed.

(** X3: when the memory bridge answers [True], the faulting address was not
    null, the page of the real process was read, and the emulator has one
    more region, at the aligned address, as long as the data read, with all
    permissions, whose content is the data read; registers, hooks, the stop
    request and the memory outside the new region are unchanged. *)
Theorem bridge_copies_real_page p u t address :
  (_unicorn_hook_unmapped address p {| uc := Some u; trace := t |}).1
    = Return true ->
  address <> 0 /\
  exists data u',
    read_process_memory p (aligned_addr_of p address) (page_size p) = Some data /\
    data <> [] /\
    uc (_unicorn_hook_unmapped address p {| uc := Some u; trace := t |}).2
      = Some u' /\
    regions u' =
      {| r_begin := aligned_addr_of p address;
         r_size := Z.of_nat (length data);
         r_perms := UC_PROT_ALL |} :: regions u /\
    mem_read (aligned_addr_of p address) (Z.of_nat (length data)) u' = inr data /\
    regs u' = regs u /\ hooks u' = hooks u /\
    stop_request u' = stop_request u /\
    forall i,
      ~ (aligned_addr_of p address <= i
           < aligned_addr_of p address + Z.of_nat (length data)) ->
      memory u' !! i = memory u !! i.
Proof.
  destruct (_unicorn_hook_unmapped address p {| uc := Some u; trace := t |})
    as [r w'] eqn:Hcall.
  cbn [fst snd]. intros ->.
  destruct (hook_unmapped_true p t u address w' Hcall)
    as (Ha & data & Hr & Hlen & Hu').
  split; [exact Ha|]. eexists data, _. split; [exact Hr|].
  split; [intros ->; cbn in Hlen; lia|].
  split; [exact Hu'|]. cbn. split; [reflexivity|].
  split.
  - unfold mem_read. rewrite Nat2Z.id.
    erewrite range_mapped_inside;
      [ | apply list_elem_of_here | cbn; lia | cbn; lia ].
    cbn. now rewrite read_bytes_write_bytes.
  - repeat split. intros i Hi.
    destruct (Z_lt_dec i (aligned_addr_of p address)).
    + now apply write_bytes_lookup_before.
    + apply write_bytes_lookup_after. lia.
Qed.

Lemma bridge_copies_real_page_witness :
  0x401234 <> 0 /\
  exists data u',
    read_process_memory (demo_controller "ia32" 4 ∅)
      (aligned_addr_of (demo_controller "ia32" 4 ∅) 0x401234)
      (page_size (demo_controller "ia32" 4 ∅)) = Some data /\
    data <> [] /\
    uc (_unicorn_hook_unmapped 0x401234 (demo_controller "ia32" 4 ∅)
          {| uc := Some (fresh_uc UC_MODE_32); trace := [] |}).2 = Some u' /\
    regions u' =
      {| r_begin := aligned_addr_of (demo_controller "ia32" 4 ∅) 0x401234;
         r_size := Z.of_nat (length data);
         r_perms := UC_PROT_ALL |} :: regions (fresh_uc UC_MODE_32) /\
    mem_read (aligned_addr_of (demo_controller "ia32" 4 ∅) 0x401234)
      (Z.of_nat (length data)) u' = inr data /\
    regs u' = regs (fresh_uc UC_MODE_32) /\
    hooks u' = hooks (fresh_uc UC_MODE_32) /\
    stop_request u' = stop_request (fresh_uc UC_MODE_32) /\
    forall i,
      ~ (aligned_addr_of (demo_controller "ia32" 4 ∅) 0x401234 <= i
           < aligned_addr_of (demo_controller "ia32" 4 ∅) 0x401234
             + Z.of_nat (length data)) ->
      memory u' !! i = memory (fresh_uc UC_MODE_32) !! i.
Proof.
  apply (bridge_copies_real_page (demo_controller "ia32" 4 ∅)
           (fresh_uc UC_MODE_32) [] 0x401234).
  vm_compute. reflexivity.
Defined.

(** X4: when the memory bridge answers [False] (null address, failed read,
    or a mapping that the engine refuses), the emulator is left exactly as
    it was: nothing stays mapped or written. *)
Theorem bridge_failure_changes_nothing p u t address :
  (_unicorn_hook_unmapped address p {| uc := Some u; trace := t |}).1
    = Return false ->
  uc (_unicorn_hook_unmapped address p {| uc := Some u; trace := t |}).2 = Some u.
Proof.
  destruct (_unicorn_hook_unmapped address p {| uc := Some u; trace := t |})
    as [r w'] eqn:Hcall.
  cbn [fst snd]. intros ->. exact (hook_unmapped_false p t u address w' Hcall).
Qed.

Lemma bridge_failure_changes_nothing_witness :
  uc (_unicorn_hook_unmapped 0x401234 (unreadable_controller "ia32" 4)
        {| uc := Some (fresh_uc UC_MODE_32); trace := [] |}).2
    = Some (fresh_uc UC_MODE_32).
Proof.
  apply (bridge_failure_changes_nothing (unreadable_controller "ia32" 4)
           (fresh_uc UC_MODE_32) [] 0x401234).
  vm_compute. reflexivity.
Defined.

Lemma hook_unmapped_mapped_page p t u address r :
  r ∈ regions u -> in_region (aligned_addr_of p address) r = true ->
  exists t', _unicorn_hook_unmapped address p {| uc := Some u; trace := t |} =
               (Return false, {| uc := Some u; trace := t' |}).
Proof.
  intros Hr Hin.
  destruct (Z.eq_dec address 0) as [-> | Ha]; [eexists; reflexivity|].
  rewrite (hook_unmapped_equation p t u address Ha). cbv zeta.
  destruct (read_process_memory p _ _) as [data|]; [|eauto].
  destruct (mem_map _ _ _ u) as [e|u1] eqn:Hmap; [eauto|].
  exfalso. destruct (mem_map_inr _ _ _ _ _ Hmap) as (_ & Hlen & Hover).
  apply list_elem_of_In in Hr.
  assert (Ho : overlaps (aligned_addr_of p address) (Z.of_nat (length data)) r = true).
  { unfold in_region in Hin. apply andb_true_iff in Hin. destruct Hin as [H1 H2].
    apply Z.leb_le in H1. apply Z.ltb_lt in H2.
    unfold overlaps. apply andb_true_iff. split; [apply Z.ltb_lt|apply Z.ltb_lt]; lia. }
  assert (existsb (overlaps (aligned_addr_of p address) (Z.of_nat (length data)))
            (regions u) = true) by (apply existsb_exists; eauto).
  congruence.
Qed.

(** X5: a page is mapped at most once: after the memory bridge has mapped
    the page of an address, a later invocation for any address of the same
    page answers [False] and leaves the emulator unchanged (the engine
    refuses the second mapping and the handler swallows the error). *)
Theorem bridge_maps_a_page_once p u t address address' :
  (_unicorn_hook_unmapped address p {| uc := Some u; trace := t |}).1
    = Return true ->
  aligned_addr_of p address' = aligned_addr_of p address ->
  exists t',
    _unicorn_hook_unmapped address' p
      (_unicorn_hook_unmapped address p {| uc := Some u; trace := t |}).2 =
      (Return false,
       {| uc := uc (_unicorn_hook_unmapped address p
                      {| uc := Some u; trace := t |}).2;
          trace := t' |}).
Proof.
  destruct (_unicorn_hook_unmapped address p {| uc := Some u; trace := t |})
    as [r w1] eqn:Hcall.
  cbn [fst snd]. intros -> Hsame.
  destruct (hook_unmapped_true p t u address w1 Hcall)
    as (_ & data & _ & Hlen & Hu').
  destruct w1 as [o t1]. cbn [uc] in Hu' |- *. subst o.
  eapply hook_unmapped_mapped_page.
  - apply list_elem_of_here.
  - rewrite Hsame. unfold in_region. cbn.
    apply andb_true_iff. split; [apply Z.leb_le; lia|apply Z.ltb_lt; lia].
Qed.

Lemma bridge_maps_a_page_once_witness :
  exists t',
    _unicorn_hook_unmapped 0x401ffc (demo_controller "ia32" 4 ∅)
      (_unicorn_hook_unmapped 0x401234 (demo_controller "ia32" 4 ∅)
         {| uc := Some (fresh_uc UC_MODE_32); trace := [] |}).2 =
      (Return false,
       {| uc := uc (_unicorn_hook_unmapped 0x401234 (demo_controller "ia32" 4 ∅)
                      {| uc := Some (fresh_uc UC_MODE_32); trace := [] |}).2;
          trace := t' |}).
Proof.
  apply (bridge_maps_a_page_once (demo_controller "ia32" 4 ∅)
           (fresh_uc UC_MODE_32) [] 0x401234 0x401ffc).
  - vm_compute. reflexivity.
  - vm_compute. reflexivity.
Defined.

(** ** The termination oracle only ever requests a stop *)

(** X6: the block hook never changes the emulator except by requesting a
    stop, and it requests one only at an address of the export mapping:
    after any invocation the emulator is either untouched or differs by the
    stop request alone, the latter only at an export. *)
Theorem block_hook_only_requests_stop address size p stop u t :
  uc (_unicorn_hook_block address size (p, stop)
        {| uc := Some u; trace := t |}).2 = Some u \/
  (is_Some (enumerate_exported_functions p !! address) /\
   uc (_unicorn_hook_block address size (p, stop)
         {| uc := Some u; trace := t |}).2
     = Some (set_stop_request u true)).
Proof.
  unfold _unicorn_hook_block. do 3 exec_step.
  destruct (enumerate_exported_functions p !! address) as [export|];
    [|left; reflexivity].
  unfold local, uc_reg_read, uc_mem_read, pointer_size_to_fmt, struct_unpack,
    uc_emu_stop, log, with_uc, ret, raise, bind. cbn.
  repeat (case_match; simpl in *; simplify_eq); eauto.
Qed.

(** ** The thread and process environment blocks *)

Lemma bind_uc_mem_map {B} a s perms (k : unit -> M B) t u :
  bind (uc_mem_map a s perms) k {| uc := Some u; trace := t |} =
    match mem_map a s perms u with
    | inl e => (Raise (UcError e),
                {| uc := Some u; trace := t ++ [EUc (UcMemMap a s perms)] |})
    | inr u' => k tt {| uc := Some u'; trace := t ++ [EUc (UcMemMap a s perms)] |}
    end.
Proof.
  unfold bind, uc_mem_map, log, with_uc. cbn.
  destruct (mem_map a s perms u); reflexivity.
Qed.

Lemma bind_uc_mem_write {B} a data (k : unit -> M B) t u :
  bind (uc_mem_write a data) k {| uc := Some u; trace := t |} =
    match mem_write a data u with
    | inl e => (Raise (UcError e),
                {| uc := Some u; trace := t ++ [EUc (UcMemWrite a data)] |})
    | inr u' => k tt {| uc := Some u'; trace := t ++ [EUc (UcMemWrite a data)] |}
    end.
Proof.
  unfold bind, uc_mem_write, log, with_uc. cbn.
  destruct (mem_write a data u); reflexivity.
Qed.

Lemma mem_map_inr_size a s perms u u' :
  mem_map a s perms u = inr u' -> 4096 <= s.
Proof.
  unfold mem_map.
  destruct (_ || _) eqn:Hc; [discriminate|]. intros _.
  repeat (apply orb_false_iff in Hc; destruct Hc as [Hc ?]).
  apply Z.leb_gt in Hc.
  match goal with H : negb (s mod 4096 =? 0) = false |- _ =>
    apply negb_false_iff, Z.eqb_eq in H; pose proof (Z.div_mod s 4096); lia end.
Qed.

Lemma read_written a d1 b d2 m n :
  n = length d1 ->
  (b + Z.of_nat (length d2) <= a \/ a + Z.of_nat (length d1) <= b) ->
  read_bytes a n (write_bytes b d2 (write_bytes a d1 m)) = d1.
Proof.
  intros -> Hd.
  transitivity (read_bytes a (length d1) (write_bytes a d1 m));
    [|apply read_bytes_write_bytes].
  apply read_bytes_ext. intros i Hi.
  destruct Hd; [apply write_bytes_lookup_after | apply write_bytes_lookup_before]; lia.
Qed.

Lemma read_last_written a d m n :
  n = length d -> read_bytes a n (write_bytes a d m) = d.
Proof. intros ->. apply read_bytes_write_bytes. Qed.

(** X7: when [_setup_teb_x86] returns, the emulator has two more regions, the
    TEB page at 0xff100000 and the PEB page at 0xff200000, each one page
    of the real process long and readable and writable; the TEB holds its
    own address at offset 0x18 and the address of the PEB at offset 0x30,
    as little-endian 4-byte pointers; and the FS base register
    (0xC0000100) holds the address of the TEB. *)
Theorem setup_teb_x86_layout p u t :
  (_setup_teb_x86 p {| uc := Some u; trace := t |}).1 = Return tt ->
  exists u',
    uc (_setup_teb_x86 p {| uc := Some u; trace := t |}).2 = Some u' /\
    read_pointer FmtI (0xff100000 + 0x18) u' = Some 0xff100000 /\
    read_pointer FmtI (0xff100000 + 0x30) u' = Some 0xff200000 /\
    msr (regs u') !! 0xC0000100 = Some 0xff100000 /\
    regions u' =
      {| r_begin := 0xff200000; r_size := page_size p;
         r_perms := Z.lor UC_PROT_READ UC_PROT_WRITE |}
      :: {| r_begin := 0xff100000; r_size := page_size p;
            r_perms := Z.lor UC_PROT_READ UC_PROT_WRITE |}
      :: regions u.
Proof.
  unfold _setup_teb_x86. exec_step. rewrite bind_uc_mem_map.
  destruct (mem_map 4279238656 _ _ u) as [e|u1] eqn:Hm1; [discriminate|].
  pose proof (mem_map_inr_size _ _ _ _ _ Hm1) as Hps.
  destruct (mem_map_inr _ _ _ _ _ Hm1) as (-> & _ & _).
  exec_step. rewrite bind_uc_mem_map.
  destruct (mem_map 4280287232 _ _ _) as [e|u2] eqn:Hm2; [discriminate|].
  destruct (mem_map_inr _ _ _ _ _ Hm2) as (-> & _ & _).
  do 2 exec_step. rewrite bind_uc_mem_write.
  erewrite mem_write_inside;
    [ | apply list_elem_of_further, list_elem_of_here | cbn; lia | cbn; lia ].
  do 2 exec_step. rewrite bind_uc_mem_write.
  erewrite mem_write_inside;
    [ | apply list_elem_of_further, list_elem_of_here | cbn; lia | cbn; lia ].
  intros _.
  unfold uc_reg_write_msr, bind, log, with_uc. cbn [uc trace fst snd].
  eexists. split; [reflexivity|].
  unfold read_pointer, mem_read.
  erewrite !range_mapped_inside;
    [ | apply list_elem_of_further, list_elem_of_here | cbn; lia | cbn; lia
      | apply list_elem_of_further, list_elem_of_here | cbn; lia | cbn; lia ].
  cbn [memory set_memory set_regions reg_write_msr set_regs regs msr regions].
  split; [|split; [|split; [apply lookup_insert_eq | reflexivity]]].
  - erewrite (read_written (4279238656 + 24)); [reflexivity | reflexivity | cbn; lia].
  - erewrite read_last_written; reflexivity.
Qed.

Lemma setup_teb_x86_layout_witness :
  exists u',
    uc (_setup_teb_x86 (demo_controller "ia32" 4 ∅)
          {| uc := Some (fresh_uc UC_MODE_32); trace := [] |}).2 = Some u' /\
    read_pointer FmtI (0xff100000 + 0x18) u' = Some 0xff100000 /\
    read_pointer FmtI (0xff100000 + 0x30) u' = Some 0xff200000 /\
    msr (regs u') !! 0xC0000100 = Some 0xff100000 /\
    regions u' =
      {| r_begin := 0xff200000;
         r_size := page_size (demo_controller "ia32" 4 ∅);
         r_perms := Z.lor UC_PROT_READ UC_PROT_WRITE |}
      :: {| r_begin := 0xff100000;
            r_size := page_size (demo_controller "ia32" 4 ∅);
            r_perms := Z.lor UC_PROT_READ UC_PROT_WRITE |}
      :: regions (fresh_uc UC_MODE_32).
Proof.
  apply (setup_teb_x86_layout (demo_controller "ia32" 4 ∅)
           (fresh_uc UC_MODE_32) []).
  vm_compute. reflexivity.
Defined.

(** X8: when [_setup_teb_x64] returns, the emulator has two more regions, the
    TEB page at 0xff10000000000000 and the PEB page at 0xff20000000000000, each one page
    of the real process long and readable and writable; the TEB holds its
    own address at offset 0x30 and the address of the PEB at offset 0x60,
    as little-endian 8-byte pointers; and the GS base register
    (0xC0000101) holds the address of the TEB. *)
Theorem setup_teb_x64_layout p u t :
  (_setup_teb_x64 p {| uc := Some u; trace := t |}).1 = Return tt ->
  exists u',
    uc (_setup_teb_x64 p {| uc := Some u; trace := t |}).2 = Some u' /\
    read_pointer FmtQ (0xff10000000000000 + 0x30) u' = Some 0xff10000000000000 /\
    read_pointer FmtQ (0xff10000000000000 + 0x60) u' = Some 0xff20000000000000 /\
    msr (regs u') !! 0xC0000101 = Some 0xff10000000000000 /\
    regions u' =
      {| r_begin := 0xff20000000000000; r_size := page_size p;
         r_perms := Z.lor UC_PROT_READ UC_PROT_WRITE |}
      :: {| r_begin := 0xff10000000000000; r_size := page_size p;
            r_perms := Z.lor UC_PROT_READ UC_PROT_WRITE |}
      :: regions u.
Proof.
  unfold _setup_teb_x64. exec_step. rewrite bind_uc_mem_map.
  destruct (mem_map 18379190079298994176 _ _ u) as [e|u1] eqn:Hm1; [discriminate|].
  pose proof (mem_map_inr_size _ _ _ _ _ Hm1) as Hps.
  destruct (mem_map_inr _ _ _ _ _ Hm1) as (-> & _ & _).
  exec_step. rewrite bind_uc_mem_map.
  destruct (mem_map 18383693678926364672 _ _ _) as [e|u2] eqn:Hm2; [discriminate|].
  destruct (mem_map_inr _ _ _ _ _ Hm2) as (-> & _ & _).
  do 2 exec_step. rewrite bind_uc_mem_write.
  erewrite mem_write_inside;
    [ | apply list_elem_of_further, list_elem_of_here | cbn; lia | cbn; lia ].
  do 2 exec_step. rewrite bind_uc_mem_write.
  erewrite mem_write_inside;
    [ | apply list_elem_of_further, list_elem_of_here | cbn; lia | cbn; lia ].
  intros _.
  unfold uc_reg_write_msr, bind, log, with_uc. cbn [uc trace fst snd].
  eexists. split; [reflexivity|].
  unfold read_pointer, mem_read.
  erewrite !range_mapped_inside;
    [ | apply list_elem_of_further, list_elem_of_here | cbn; lia | cbn; lia
      | apply list_elem_of_further, list_elem_of_here | cbn; lia | cbn; lia ].
  cbn [memory set_memory set_regions reg_write_msr set_regs regs msr regions].
  split; [|split; [|split; [apply lookup_insert_eq | reflexivity]]].
  - erewrite (read_written (18379190079298994176 + 48)); [reflexivity | reflexivity | cbn; lia].
  - erewrite read_last_written; reflexivity.
Qed.

Lemma setup_teb_x64_layout_witness :
  exists u',
    uc (_setup_teb_x64 (demo_controller "x64" 8 ∅)
          {| uc := Some (fresh_uc UC_MODE_64); trace := [] |}).2 = Some u' /\
    read_pointer FmtQ (0xff10000000000000 + 0x30) u' = Some 0xff10000000000000 /\
    read_pointer FmtQ (0xff10000000000000 + 0x60) u' = Some 0xff20000000000000 /\
    msr (regs u') !! 0xC0000101 = Some 0xff10000000000000 /\
    regions u' =
      {| r_begin := 0xff20000000000000;
         r_size := page_size (demo_controller "x64" 8 ∅);
         r_perms := Z.lor UC_PROT_READ UC_PROT_WRITE |}
      :: {| r_begin := 0xff10000000000000;
            r_size := page_size (demo_controller "x64" 8 ∅);
            r_perms := Z.lor UC_PROT_READ UC_PROT_WRITE |}
      :: regions (fresh_uc UC_MODE_64).
Proof.
  apply (setup_teb_x64_layout (demo_controller "x64" 8 ∅)
           (fresh_uc UC_MODE_64) []).
  vm_compute. reflexivity.
Defined.

(** ** What a resolution can answer *)

Lemma uc_inv_has_uc K w : uc_inv K w -> has_uc w.
Proof. intros (u & Hu & _). now exists u. Qed.

Lemma call_keeps {A} (K : Uc -> Prop) p ev (f : Uc -> result A * Uc) :
  (forall u, K u ->
     match f u with
     | (Return _, u') => K u'
     | (Raise e, u') => exists x, e = UcError x
     | (Diverge, _) => False
     end) ->
  hoare (uc_inv K) (log ev ;;; with_uc f)
    (post (fun _ => uc_inv K) (escaped p) anything).
Proof.
  intros Hf [[u|] t] (u' & Hu & HI); [|discriminate Hu]. injection Hu as <-.
  specialize (Hf u HI). cbn. destruct (f u) as [[a|e|] u']; cbn.
  - exists u'. auto.
  - split; [eexists; reflexivity | left; exact Hf].
  - destruct Hf.
Qed.

Lemma log_ret_keeps {A} (K : Uc -> Prop) p ev (a : A) :
  hoare (uc_inv K) (log ev ;;; ret a)
    (post (fun r w => uc_inv K w /\ r = a) (escaped p) anything).
Proof.
  intros [[u|] t] (u' & Hu & HI); [|discriminate Hu]. cbn.
  split; [exists u'; auto | reflexivity].
Qed.

Section Keeps.
Variable p : ProcessController.
Variable K : Uc -> Prop.
Hypothesis I_regions : forall u rs, K u -> K (set_regions u rs).
Hypothesis I_memory : forall u m, K u -> K (set_memory u m).
Hypothesis I_hooks : forall u h, K u -> K (set_hooks u h).
Hypothesis I_msr : forall u i v, K u -> K (reg_write_msr i v u).

Lemma keeps_pc_page_size :
  hoare (uc_inv K) (pc_page_size p)
    (post (fun _ => uc_inv K) (escaped p) anything).
Proof.
  eapply hoare_conseq; [apply (log_ret_keeps K p) | auto |].
  intros [a|e|] w; cbn; tauto.
Qed.

Lemma keeps_uc_mem_map a s perms :
  hoare (uc_inv K) (uc_mem_map a s perms)
    (post (fun _ => uc_inv K) (escaped p) anything).
Proof.
  apply call_keeps. intros u Hu.
  destruct (mem_map a s perms u) as [e|u'] eqn:Hm; [eauto|].
  destruct (mem_map_inr _ _ _ _ _ Hm) as (-> & _). now apply I_regions.
Qed.

Lemma keeps_uc_mem_write a d :
  hoare (uc_inv K) (uc_mem_write a d)
    (post (fun _ => uc_inv K) (escaped p) anything).
Proof.
  apply call_keeps. intros u Hu. unfold mem_write.
  destruct (range_mapped u a (length d)); [now apply I_memory | eauto].
Qed.

Lemma keeps_uc_reg_write_msr i v :
  hoare (uc_inv K) (uc_reg_write_msr i v)
    (post (fun _ => uc_inv K) (escaped p) anything).
Proof. apply call_keeps. intros u Hu. now apply I_msr. Qed.

Lemma keeps_uc_hook_add h cb :
  hoare (uc_inv K) (uc_hook_add h cb)
    (post (fun _ => uc_inv K) (escaped p) anything).
Proof. apply call_keeps. intros u Hu. now apply I_hooks. Qed.

Ltac keeps_call :=
  first [ apply keeps_pc_page_size | apply keeps_uc_mem_map
        | apply keeps_uc_mem_write | apply keeps_uc_reg_write_msr
        | apply keeps_uc_hook_add ].

Ltac keeps_steps :=
  repeat match goal with
         | |- hoare _ (bind _ _) _ =>
             first [ eapply hoare_bind_pure; [intros ?; reflexivity|]
                   | eapply triple_bind with (R := fun _ => uc_inv K);
                     [ keeps_call | intros ? ] ]
         end.

Lemma keeps_hook_unmapped a :
  hoare (uc_inv K) (_unicorn_hook_unmapped a p)
    (post (fun _ => uc_inv K) (escaped p) anything).
Proof.
  intros [[u|] t] (u' & Hu & HI); [|discriminate Hu]. injection Hu as <-.
  destruct (Z.eq_dec a 0) as [-> | Ha]; [cbn; exists u; auto|].
  rewrite (hook_unmapped_equation p t u a Ha). cbv zeta.
  destruct (read_process_memory p _ _) as [data|]; [|cbn; exists u; auto].
  destruct (mem_map _ _ _ u) as [e|u1] eqn:Hmap; [cbn; exists u; auto|].
  destruct (mem_map_inr _ _ _ _ _ Hmap) as (-> & _).
  cbn. eexists. split; [reflexivity|]. now apply I_memory, I_regions.
Qed.

Lemma keeps_dispatch_unmapped hs a :
  hoare (uc_inv K) (dispatch_unmapped hs p a)
    (post (fun _ => uc_inv K) (escaped p) anything).
Proof.
  induction hs as [|[[] []] hs IH]; cbn [dispatch_unmapped]; try exact IH.
  - intros w Hw. exact Hw.
  - eapply triple_bind with (R := fun _ => uc_inv K).
    { eapply hoare_conseq; [apply (log_ret_keeps K p) | auto |].
      intros [r|e|] w; cbn; tauto. }
    intros _. eapply triple_bind with (R := fun _ => uc_inv K);
      [apply keeps_hook_unmapped | intros [|]]; [|exact IH].
    intros w Hw. exact Hw.
Qed.

Lemma keeps_fault {A} e :
  hoare (uc_inv K) (@fault A e) (post (fun _ => uc_inv K) (escaped p) anything).
Proof.
  intros [[u|] t] (u' & Hu & HI); [|discriminate Hu]. cbn.
  split; [eexists; reflexivity | left; eauto].
Qed.

Lemma keeps_setup_teb_x86 :
  hoare (uc_inv K) (_setup_teb_x86 p)
    (post (fun _ => uc_inv K) (escaped p) anything).
Proof. unfold _setup_teb_x86. keeps_steps. apply keeps_uc_reg_write_msr. Qed.

Lemma keeps_setup_teb_x64 :
  hoare (uc_inv K) (_setup_teb_x64 p)
    (post (fun _ => uc_inv K) (escaped p) anything).
Proof. unfold _setup_teb_x64. keeps_steps. apply keeps_uc_reg_write_msr. Qed.
End Keeps.

Lemma mem_read_length a n u data :
  mem_read a n u = inr data -> length data = Z.to_nat n.
Proof.
  unfold mem_read. destruct (range_mapped _ _ _); [|discriminate].
  intros [= <-]. unfold read_bytes. rewrite length_fmap, length_seqZ. lia.
Qed.

Lemma pointer_fmt_length n f : pointer_fmt n = Some f -> Z.to_nat n = fmt_size f.
Proof.
  unfold pointer_fmt.
  destruct (n =? 4) eqn:H4; [apply Z.eqb_eq in H4; subst; now intros [= <-]|].
  destruct (n =? 8) eqn:H8; [apply Z.eqb_eq in H8; subst; now intros [= <-]|].
  discriminate.
Qed.

Lemma hook_block_outcome p address size stop w u :
  supported (architecture p) -> uc w = Some u ->
  match _unicorn_hook_block address size (p, stop) w with
  | (Return _, w') =>
      uc w' = Some u \/
      (is_Some (enumerate_exported_functions p !! address) /\
       uc w' = Some (set_stop_request u true))
  | (Raise e, w') =>
      uc w' = Some u /\
      ((exists x, e = UcError x) \/
       (e = NotImplementedError /\ pointer_fmt (pointer_size p) = None))
  | (Diverge, _) => False
  end.
Proof.
  intros Harch Hu. destruct w as [o t]. cbn [uc] in Hu. subst o.
  destruct (block_hook_registers_supported _ Harch) as (pcr & spr & Hreg & Hsp).
  unfold _unicorn_hook_block. do 3 exec_step. rewrite Hreg.
  destruct (enumerate_exported_functions p !! address) as [export|];
    [|left; reflexivity].
  do 2 exec_step. rewrite Hsp.
  unfold uc_mem_read, pointer_size_to_fmt, struct_unpack, uc_emu_stop,
    log, with_uc, ret, raise, bind. cbn [uc trace fst snd].
  destruct (mem_read (reg_sp (regs u)) (pointer_size p) u) as [e|data] eqn:Hread;
    cbn; [eauto|].
  destruct (pointer_fmt (pointer_size p)) as [f|] eqn:Hf; cbn; [|eauto].
  unfold unpack_bytes.
  rewrite (mem_read_length _ _ _ _ Hread), (pointer_fmt_length _ _ Hf),
    Nat.eqb_refl. cbn.
  destruct (_ || _); cbn; [eauto|].
  destruct (_is_no_return_api _); cbn; eauto.
Qed.

Lemma dispatch_block_outcome p hs a s :
  supported (architecture p) ->
  hoare (uc_inv (at_block p a)) (dispatch_block hs p a s)
    (post (fun _ => uc_inv (at_block p a)) (escaped p) anything).
Proof.
  intros Harch. induction hs as [|[[] []] hs IH]; cbn [dispatch_block];
    try exact IH.
  - intros w Hw. exact Hw.
  - eapply triple_bind with (R := fun _ => uc_inv (at_block p a)).
    { eapply hoare_conseq; [apply (log_ret_keeps (at_block p a) p) | auto |].
      intros [r|e|] w; cbn; tauto. }
    intros _. eapply triple_bind with (R := fun _ => uc_inv (at_block p a));
      [|intros _; exact IH].
    intros w (u & Hu & Hpc & Hstop).
    pose proof (hook_block_outcome p a s stop_on_ret_addr w u Harch Hu) as H.
    destruct (_unicorn_hook_block a s (p, stop_on_ret_addr) w) as [[r|e|] w'];
      cbn.
    + destruct H as [H|[Hexp H]].
      * exists u. repeat split; assumption.
      * eexists. split; [exact H|]. split; [exact Hpc|].
        intros _. cbn. now rewrite Hpc.
    + destruct H as [H He]. split; [now exists u | exact He].
    + exact Logic.I.
Qed.

Lemma uc_inv_weaken (K K' : Uc -> Prop) w :
  (forall u, K u -> K' u) -> uc_inv K w -> uc_inv K' w.
Proof. intros H (u & Hu & HK). exists u. auto. Qed.

Lemma stop_at_export_regions p u rs :
  stop_at_export p u -> stop_at_export p (set_regions u rs).
Proof. exact (fun H => H). Qed.
Lemma stop_at_export_memory p u m :
  stop_at_export p u -> stop_at_export p (set_memory u m).
Proof. exact (fun H => H). Qed.

Lemma in_last {A} (x : A) l : In x (l ++ [x]).
Proof. apply in_or_app. right. left. reflexivity. Qed.

Lemma answer_of_run_app p until v t d :
  answer_of_run p until v t -> answer_of_run p until v (t ++ d).
Proof.
  unfold answer_of_run. intros [[H K]|[[H K]|H]].
  - left. split; [apply in_or_app; left; exact H | exact K].
  - right. left. split; [apply in_or_app; left; exact H | exact K].
  - right. right. apply in_or_app. left. exact H.
Qed.

Lemma emu_loop_result cpu fuel p until entered :
  supported (architecture p) ->
  hoare (uc_inv (stop_at_export p)) (emu_loop cpu fuel p until entered)
    (post (fun _ => finished p until) (escaped p) anything).
Proof.
  intros Harch. revert entered.
  induction fuel as [|fuel IH]; intros entered; cbn [emu_loop].
  - intros w Hw. exact Logic.I.
  - eapply triple_bind with
      (R := fun u w => uc w = Some u /\ stop_at_export p u).
    { apply triple_get_uc.
      - apply uc_inv_has_uc.
      - intros u t (u' & Hu & H). cbn in Hu. injection Hu as <-. auto. }
    intros u.
    assert (Hdisp : forall a (k : bool -> M unit),
      (forall b, hoare (uc_inv (stop_at_export p)) (k b)
                   (post (fun _ => finished p until) (escaped p) anything)) ->
      hoare (fun w => uc w = Some u /\ stop_at_export p u)
        (bind (dispatch_unmapped (hooks u) p a) k)
        (post (fun _ => finished p until) (escaped p) anything)).
    { intros a k Hk.
      eapply triple_pre with (P' := uc_inv (stop_at_export p));
        [|intros w [Hu HS]; exists u; split; [exact Hu|exact HS]].
      eapply triple_bind with (R := fun _ => uc_inv (stop_at_export p));
        [|exact Hk].
      apply keeps_dispatch_unmapped;
        auto using stop_at_export_regions, stop_at_export_memory. }
    destruct (stop_request u) eqn:Hstop.
    { intros w [Hu HS]. cbn. exists u. split; [exact Hu|].
      left. split; [apply in_last | now apply HS]. }
    destruct entered.
    + destruct (execute cpu u) as [rs m|is_write a|e|rs m].
      * eapply triple_bind with (R := fun _ => uc_inv (stop_at_export p));
          [|intros _; apply IH].
        intros [o t] [Hu _]. cbn in Hu. subst o. cbn.
        eexists. split; [reflexivity|]. intros H. cbn in H. congruence.
      * apply Hdisp. intros [|]; [apply IH | apply keeps_fault].
      * eapply triple_pre with (P' := uc_inv (stop_at_export p));
          [apply (keeps_fault p (stop_at_export p))|].
        intros w [Hu HS]. now exists u.
      * intros [o t] [Hu _]. cbn in Hu. subst o. cbn.
        eexists. split; [reflexivity|]. right. right. apply in_last.
    + destruct (reg_pc (regs u) =? until) eqn:Hpc.
      { apply Z.eqb_eq in Hpc. intros w [Hu HS]. cbn.
        exists u. split; [exact Hu|].
        right. left. split; [apply in_last | exact Hpc]. }
      destruct (find_region u (reg_pc (regs u))) as [r|].
      * destruct (executable r).
        2:{ eapply triple_pre with (P' := uc_inv (stop_at_export p));
          [apply (keeps_fault p (stop_at_export p))|].
            intros w [Hu HS]. now exists u. }
        eapply triple_bind with (R := fun _ => uc_inv (stop_at_export p));
          [|intros _; apply IH].
        eapply hoare_try_except with
          (R := post (fun _ => uc_inv (at_block p (reg_pc (regs u))))
                  (escaped p) anything).
        -- eapply triple_pre with (P' := uc_inv (at_block p (reg_pc (regs u))));
             [now apply dispatch_block_outcome|].
           intros w [Hu HS]. exists u. repeat split; assumption.
        -- intros e [[u'|] t] [[x Hx] He]; [|discriminate Hx]. cbn.
           split; [eexists; reflexivity | exact He].
        -- intros a w (u' & Hu' & _ & HS). now exists u'.
        -- auto.
      * apply Hdisp. intros [|]; [apply IH | apply keeps_fault].
Qed.

Lemma not_stopped_at_export p u : not_stopped u -> stop_at_export p u.
Proof. unfold not_stopped, stop_at_export. congruence. Qed.

Lemma keeps_not_stopped_reg_write p r v :
  hoare (uc_inv not_stopped) (uc_reg_write r v)
    (post (fun _ => uc_inv not_stopped) (escaped p) anything).
Proof. apply call_keeps. intros u Hu. destruct r; exact Hu. Qed.

Ltac setting_call :=
  first [ apply keeps_pc_page_size | apply keeps_uc_mem_map
        | apply keeps_uc_mem_write | apply keeps_uc_reg_write_msr
        | apply keeps_uc_hook_add | apply keeps_not_stopped_reg_write
        | apply keeps_setup_teb_x86 | apply keeps_setup_teb_x64 ];
  try (intros; assumption).

Ltac setting_steps :=
  repeat match goal with
         | |- hoare _ (bind _ _) _ =>
             first [ eapply hoare_bind_pure; [intros ?; reflexivity|]
                   | eapply triple_bind with (R := fun _ => uc_inv not_stopped);
                     [ setting_call | intros ? ] ]
         end.

Lemma emu_start_result cpu fuel p b until :
  supported (architecture p) ->
  hoare (uc_inv not_stopped) (uc_emu_start cpu fuel p b until)
    (post (fun _ => finished p until) (escaped p) anything).
Proof.
  intros Harch. unfold uc_emu_start.
  eapply triple_bind with (R := fun _ => uc_inv not_stopped).
  { eapply hoare_conseq; [apply (log_ret_keeps not_stopped p) | auto |].
    intros [r|e|] w; cbn; tauto. }
  intros _. eapply triple_bind with (R := fun u w => has_uc w).
  { apply triple_get_uc; [apply uc_inv_has_uc|]. intros u t _. now exists u. }
  intros u. eapply triple_bind with (R := fun _ => uc_inv (stop_at_export p));
    [|intros _; now apply emu_loop_result].
  intros [[u'|] t] [x Hx]; [|discriminate Hx]. cbn.
  eexists. split; [reflexivity|]. apply not_stopped_at_export. reflexivity.
Qed.

Lemma read_pc_result p until pcr :
  pcr = UC_X86_REG_EIP \/ pcr = UC_X86_REG_RIP ->
  hoare (finished p until) (pc <- uc_reg_read pcr ;; ret (Some pc))
    (post (body_result p until) (escaped p) anything).
Proof.
  intros Hpcr [[u|] t] (u' & Hu & H); [|discriminate Hu]. cbn in Hu.
  injection Hu as <-. cbn.
  destruct Hpcr as [-> | ->]; apply answer_of_run_app; exact H.
Qed.

Lemma body_resolution cpu fuel ws p stop m pcr spr bpr stack_addr
    (setup_teb : ProcessController -> M unit) :
  supported (architecture p) ->
  pcr = UC_X86_REG_EIP \/ pcr = UC_X86_REG_RIP ->
  hoare (uc_inv not_stopped) (setup_teb p)
    (post (fun _ => uc_inv not_stopped) (escaped p) anything) ->
  hoare (fun _ => True)
    (uc_new m ;;;
     ps <- pc_page_size p ;;
     let stack_size := 3 * ps in
     ps <- pc_page_size p ;;
     let stack_start := stack_addr + stack_size - ps in
     uc_mem_map stack_addr stack_size (Z.lor UC_PROT_READ UC_PROT_WRITE) ;;;
     ptr_size <- pc_pointer_size p ;;
     f <- pointer_size_to_fmt ptr_size ;;
     data <- struct_pack f STACK_MAGIC_RET_ADDR ;;
     uc_mem_write stack_start data ;;;
     uc_reg_write spr stack_start ;;;
     uc_reg_write bpr stack_start ;;;
     setup_teb p ;;;
     uc_hook_add UC_HOOK_MEM_UNMAPPED CbUnmapped ;;;
     uc_hook_add UC_HOOK_BLOCK (CbBlock stop) ;;;
     uc_emu_start cpu fuel p ws (ws + 1024) ;;;
     pc <- uc_reg_read pcr ;; ret (Some pc))
    (post (body_result p (ws + 1024)) (escaped p) anything).
Proof.
  intros Harch Hpcr Hteb. cbv zeta.
  eapply triple_bind with (R := fun _ => uc_inv not_stopped).
  { intros w _. cbn. eexists. split; reflexivity. }
  intros _. setting_steps.
  eapply triple_bind; [apply (log_ret_keeps not_stopped p)|]. intros ptr_size.
  apply hoare_pre_eq. intros ->.
  unfold pointer_size_to_fmt.
  destruct (pointer_fmt (pointer_size p)) as [f|] eqn:Hf.
  2:{ intros w Hw. cbn. split; [now apply uc_inv_has_uc in Hw | right; auto]. }
  eapply hoare_bind_pure; [intros ?; reflexivity|].
  unfold struct_pack. rewrite pack_sentinel.
  eapply hoare_bind_pure; [intros ?; reflexivity|].
  setting_steps.
  eapply triple_bind with (R := fun _ => uc_inv not_stopped);
    [exact Hteb | intros ?].
  setting_steps.
  eapply triple_bind with (R := fun _ => finished p (ws + 1024));
    [now apply emu_start_result | intros _; now apply read_pc_result].
Qed.

Lemma bind_Raise {A B} (m : M A) (k : A -> M B) w e w' :
  m w = (Raise e, w') -> bind m k w = (Raise e, w').
Proof. intros H. unfold bind. now rewrite H. Qed.

(** When the engine library refuses to open, the handler of the resolver
    reads the variable [uc] that the failed assignment left unbound. *)
Lemma refused_engine_escapes cpu x fuel ws p exp :
  supported (architecture p) ->
  (resolve_under cpu (Some x) fuel ws p exp).1 = Raise (UnboundLocalError "uc").
Proof.
  intros Harch. unfold resolve_under, resolve_wrapped_api_under. exec_step.
  destruct (decide (architecture p = "ia32"%string)) as [Ha|Ha];
    [|destruct (decide (architecture p = "x64"%string)) as [Hb|Hb]].
  3:{ destruct Harch; contradiction. }
  all: exec_step; cbv beta iota.
  all: unfold try_except_UcError, uc_open.
  all: erewrite bind_Raise by reflexivity; reflexivity.
Qed.

Lemma resolve_result cpu refusal fuel ws p exp :
  resolution_result p (ws + 1024) refusal
    (resolve_under cpu refusal fuel ws p exp).1
    (resolve_under cpu refusal fuel ws p exp).2.
Proof.
  destruct (decide (supported (architecture p))) as [Harch|Harch].
  2:{ change (resolve_under cpu refusal fuel ws p exp) with
        (resolve_wrapped_api_under cpu refusal fuel ws p exp initial_world).
      unfold resolve_wrapped_api_under. exec_step.
      destruct (decide (architecture p = "ia32"%string)) as [Ha|Ha];
        [|destruct (decide (architecture p = "x64"%string)) as [Hb|Hb]].
      1,2: exfalso; apply Harch; unfold supported; auto.
      cbn. left. split; [reflexivity | exact Harch]. }
  destruct refusal as [x|].
  { rewrite refused_engine_escapes by exact Harch. cbn.
    right. right. split; [reflexivity|]. split; [exact Harch | now exists x]. }
  unfold resolve_under, resolve_wrapped_api_under.
  change (uc_open None) with uc_new. exec_step.
  destruct (decide (architecture p = "ia32"%string)) as [Ha|Ha];
    [|destruct (decide (architecture p = "x64"%string)) as [Hb|Hb]].
  3:{ destruct Harch; contradiction. }
  all: exec_step; cbv beta iota.
  all: match goal with
       | |- resolution_result _ _ _ (try_except_UcError ?b ?h ?w).1 _ =>
           assert (Hb' : post (body_result p (ws + 1024)) (escaped p) anything
                           (b w).1 (b w).2)
             by (apply body_resolution;
                 [ exact Harch | auto
                 | first [apply keeps_setup_teb_x86 | apply keeps_setup_teb_x64];
                   intros; assumption
                 | exact Logic.I ]);
           unfold try_except_UcError;
           destruct (b w) as [[[v|]|[x| | | |]|] w'];
           cbn [fst snd post body_result escaped] in Hb' |- *
       end.
  all: try exact Hb'.
  all: try contradiction.
  all: try exact Logic.I.
  all: try (destruct Hb' as [Hu _]; rewrite handler_returns_none by exact Hu;
            exact Logic.I).
  all: destruct Hb' as [_ [[x Hx]|[Hx Hf]]]; try discriminate.
  all: cbn [resolution_result]; right; left; auto.
Qed.



(** A wrapper whose first block halts the engine resolves to the address at
    which it halted, which is neither an export nor the end of the window. *)
Example halted_run_answers_where_it_halted :
  (resolve halting_cpu 8 0x401000 (demo_controller "ia32" 4 ∅) None).1 =
    Return (Some 0x401001).
Proof. vm_compute. reflexivity. Qed.

(** X10: the exceptions that leave the resolver.  [NotImplementedError]
    leaves it for an architecture tag other than "ia32" and "x64", and for a
    pointer size that has no format (other than 4 and 8) once the emulator
    exists.  When the engine library refuses to create the emulator, the
    handler of the [UcError] reads the unbound variable [uc] and
    [UnboundLocalError] leaves the resolver.  Nothing else does: every
    engine error raised after the emulator exists, during set-up or
    emulation, is caught. *)
Theorem exceptions_leaving_the_resolver cpu refusal fuel ws p exp e :
  (resolve_under cpu refusal fuel ws p exp).1 = Raise e ->
  (e = NotImplementedError /\ ~ supported (architecture p)) \/
  (e = NotImplementedError /\ supported (architecture p) /\
   refusal = None /\ pointer_fmt (pointer_size p) = None) \/
  (e = UnboundLocalError "uc" /\ supported (architecture p) /\
   is_Some refusal).
Proof.
  intros H. pose proof (resolve_result cpu refusal fuel ws p exp) as Hr.
  rewrite H in Hr. exact Hr.
Qed.

Lemma exceptions_leaving_the_resolver_witness :
  (UnboundLocalError "uc" = NotImplementedError /\
   ~ supported (architecture (demo_controller "x64" 8 ∅))) \/
  (UnboundLocalError "uc" = NotImplementedError /\
   supported (architecture (demo_controller "x64" 8 ∅)) /\
   Some UC_ERR_NOMEM = None /\
   pointer_fmt (pointer_size (demo_controller "x64" 8 ∅)) = None) \/
  (UnboundLocalError "uc" = UnboundLocalError "uc" /\
   supported (architecture (demo_controller "x64" 8 ∅)) /\
   is_Some (Some UC_ERR_NOMEM)).
Proof.
  apply (exceptions_leaving_the_resolver (stride_cpu 512) (Some UC_ERR_NOMEM) 8
           0x401000 (demo_controller "x64" 8 ∅) None (UnboundLocalError "uc")).
  vm_compute. reflexivity.
Defined.

(** ** A stack that the engine refuses *)

Lemma mem_map_refused a s perms u :
  s <= 0 \/ s mod 4096 <> 0 -> mem_map a s perms u = inl UC_ERR_ARG.
Proof.
  intros H. unfold mem_map.
  replace ((s <=? 0) || negb (a mod 4096 =? 0) || negb (s mod 4096 =? 0)) with true;
    [reflexivity|].
  symmetry. destruct H as [H|H].
  - apply Z.leb_le in H. now rewrite H.
  - apply Z.eqb_neq in H. rewrite H. cbn. now rewrite !orb_true_r.
Qed.

(** X11: when the page size reported for the process is not a positive
    multiple of the engine's 4 KiB page, the engine refuses the stack
    mapping; the resolver then answers "no result" without writing, adding a
    hook or starting the emulation: its whole interaction is the
    architecture query, the creation of the emulator, two page-size queries,
    the refused mapping and the three register reads of the handler. *)
Theorem refused_stack_mapping_returns_none cpu fuel ws p exp m :
  profile_for (architecture p) = Some m ->
  page_size p <= 0 \/ page_size p mod 4096 <> 0 ->
  resolve cpu fuel ws p exp =
    (Return None,
     {| uc := Some (fresh_uc m);
        trace := [EPc PcArchitecture; EUc (UcNew m); EPc PcPageSize; EPc PcPageSize;
                  EUc (UcMemMap (stack_addr_of m) (3 * page_size p)
                         (Z.lor UC_PROT_READ UC_PROT_WRITE));
                  EUc (UcRegRead (pc_register_of m));
                  EUc (UcRegRead (sp_register_of m));
                  EUc (UcRegRead (bp_register_of m))] |}).
Proof.
  intros Hm Hps.
  assert (H3 : 3 * page_size p <= 0 \/ (3 * page_size p) mod 4096 <> 0).
  { destruct Hps as [H|H]; [left; lia | right].
    intros H3. apply H. Z.div_mod_to_equations. lia. }
  unfold resolve, resolve_wrapped_api, resolve_wrapped_api_under.
  change (uc_open None) with uc_new. exec_step.
  destruct (profile_for_Some _ _ Hm) as [[Ha ->]|[Ha ->]]; rewrite Ha;
    [ rewrite decide_True by reflexivity
    | rewrite decide_False by discriminate; rewrite decide_True by reflexivity ].
  all: exec_step; cbv beta iota; do 3 exec_step.
  all: unfold try_except_UcError, uc_mem_map, uc_reg_read, bind, log, with_uc, ret;
    cbn [uc trace fst snd].
  all: rewrite mem_map_refused by exact H3; reflexivity.
Qed.

Lemma refused_stack_mapping_returns_none_witness :
  resolve (stride_cpu 512) 8 0x401000 (short_page_controller "ia32" 512 4) None =
    (Return None,
     {| uc := Some (fresh_uc UC_MODE_32);
        trace := [EPc PcArchitecture; EUc (UcNew UC_MODE_32); EPc PcPageSize;
                  EPc PcPageSize;
                  EUc (UcMemMap (stack_addr_of UC_MODE_32)
                         (3 * page_size (short_page_controller "ia32" 512 4))
                         (Z.lor UC_PROT_READ UC_PROT_WRITE));
                  EUc (UcRegRead (pc_register_of UC_MODE_32));
                  EUc (UcRegRead (sp_register_of UC_MODE_32));
                  EUc (UcRegRead (bp_register_of UC_MODE_32))] |}).
Proof.
  apply (refused_stack_mapping_returns_none (stride_cpu 512) 8 0x401000
           (short_page_controller "ia32" 512 4) None UC_MODE_32).
  - reflexivity.
  - right. vm_compute. discriminate.
Defined.

(** ** A wrapper that starts at an export *)

Lemma runs_bind {A B} (m : M A) (k : A -> M B) u a u1 b u2 :
  runs m u a u1 -> runs (k a) u1 b u2 -> runs (bind m k) u b u2.
Proof.
  intros Hm Hk t. destruct (Hm t) as [t1 H1]. destruct (Hk t1) as [t2 H2].
  exists t2. unfold bind. now rewrite H1.
Qed.

Lemma runs_pure {A} (m : M A) u a :
  (forall t, m {| uc := Some u; trace := t |} =
               (Return a, {| uc := Some u; trace := t |})) ->
  runs m u a u.
Proof. intros H t. exists t. apply H. Qed.

Lemma runs_log_ret {A} ev (a : A) u : runs (log ev ;;; ret a) u a u.
Proof. intros t. eexists. reflexivity. Qed.

Lemma runs_log ev u : runs (log ev) u tt u.
Proof. intros t. eexists. reflexivity. Qed.

Lemma runs_call {A} ev (f : Uc -> result A * Uc) u a u' :
  f u = (Return a, u') -> runs (log ev ;;; with_uc f) u a u'.
Proof.
  intros H t. eexists. unfold bind, log, with_uc. cbn. rewrite H. reflexivity.
Qed.

Lemma runs_try_except {A} (body : M A) h u a u' :
  runs body u a u' -> runs (try_except body h) u a u'.
Proof. intros H t. destruct (H t) as [t' Ht]. exists t'. unfold try_except. now rewrite Ht. Qed.

Lemma mem_map_ok a s perms u :
  0 < s -> a mod 4096 = 0 -> s mod 4096 = 0 -> 0 <= a -> a + s <= 2 ^ 64 ->
  Z.land perms (Z.lnot UC_PROT_ALL) = 0 ->
  Forall (fun r => a + s <= r_begin r \/ r_begin r + r_size r <= a) (regions u) ->
  mem_map a s perms u =
    inr (set_regions u ({| r_begin := a; r_size := s; r_perms := perms |} :: regions u)).
Proof.
  intros Hs Ha Hsm Ha0 Hhi Hp Hfree. unfold mem_map.
  replace (s <=? 0) with false by (symmetry; apply Z.leb_gt; lia).
  rewrite Ha, Hsm, Hp. cbn [Z.eqb negb orb].
  replace (a <? 0) with false by (symmetry; apply Z.ltb_ge; lia).
  replace (2 ^ 64 <? a + s) with false by (symmetry; apply Z.ltb_ge; lia).
  cbn [orb].
  replace (existsb (overlaps a s) (regions u)) with false; [reflexivity|].
  symmetry. apply not_true_is_false. intros H.
  apply existsb_exists in H. destruct H as (r & Hr & Ho).
  rewrite Forall_forall in Hfree. apply list_elem_of_In in Hr.
  specialize (Hfree r Hr).
  unfold overlaps in Ho. apply andb_true_iff in Ho. destruct Ho as [H1 H2].
  apply Z.ltb_lt in H1. apply Z.ltb_lt in H2. lia.
Qed.

Lemma runs_uc_mem_map a s perms u :
  0 < s -> a mod 4096 = 0 -> s mod 4096 = 0 -> 0 <= a -> a + s <= 2 ^ 64 ->
  Z.land perms (Z.lnot UC_PROT_ALL) = 0 ->
  Forall (fun r => a + s <= r_begin r \/ r_begin r + r_size r <= a) (regions u) ->
  runs (uc_mem_map a s perms) u tt
    (set_regions u ({| r_begin := a; r_size := s; r_perms := perms |} :: regions u)).
Proof.
  intros. apply runs_call. now rewrite mem_map_ok.
Qed.

Lemma runs_uc_mem_write a data u r :
  r ∈ regions u -> r_begin r <= a ->
  a + Z.of_nat (length data) <= r_begin r + r_size r ->
  runs (uc_mem_write a data) u tt (set_memory u (write_bytes a data (memory u))).
Proof.
  intros. apply runs_call. now rewrite (mem_write_inside u r a data) by assumption.
Qed.

Lemma range_mapped_more u u' a n :
  (forall i, is_Some (find_region u i) -> is_Some (find_region u' i)) ->
  range_mapped u a n = true -> range_mapped u' a n = true.
Proof.
  intros Hsub. unfold range_mapped. rewrite !forallb_forall.
  intros H i Hi. specialize (H i Hi).
  apply bool_decide_eq_true in H. apply bool_decide_eq_true. auto.
Qed.

Lemma find_region_cons u r rs i :
  regions u = r :: rs ->
  find_region u i = if in_region i r then Some r else List.find (in_region i) rs.
Proof. unfold find_region. intros ->. reflexivity. Qed.

(** The oracle requests a stop at an export when the word on top of the
    stack is a stop address. *)
Lemma hook_block_stops p a s stop u export f d :
  supported (architecture p) ->
  enumerate_exported_functions p !! a = Some export ->
  pointer_fmt (pointer_size p) = Some f ->
  mem_read (reg_sp (regs u)) (pointer_size p) u = inr d ->
  le_value d = stop \/ le_value d = STACK_MAGIC_RET_ADDR ->
  runs (_unicorn_hook_block a s (p, stop)) u tt (set_stop_request u true).
Proof.
  intros Harch Hexp Hf Hread Hv t.
  destruct (block_hook_registers_supported _ Harch) as (pcr & spr & Hreg & Hsp).
  unfold _unicorn_hook_block. do 3 exec_step. rewrite Hreg, Hexp.
  do 2 exec_step. rewrite Hsp.
  unfold uc_mem_read, pointer_size_to_fmt, struct_unpack, uc_emu_stop,
    log, with_uc, ret, raise, bind. cbn [uc trace fst snd].
  rewrite Hread, Hf. cbn [uc trace fst snd]. unfold unpack_bytes.
  rewrite (mem_read_length _ _ _ _ Hread), (pointer_fmt_length _ _ Hf),
    Nat.eqb_refl. cbn [uc trace fst snd].
  replace ((le_value d =? stop) || (le_value d =? STACK_MAGIC_RET_ADDR)) with true.
  2:{ symmetry. apply orb_true_iff.
      destruct Hv as [Hv|Hv]; [left|right]; now apply Z.eqb_eq. }
  cbn [uc trace fst snd]. eexists. reflexivity.
Qed.

Lemma runs_hook_unmapped p u a data :
  a <> 0 ->
  read_process_memory p (aligned_addr_of p a) (page_size p) = Some data ->
  0 < Z.of_nat (length data) ->
  aligned_addr_of p a mod 4096 = 0 -> Z.of_nat (length data) mod 4096 = 0 ->
  0 <= aligned_addr_of p a ->
  aligned_addr_of p a + Z.of_nat (length data) <= 2 ^ 64 ->
  Forall (fun r => aligned_addr_of p a + Z.of_nat (length data) <= r_begin r \/
                   r_begin r + r_size r <= aligned_addr_of p a) (regions u) ->
  runs (_unicorn_hook_unmapped a p) u true
    (set_memory
       (set_regions u ({| r_begin := aligned_addr_of p a;
                          r_size := Z.of_nat (length data);
                          r_perms := UC_PROT_ALL |} :: regions u))
       (write_bytes (aligned_addr_of p a) data (memory u))).
Proof.
  intros Ha Hread Hlen Hal Hsm H0 Hhi Hfree t.
  rewrite (hook_unmapped_equation p t u a Ha). cbv zeta.
  rewrite Hread, mem_map_ok by (assumption || reflexivity).
  eexists. reflexivity.
Qed.

Lemma loop_stops_at_first_export cpu n p ws stop u export data f d :
  supported (architecture p) ->
  stop_request u = false -> reg_pc (regs u) = ws ->
  hooks u = [(UC_HOOK_MEM_UNMAPPED, CbUnmapped); (UC_HOOK_BLOCK, CbBlock stop)] ->
  find_region u ws = None ->
  ws <> 0 ->
  read_process_memory p (aligned_addr_of p ws) (page_size p) = Some data ->
  aligned_addr_of p ws mod 4096 = 0 -> Z.of_nat (length data) mod 4096 = 0 ->
  0 <= aligned_addr_of p ws ->
  aligned_addr_of p ws + Z.of_nat (length data) <= 2 ^ 64 ->
  Forall (fun r => aligned_addr_of p ws + Z.of_nat (length data) <= r_begin r \/
                   r_begin r + r_size r <= aligned_addr_of p ws) (regions u) ->
  aligned_addr_of p ws <= ws < aligned_addr_of p ws + Z.of_nat (length data) ->
  enumerate_exported_functions p !! ws = Some export ->
  pointer_fmt (pointer_size p) = Some f ->
  mem_read (reg_sp (regs u)) (pointer_size p) u = inr d ->
  le_value d = stop \/ le_value d = STACK_MAGIC_RET_ADDR ->
  (reg_sp (regs u) + pointer_size p <= aligned_addr_of p ws \/
   aligned_addr_of p ws + Z.of_nat (length data) <= reg_sp (regs u)) ->
  runs (emu_loop cpu (S (S (S n))) p (ws + 1024) false) u tt
    (set_stop_request
       (set_memory
          (set_regions u ({| r_begin := aligned_addr_of p ws;
                             r_size := Z.of_nat (length data);
                             r_perms := UC_PROT_ALL |} :: regions u))
          (write_bytes (aligned_addr_of p ws) data (memory u)))
       true).
Proof.
  intros Harch Hstop Hpc Hhooks Hfind Hws Hread Hal Hsm H0 Hhi Hfree Hin Hexp Hf
    Hsp Hv Hdisj.
  set (al := aligned_addr_of p ws) in *.
  set (page := {| r_begin := al; r_size := Z.of_nat (length data);
                  r_perms := UC_PROT_ALL |}).
  set (u2 := set_memory (set_regions u (page :: regions u))
               (write_bytes al data (memory u))).
  assert (Hlen : 0 < Z.of_nat (length data)) by lia.
  assert (Hptr : 0 < pointer_size p).
  { pose proof (pointer_fmt_length _ _ Hf). destruct f; cbn in *; lia. }
  assert (Hsp2 : mem_read (reg_sp (regs u2)) (pointer_size p) u2 = inr d).
  { revert Hsp. unfold mem_read. cbn [u2 regs set_memory set_regions memory].
    destruct (range_mapped u _ _) eqn:Hrm; [|discriminate]. intros [= <-].
    erewrite (range_mapped_more u); [ | | exact Hrm].
    2:{ intros i [r Hr]. rewrite (find_region_cons _ page (regions u)) by reflexivity.
        destruct (in_region i page); [eauto|]. unfold find_region in Hr. eauto. }
    f_equal. apply read_bytes_ext. intros i Hi.
    rewrite Z2Nat.id in Hi by lia.
    destruct Hdisj; [apply write_bytes_lookup_before | apply write_bytes_lookup_after];
      lia. }
  change (runs (emu_loop cpu (S (S (S n))) p (ws + 1024) false) u tt
            (set_stop_request u2 true)).
  assert (Hne : (ws =? ws + 1024) = false) by (apply Z.eqb_neq; lia).
  (* first event: the fetch at [ws] is unmapped and the bridge maps its page *)
  cbn [emu_loop].
  eapply runs_bind; [apply runs_pure; reflexivity|]. cbv beta.
  rewrite Hstop, Hpc, Hne, Hfind, Hhooks. cbn [dispatch_unmapped].
  eapply runs_bind.
  { eapply runs_bind; [apply runs_log|].
    eapply runs_bind; [now apply (runs_hook_unmapped p u ws data)|].
    apply runs_pure. reflexivity. }
  cbv beta iota. fold al page u2.
  (* second event: the block at [ws] is entered and the oracle stops the run *)
  eapply runs_bind; [apply runs_pure; reflexivity|]. cbv beta.
  replace (stop_request u2) with false by (symmetry; exact Hstop).
  replace (reg_pc (regs u2)) with ws by (symmetry; exact Hpc).
  rewrite Hne.
  rewrite (find_region_cons u2 page (regions u) ws) by reflexivity.
  replace (in_region ws page) with true.
  2:{ symmetry. unfold in_region. cbn [page r_begin r_size].
      apply andb_true_iff. split; [apply Z.leb_le | apply Z.ltb_lt]; lia. }
  replace (executable page) with true by reflexivity.
  replace (hooks u2) with (hooks u) by reflexivity. rewrite Hhooks.
  cbn [dispatch_block].
  eapply runs_bind.
  { apply runs_try_except.
    eapply runs_bind; [apply runs_log|].
    eapply runs_bind;
      [apply (hook_block_stops p ws _ stop u2 export f d); assumption|].
    apply runs_pure. reflexivity. }
  (* third event: the stop request ends the run *)
  eapply runs_bind; [apply runs_pure; reflexivity|]. cbv beta.
  replace (stop_request (set_stop_request u2 true)) with true by reflexivity.
  apply runs_log.
Qed.

Lemma page_size_facts k ps :
  12 <= k <= 18 -> ps = 2 ^ k -> ps mod 4096 = 0 /\ 4096 <= ps <= 262144.
Proof.
  intros Hk ->. replace k with (12 + (k - 12)) by lia.
  rewrite Z.pow_add_r by lia.
  assert (1 <= 2 ^ (k - 12) <= 2 ^ 6).
  { split; [apply (Z.pow_le_mono_r 2 0); lia | apply Z.pow_le_mono_r; lia]. }
  split; [rewrite Z.mul_comm; apply Z.mod_mul; lia | lia].
Qed.

Lemma aligned_addr_facts p a k :
  12 <= k -> page_size p = 2 ^ k -> 0 <= a ->
  aligned_addr_of p a mod 4096 = 0 /\ 0 <= aligned_addr_of p a /\
  aligned_addr_of p a <= a < aligned_addr_of p a + page_size p.
Proof.
  intros Hk Hp Ha. rewrite (aligned_addr_mod p a k) by (lia || assumption).
  assert (Hpos : 0 < page_size p) by (rewrite Hp; apply Z.pow_pos_nonneg; lia).
  assert (Hq : page_size p = 4096 * 2 ^ (k - 12)).
  { rewrite Hp. replace k with (12 + (k - 12)) at 1 by lia.
    rewrite Z.pow_add_r by lia. reflexivity. }
  pose proof (Z.div_pos a (page_size p) Ha Hpos) as Hd.
  split; [|split].
  - rewrite Hq at 1. rewrite <- !Z.mul_assoc, Z.mul_comm. apply Z.mod_mul. lia.
  - lia.
  - pose proof (Z.div_mod a (page_size p)) as H.
    pose proof (Z.mod_pos_bound a (page_size p) Hpos). lia.
Qed.

Lemma le_value_sentinel f :
  le_value (le_bytes (fmt_size f) STACK_MAGIC_RET_ADDR) = STACK_MAGIC_RET_ADDR.
Proof. destruct f; vm_compute; reflexivity. Qed.

Ltac uc_cbn :=
  cbn [regions memory regs hooks mode stop_request set_regions set_memory
       set_regs set_hooks set_stop_request reg_write reg_write_msr fresh_uc
       reg_pc reg_sp reg_bp msr r_begin r_size r_perms app].

Ltac side_condition :=
  uc_cbn; rewrite ?length_le_bytes; cbn [fmt_size];
  first [ assumption | reflexivity | lia
        | solve [Z.div_mod_to_equations; lia]
        | solve [repeat first [apply list_elem_of_here | apply list_elem_of_further]]
        | solve [repeat (apply Forall_cons; split; [uc_cbn; lia|]);
                 apply Forall_nil_2] ].

Lemma runs_with_uc {A} (f : Uc -> result A * Uc) u a u' :
  f u = (Return a, u') -> runs (with_uc f) u a u'.
Proof. intros H t. eexists. unfold with_uc. cbn. rewrite H. reflexivity. Qed.

Ltac run_call :=
  first [ apply runs_log_ret
        | apply runs_log
        | apply runs_with_uc; reflexivity
        | apply runs_uc_mem_map; side_condition
        | eapply runs_uc_mem_write;
            [uc_cbn; apply list_elem_of_here | side_condition | side_condition]
        | eapply runs_uc_mem_write;
            [uc_cbn; apply list_elem_of_further, list_elem_of_here
            | side_condition | side_condition]
        | apply runs_call; reflexivity
        | apply runs_pure; intros; reflexivity ].

Ltac run_step := eapply runs_bind; [run_call | cbv beta zeta; uc_cbn].

Lemma wrapper_at_export cpu fuel ws p exp m f k export data :
  profile_for (architecture p) = Some m ->
  pointer_fmt (pointer_size p) = Some f ->
  12 <= k <= 18 -> page_size p = 2 ^ k ->
  0 < ws -> ws + page_size p <= stack_addr_of m ->
  enumerate_exported_functions p !! ws = Some export ->
  read_process_memory p (aligned_addr_of p ws) (page_size p) = Some data ->
  Z.of_nat (length data) = page_size p ->
  (3 <= fuel)%nat ->
  (resolve cpu fuel ws p exp).1 = Return (Some ws).
Proof.
  intros Hm Hf Hk Hp Hws Hbelow Hexp Hread Hlen Hfuel.
  destruct (page_size_facts k (page_size p) Hk Hp) as (Hps4 & Hps).
  destruct (aligned_addr_facts p ws k) as (Hal4 & Hal0 & Hal);
    [lia | exact Hp | lia |].
  assert (Hfs : Z.of_nat (fmt_size f) <= 8) by (destruct f; cbn; lia).
  assert (Hpf := pointer_fmt_length _ _ Hf).
  destruct fuel as [|[|[|n]]]; try lia. clear Hfuel.
  unfold resolve, resolve_wrapped_api, resolve_wrapped_api_under.
  change (uc_open None) with uc_new. exec_step.
  assert (Harch : supported (architecture p)).
  { destruct (profile_for_Some _ _ Hm) as [[Ha _]|[Ha _]]; unfold supported; auto. }
  destruct (profile_for_Some _ _ Hm) as [[Ha ->]|[Ha ->]]; rewrite Ha;
    [ rewrite decide_True by reflexivity
    | rewrite decide_False by discriminate; rewrite decide_True by reflexivity ].
  all: cbn [stack_addr_of] in Hbelow.
  all: exec_step; cbv beta iota; exec_step.
  all: match goal with
       | |- (try_except_UcError ?b ?h {| uc := Some ?u; trace := ?t |}).1 = _ =>
           cut (exists u', runs b u (Some ws) u');
             [ intros [u' Hr]; destruct (Hr t) as [t' Ht];
               unfold try_except_UcError; rewrite Ht; reflexivity | ]
       end.
  all: eexists; cbv zeta.
  all: do 4 run_step.
  all: unfold pointer_size_to_fmt at 1; rewrite Hf; run_step.
  all: unfold struct_pack at 1; rewrite pack_sentinel; run_step.
  all: do 3 run_step.
  all: eapply runs_bind;
         [ unfold _setup_teb_x86, _setup_teb_x64; cbv zeta;
           do 10 run_step; run_call
         | cbv beta zeta ].
  all: do 2 run_step.
  all: eapply runs_bind;
         [ unfold uc_emu_start; do 3 run_step;
           eapply (loop_stops_at_first_export cpu n p ws _ _ export data f
                     (le_bytes (fmt_size f) STACK_MAGIC_RET_ADDR));
           [ exact Harch | reflexivity | reflexivity | reflexivity
           | unfold find_region; uc_cbn; cbn [find]; unfold in_region; uc_cbn;
             repeat match goal with
                    | |- context [?a <=? ?b] =>
                        replace (a <=? b) with false
                          by (symmetry; apply Z.leb_gt; lia);
                        cbn [andb]
                    end;
             reflexivity
           | lia | exact Hread | exact Hal4 | rewrite Hlen; exact Hps4
           | exact Hal0 | lia
           | repeat (apply Forall_cons; split; [uc_cbn; lia|]); apply Forall_nil_2
           | lia | exact Hexp | exact Hf
           | unfold mem_read; rewrite Hpf;
             erewrite range_mapped_inside;
               [ | uc_cbn; do 2 apply list_elem_of_further; apply list_elem_of_here
                 | uc_cbn; lia | uc_cbn; lia ];
             f_equal; uc_cbn;
             do 2 (erewrite read_bytes_ext;
                     [ | intros i Hi; apply write_bytes_lookup_before; lia ]);
             apply read_last_written; now rewrite length_le_bytes
           | right; apply le_value_sentinel
           | right; uc_cbn; lia ]
         | ].
  all: run_step; apply runs_pure; intros; reflexivity.
Qed.

(** X12: on a supported target (pointer size 4 or 8, page size a power of
    two between 4 KiB and 256 KiB) whose wrapper start address is itself an
    export, lies below the emulator's stack and is on a page that the real
    process lets read in full, the resolver returns the wrapper start
    address, whatever the engine's instruction semantics and whatever
    return address the caller expects: the bridge maps the page, the oracle
    finds the sentinel on top of the stack and stops the run before
    anything is executed. *)
Theorem export_at_wrapper_start_resolves cpu fuel ws p exp m f k export data :
  profile_for (architecture p) = Some m ->
  pointer_fmt (pointer_size p) = Some f ->
  12 <= k <= 18 -> page_size p = 2 ^ k ->
  0 < ws -> ws + page_size p <= stack_addr_of m ->
  enumerate_exported_functions p !! ws = Some export ->
  read_process_memory p (aligned_addr_of p ws) (page_size p) = Some data ->
  Z.of_nat (length data) = page_size p ->
  (3 <= fuel)%nat ->
  (resolve cpu fuel ws p exp).1 = Return (Some ws).
Proof. apply wrapper_at_export. Qed.

Lemma export_at_wrapper_start_resolves_witness :
  (resolve (pushing_cpu 4 512) 3 0x401200
     (demo_controller "ia32" 4 {[ 0x401200 := {| name := "CreateFileW" |} ]})
     (Some 0x401005)).1 = Return (Some 0x401200).
Proof.
  apply (export_at_wrapper_start_resolves (pushing_cpu 4 512) 3 0x401200
           (demo_controller "ia32" 4 {[ 0x401200 := {| name := "CreateFileW" |} ]})
           (Some 0x401005) UC_MODE_32 FmtI 12 {| name := "CreateFileW" |}
           (repeat x00 4096)).
  - reflexivity.
  - reflexivity.
  - lia.
  - reflexivity.
  - lia.
  - cbn. lia.
  - vm_compute. reflexivity.
  - vm_compute. reflexivity.
  - vm_compute. reflexivity.
  - lia.
Defined.
